(** * PyCliTetris: a shallow embedding of the simulation core

    The Python classes of [PyCliTetris.py] are embedded one module per class.
    Python integers are unbounded and become [Z]; Python lists become [list]
    with Python's indexing rules (negative indices count from the end, an
    index outside the list raises [IndexError]) written out; methods that
    mutate an object become functions in a state-and-exception monad whose
    state survives a raised exception, as a Python object does. *)

From Stdlib Require Import ZArith Lia Bool Ascii.
From stdpp Require Import base list numbers sorting relations.

Local Open Scope Z_scope.

(** ** Exceptions and the state-and-exception monad *)

Inductive exn : Type :=
| IndexError
| ValueError.

(** The result of running a method on a state of type [St]: it returns a
    value, or raises; either way the (possibly partly mutated) state is
    kept. *)
Inductive outcome (St A : Type) : Type :=
| Ret (s : St) (a : A)
| Raise (s : St) (e : exn).

Arguments Ret {St A} s a.
Arguments Raise {St A} s e.

Definition M (St A : Type) : Type := St -> outcome St A.

Definition ret {St A} (a : A) : M St A := fun s => Ret s a.

Definition raise {St A} (e : exn) : M St A := fun s => Raise s e.

Definition bind {St A B} (m : M St A) (k : A -> M St B) : M St B :=
  fun s =>
    match m s with
    | Ret s' a => k a s'
    | Raise s' e => Raise s' e
    end.

Definition get {St} : M St St := fun s => Ret s s.

Definition put {St} (s : St) : M St unit := fun _ => Ret s tt.

Notation "x <~ m ;; k" := (bind m (fun x => k))
  (at level 62, m at next level, right associativity).
Notation "m ;;; k" := (bind m (fun _ => k))
  (at level 62, right associativity).

(** The state an outcome ends in. *)
Definition final_state {St A} (o : outcome St A) : St :=
  match o with
  | Ret s _ => s
  | Raise s _ => s
  end.

Definition returned {St A} (o : outcome St A) : bool :=
  match o with
  | Ret _ _ => true
  | Raise _ _ => false
  end.

Definition map_state {St St' A} (f : St -> St') (o : outcome St A) : outcome St' A :=
  match o with
  | Ret s a => Ret (f s) a
  | Raise s e => Raise (f s) e
  end.

(** Runs a method of a component object stored inside a larger state. *)
Definition zoom {St Sub A} (proj : St -> Sub) (upd : Sub -> St -> St)
    (m : M Sub A) : M St A :=
  fun s => map_state (fun sub => upd sub s) (m (proj s)).

(** An option read lifted into the monad: [None] is Python's [IndexError]. *)
Definition index_or_raise {St A} (o : option A) : M St A :=
  match o with
  | Some a => ret a
  | None => raise IndexError
  end.

(** ** Python list indexing *)

(** [l[i]]: a non-negative index counts from the front, a negative one from
    the end; anything else is out of range. *)
Definition py_index (len : nat) (i : Z) : option nat :=
  if (0 <=? i) && (i <? Z.of_nat len) then Some (Z.to_nat i)
  else if (- Z.of_nat len <=? i) && (i <? 0) then Some (Z.to_nat (Z.of_nat len + i))
  else None.

Definition py_getitem {A} (l : list A) (i : Z) : option A :=
  match py_index (length l) i with
  | Some n => l !! n
  | None => None
  end.

Definition py_setitem {A} (l : list A) (i : Z) (a : A) : option (list A) :=
  match py_index (length l) i with
  | Some n => Some (<[n:=a]> l)
  | None => None
  end.

(** [l.pop(i)]: the list without its [i]-th element. *)
Definition py_pop {A} (l : list A) (i : Z) : option (A * list A) :=
  match py_index (length l) i with
  | Some n =>
      match l !! n with
      | Some a => Some (a, delete n l)
      | None => None
      end
  | None => None
  end.

(** ** class Vector *)

Module Vector.

Record t : Type := mk { x : Z; y : Z }.

Definition add_xy (self : t) (dx dy : Z) : t :=
  mk (x self + dx) (y self + dy).

Definition add_vector (self vector : t) : t :=
  add_xy self (x vector) (y vector).

Definition add_x (self : t) (dx : Z) : t := add_xy self dx 0.

Definition add_y (self : t) (dy : Z) : t := add_xy self 0 dy.

Definition rotate90 (self anchor : t) : t :=
  let xRotated := x self - x anchor in
  let yRotated := y self - y anchor in
  let '(xRotated, yRotated) := (- yRotated, xRotated) in
  let xRotated := xRotated + x anchor in
  let yRotated := yRotated + y anchor in
  mk xRotated yRotated.

Definition scale (self : t) (xScale yScale : Z) : t :=
  mk (x self * xScale) (y self * yScale).

#[global] Instance eq_dec : EqDecision t.
Proof. solve_decision. Defined.

End Vector.

(** ** class Vectors *)

Module Vectors.

(** The object holds one attribute, the list [vectors]. *)
Definition t : Type := list Vector.t.

Definition translate_all (self : t) (translation : Vector.t) : t :=
  (fun vector => Vector.add_vector vector translation) <$> self.

(** The loop of [get_rotated90_around_anchor]: [anchor] is [False] (here
    [None]) until the first element has been seen; a [Vector] object is
    always truthy, so the test [not anchor] fails from then on. *)
Fixpoint rotate_loop (anchor : option Vector.t) (vectors new_vectors : list Vector.t)
    : list Vector.t :=
  match vectors with
  | [] => new_vectors
  | vector :: rest =>
      match anchor with
      | None => rotate_loop (Some vector) rest (new_vectors ++ [vector])
      | Some a => rotate_loop anchor rest (new_vectors ++ [Vector.rotate90 vector a])
      end
  end.

Definition get_rotated90_around_anchor (self : t) : t :=
  rotate_loop None self [].

End Vectors.

(** ** class Color, class ColorChar *)

Module Color.

Record t : Type := mk { r : Z; g : Z; b : Z }.

(** [int(e)] of a float quotient truncates towards zero; on the colour
    components used by the game (0..255) the float arithmetic is exact,
    so the truncated integer quotient is the value computed. *)
Definition shift_to_gray (self : t) : t :=
  let avg := Z.quot (r self + g self + b self) 3 in
  let shift := Z.min 255 (avg + 25) in
  mk (Z.quot (r self + shift) 2) (Z.quot (g self + shift) 2) (Z.quot (b self + shift) 2).

End Color.

Module ColorChar.

Record t : Type := mk { char : ascii; fgColor : Color.t; bgColor : Color.t }.

Definition shift_to_gray (self : t) : t :=
  mk (char self) (Color.shift_to_gray (fgColor self)) (Color.shift_to_gray (bgColor self)).

End ColorChar.

(** ** class InputController *)

Module InputController.

(** The dictionary [_keys] always has the same four keys; a record of its
    four values stands for it. *)
Record t : Type := mk { left : Z; right : Z; up : Z; down : Z }.

Definition __init__ : t := mk 0 0 0 0.

Inductive key : Type := Left | Right | Up | Down.

Definition get_key (self : t) (k : key) : Z :=
  match k with
  | Left => left self
  | Right => right self
  | Up => up self
  | Down => down self
  end.

Definition set_key (k : key) (v : Z) (self : t) : t :=
  match k with
  | Left => mk v (right self) (up self) (down self)
  | Right => mk (left self) v (up self) (down self)
  | Up => mk (left self) (right self) v (down self)
  | Down => mk (left self) (right self) (up self) v
  end.

(** [update] polls the keyboard once per key in each of its two loops;
    [pressed1] and [pressed2] are what the polls of the first and of the
    second loop answer. *)
Definition update (pressed1 pressed2 : key -> bool) (self : t) : t :=
  let press self k :=
    if pressed1 k && (get_key self k =? 0) then set_key k 1 self else self in
  let release self k :=
    if negb (pressed2 k) && (get_key self k =? 2) then set_key k 0 self else self in
  let self := foldl press self [Left; Right; Up; Down] in
  foldl release self [Left; Right; Up; Down].

Definition take_dx : M t Z :=
  self <~ get ;;
  let dx := 0 in
  dx <~ (if left self =? 1
         then put (set_key Left 2 self) ;;; ret (dx - 1)
         else ret dx) ;;
  self <~ get ;;
  dx <~ (if right self =? 1
         then put (set_key Right 2 self) ;;; ret (dx + 1)
         else ret dx) ;;
  ret dx.

Definition take_up : M t bool :=
  self <~ get ;;
  if up self =? 1 then put (set_key Up 2 self) ;;; ret true else ret false.

Definition take_down : M t bool :=
  self <~ get ;;
  if down self =? 1 then put (set_key Down 2 self) ;;; ret true else ret false.

End InputController.

(** ** class Score *)

Module Score.

Record t : Type := mk { _value : Z }.

Definition __init__ : t := mk 0.

Definition add (lines : Z) : M t unit :=
  fun self =>
    if lines =? 4 then Ret (mk (_value self + 800)) tt
    else if lines =? 3 then Ret (mk (_value self + 500)) tt
    else if lines =? 2 then Ret (mk (_value self + 300)) tt
    else if lines =? 1 then Ret (mk (_value self + 100)) tt
    else if lines =? 0 then Ret self tt
    else Raise self ValueError.

End Score.

(** ** class Playfield *)

Module Playfield.

(** A cell holds [False] (here [None]) or the [ColorChar] of the piece
    that landed there; a [ColorChar] object is truthy. *)
Definition cell : Type := option ColorChar.t.

Definition truthy (c : cell) : bool :=
  match c with
  | Some _ => true
  | None => false
  end.

Record t : Type := mk {
  size : Vector.t;
  playfieldContent : list (list cell);
  topped_out : bool;
  _score : Score.t
}.

Definition set_content (content : list (list cell)) (self : t) : t :=
  mk (size self) content (topped_out self) (_score self).

Definition set_topped_out (flag : bool) (self : t) : t :=
  mk (size self) (playfieldContent self) flag (_score self).

Definition set_score (score : Score.t) (self : t) : t :=
  mk (size self) (playfieldContent self) (topped_out self) score.

(** [[False for x in range(width)]] *)
Definition empty_row (width : Z) : list cell := replicate (Z.to_nat width) None.

Definition __init__ (score : Score.t) (size : Vector.t) : t :=
  mk size
     (replicate (Z.to_nat (Vector.y size)) (empty_row (Vector.x size)))
     false
     score.

(** [self.playfieldContent[y][x]], with Python's indexing at both levels. *)
Definition content_at (self : t) (x y : Z) : option cell :=
  match py_getitem (playfieldContent self) y with
  | Some row => py_getitem row x
  | None => None
  end.

(** [self.playfieldContent[y][x] = colorChar] *)
Definition set_cell (x y : Z) (colorChar : ColorChar.t) : M t unit :=
  self <~ get ;;
  row <~ index_or_raise (py_getitem (playfieldContent self) y) ;;
  row' <~ index_or_raise (py_setitem row x (Some colorChar)) ;;
  content' <~ index_or_raise (py_setitem (playfieldContent self) y row') ;;
  put (set_content content' self).

(** First loop of [land]: write the cells, collect the distinct rows. *)
Fixpoint land_mark (vectors : list Vector.t) (colorChar : ColorChar.t)
    (rowsToScan : list Z) : M t (list Z) :=
  match vectors with
  | [] => ret rowsToScan
  | vector :: rest =>
      set_cell (Vector.x vector) (Vector.y vector) colorChar ;;;
      land_mark rest colorChar
        (if bool_decide (Vector.y vector ∈ rowsToScan)
         then rowsToScan
         else rowsToScan ++ [Vector.y vector])
  end.

Fixpoint hit_count (row : list cell) (hitCount : Z) : Z :=
  match row with
  | [] => hitCount
  | c :: rest => hit_count rest (if truthy c then hitCount + 1 else hitCount)
  end.

(** Second loop of [land]: the scanned rows that are full. *)
Fixpoint land_scan (rowsToScan rowsToRemove : list Z) : M t (list Z) :=
  match rowsToScan with
  | [] => ret rowsToRemove
  | rowToScan :: rest =>
      self <~ get ;;
      row <~ index_or_raise (py_getitem (playfieldContent self) rowToScan) ;;
      let hitCount := hit_count row 0 in
      land_scan rest
        (if Vector.x (size self) <=? hitCount
         then rowsToRemove ++ [rowToScan]
         else rowsToRemove)
  end.

(** [for rowToRemove in rows: self.playfieldContent.pop(rowToRemove)] *)
Fixpoint land_pop (rows : list Z) : M t unit :=
  match rows with
  | [] => ret tt
  | rowToRemove :: rest =>
      self <~ get ;;
      popped <~ index_or_raise (py_pop (playfieldContent self) rowToRemove) ;;
      put (set_content (snd popped) self) ;;;
      land_pop rest
  end.

(** [for rowToRemove in rows: self.playfieldContent.insert(0, emptyRow)] *)
Fixpoint land_insert (rows : list Z) : M t unit :=
  match rows with
  | [] => ret tt
  | _ :: rest =>
      self <~ get ;;
      put (set_content (empty_row (Vector.x (size self)) :: playfieldContent self) self) ;;;
      land_insert rest
  end.

Definition land_check_top : M t unit :=
  self <~ get ;;
  topRow <~ index_or_raise (py_getitem (playfieldContent self) 0) ;;
  put (foldl (fun self topRowCell =>
                if truthy topRowCell then set_topped_out true self else self)
             self topRow).

(** [land] up to the point where [rowsToRemove] is known. *)
Definition land_rows (vectors : list Vector.t) (colorChar : ColorChar.t)
    : M t (list Z) :=
  let colorChar := ColorChar.shift_to_gray colorChar in
  rowsToScan <~ land_mark vectors colorChar [] ;;
  let rowsToScan := merge_sort Z.le rowsToScan in
  land_scan rowsToScan [].

(** The rest of [land]: compaction, top-row check, score. *)
Definition land_compact (rowsToRemove : list Z) : M t unit :=
  land_pop (rev rowsToRemove) ;;;
  land_insert rowsToRemove ;;;
  land_check_top ;;;
  zoom _score set_score (Score.add (Z.of_nat (length rowsToRemove))).

Definition land (vectors : list Vector.t) (colorChar : ColorChar.t) : M t unit :=
  rowsToRemove <~ land_rows vectors colorChar ;;
  land_compact rowsToRemove.

(** [floor]: the first row, from the top, whose cell in column [x] is set. *)
Fixpoint floor_loop (self : t) (x : Z) (ys : list nat) : outcome t Z :=
  match ys with
  | [] => Ret self (Vector.y (size self))
  | y :: rest =>
      match content_at self x (Z.of_nat y) with
      | None => Raise self IndexError
      | Some c => if truthy c then Ret self (Z.of_nat y) else floor_loop self x rest
      end
  end.

Definition floor (x : Z) : M t Z :=
  fun self => floor_loop self x (seq 0 (length (playfieldContent self))).

End Playfield.

(** ** class Tetromino and its seven subclasses *)

Module Tetromino.

(** The subclasses differ in their spawn cells, their [color_char] and,
    for [Tetromino_O], the overridden [_rotate]. *)
Inductive kind : Type :=
| Tetromino_I
| Tetromino_J
| Tetromino_L
| Tetromino_O
| Tetromino_S
| Tetromino_Z
| Tetromino_T.

#[global] Instance kind_eq_dec : EqDecision kind.
Proof. solve_decision. Defined.

Record t : Type := mk {
  cls : kind;
  _position : Vectors.t;
  landed : bool
}.

Definition set_position (position : Vectors.t) (self : t) : t :=
  mk (cls self) position (landed self).

Definition set_landed (flag : bool) (self : t) : t :=
  mk (cls self) (_position self) flag.

(** The constructors: [int(playfield.size.x / 2)] truncates the float
    quotient.  Up to a width of 2^53 the float division by 2 is exact and
    the truncated integer quotient is the value computed; what is stated
    of the anchor column is stated for such widths. *)
Definition __init__ (k : kind) (playfield : Playfield.t) : t :=
  let half := Z.quot (Vector.x (Playfield.size playfield)) 2 in
  let cells anchor offsets :=
    anchor :: ((fun d => Vector.add_xy anchor (fst d) (snd d)) <$> offsets) in
  let position :=
    match k with
    | Tetromino_I => cells (Vector.mk half 2) [(0, -2); (0, -1); (0, 1)]
    | Tetromino_J => cells (Vector.mk half 0) [(-1, 0); (1, 0); (1, 1)]
    | Tetromino_L => cells (Vector.mk half 1) [(-1, 0); (1, 0); (1, -1)]
    | Tetromino_O => cells (Vector.mk half 0) [(1, 0); (0, 1); (1, 1)]
    | Tetromino_S => cells (Vector.mk half 0) [(-1, 1); (0, 1); (1, 0)]
    | Tetromino_Z => cells (Vector.mk half 0) [(-1, 0); (0, 1); (1, 1)]
    | Tetromino_T => cells (Vector.mk half 1) [(-1, 0); (0, -1); (1, 0)]
    end in
  mk k position false.

Definition color_char (self : t) : ColorChar.t :=
  let white := Color.mk 255 255 255 in
  let bg :=
    match cls self with
    | Tetromino_I => Color.mk 173 216 230
    | Tetromino_J => Color.mk 0 0 139
    | Tetromino_L => Color.mk 255 165 0
    | Tetromino_O => Color.mk 255 255 0
    | Tetromino_S => Color.mk 0 173 67
    | Tetromino_Z => Color.mk 255 0 0
    | Tetromino_T => Color.mk 208 65 126
    end in
  ColorChar.mk " "%char white bg.

(** A piece and the playfield its [_playfield] attribute refers to. *)
Record env : Type := mkEnv { self : t; _playfield : Playfield.t }.

Definition set_self (piece : t) (e : env) : env := mkEnv piece (_playfield e).

Definition set_playfield (playfield : Playfield.t) (e : env) : env :=
  mkEnv (self e) playfield.

(** The test made for one cell by [_move_horizontally] and [_rotate]:
    [(x >= size.x) or (x < 0) or playfieldContent[y][x]]. *)
Definition cell_blocked (x y : Z) : M env bool :=
  fun e =>
    if (Vector.x (Playfield.size (_playfield e)) <=? x) || (x <? 0) then Ret e true
    else
      match Playfield.content_at (_playfield e) x y with
      | Some c => Ret e (Playfield.truthy c)
      | None => Raise e IndexError
      end.

Fixpoint _move_horizontally_loop (blocks : list Vector.t) (dx : Z) : M env unit :=
  match blocks with
  | [] =>
      e <~ get ;;
      put (set_self
             (set_position (Vectors.translate_all (_position (self e)) (Vector.mk dx 0))
                           (self e)) e)
  | block :: rest =>
      let xNew := Vector.x block + dx in
      hit <~ cell_blocked xNew (Vector.y block) ;;
      if hit then ret tt else _move_horizontally_loop rest dx
  end.

Definition _move_horizontally (dx : Z) : M env unit :=
  e <~ get ;;
  _move_horizontally_loop (_position (self e)) dx.

Fixpoint _rotate_loop (blocks : list Vector.t) (rotated : Vectors.t) : M env unit :=
  match blocks with
  | [] =>
      e <~ get ;;
      put (set_self (set_position rotated (self e)) e)
  | block :: rest =>
      hit <~ cell_blocked (Vector.x block) (Vector.y block) ;;
      if hit then ret tt else _rotate_loop rest rotated
  end.

Definition _rotate : M env unit :=
  e <~ get ;;
  match cls (self e) with
  | Tetromino_O => ret tt
  | _ =>
      let rotated := Vectors.get_rotated90_around_anchor (_position (self e)) in
      _rotate_loop rotated rotated
  end.

(** The test made for one cell by [_do_gravity]:
    [(y + 1 >= size.y) or playfieldContent[y + 1][x]]. *)
Definition rests (block : Vector.t) : M env bool :=
  fun e =>
    if Vector.y (Playfield.size (_playfield e)) <=? Vector.y block + 1 then Ret e true
    else
      match Playfield.content_at (_playfield e) (Vector.x block) (Vector.y block + 1) with
      | Some c => Ret e (Playfield.truthy c)
      | None => Raise e IndexError
      end.

Fixpoint _do_gravity_loop (blocks : list Vector.t) : M env unit :=
  match blocks with
  | [] =>
      e <~ get ;;
      put (set_self
             (set_position (Vectors.translate_all (_position (self e)) (Vector.mk 0 1))
                           (self e)) e)
  | block :: rest =>
      hit <~ rests block ;;
      if hit then
        e <~ get ;;
        put (set_self (set_landed true (self e)) e) ;;;
        zoom _playfield set_playfield
             (Playfield.land (_position (self e)) (color_char (self e)))
      else _do_gravity_loop rest
  end.

Definition _do_gravity : M env unit :=
  e <~ get ;;
  if landed (self e) then ret tt else _do_gravity_loop (_position (self e)).

(** [while not self.landed: self._do_gravity()]; the loop need not end
    (a piece without cells never lands), so the model counts the
    iterations it may still make and answers [None] when they run out. *)
Fixpoint _drop (fuel : nat) (e : env) : option (outcome env unit) :=
  if landed (self e) then Some (Ret e tt)
  else
    match fuel with
    | O => None
    | S fuel' =>
        match _do_gravity e with
        | Ret e' _ => _drop fuel' e'
        | Raise e' ex => Some (Raise e' ex)
        end
    end.

(** The state [process] works on: the piece with its playfield, and the
    input controller passed as argument. *)
Record frame : Type := mkFrame { this : env; inputController : InputController.t }.

Definition set_this (e : env) (f : frame) : frame := mkFrame e (inputController f).

Definition set_input (ic : InputController.t) (f : frame) : frame := mkFrame (this f) ic.

Definition on_this {A} (m : M env A) : M frame A := zoom this set_this m.

Definition on_input {A} (m : M InputController.t A) : M frame A :=
  zoom inputController set_input m.

Definition process (fuel : nat) (should_do_gravity : bool) (f : frame)
    : option (outcome frame unit) :=
  if landed (self (this f)) then Some (Ret f tt)
  else
    match (dx <~ on_input InputController.take_dx ;;
           on_this (_move_horizontally dx) ;;;
           up <~ on_input InputController.take_up ;;
           (if up then on_this _rotate else ret tt) ;;;
           on_input InputController.take_down) f with
    | Raise f' ex => Some (Raise f' ex)
    | Ret f' down =>
        if down then
          match _drop fuel (this f') with
          | Some o => Some (map_state (fun e => set_this e f') o)
          | None => None
          end
        else if should_do_gravity then Some (on_this _do_gravity f')
        else Some (Ret f' tt)
    end.

End Tetromino.

(** ** class SevenBag *)

Module SevenBag.

Record t : Type := mk { _bag : list Tetromino.t }.

Definition all_kinds : list Tetromino.kind :=
  [Tetromino.Tetromino_I; Tetromino.Tetromino_J; Tetromino.Tetromino_L;
   Tetromino.Tetromino_O; Tetromino.Tetromino_S; Tetromino.Tetromino_Z;
   Tetromino.Tetromino_T].

Definition _new_bag (playfield : Playfield.t) : t :=
  mk ((fun k => Tetromino.__init__ k playfield) <$> all_kinds).

Definition __init__ (playfield : Playfield.t) : t := _new_bag playfield.

(** [tetrominoIndex] is the value [randrange(0, len(self._bag))] answers;
    [randrange] raises [ValueError] on an empty range. *)
Definition get_tetromino (playfield : Playfield.t) (tetrominoIndex : Z)
    : M t Tetromino.t :=
  self <~ get ;;
  (if bool_decide (_bag self = []) then raise ValueError else ret tt) ;;;
  popped <~ index_or_raise (py_pop (_bag self) tetrominoIndex) ;;
  put (mk (snd popped)) ;;;
  (if bool_decide (snd popped = []) then put (_new_bag playfield) else ret tt) ;;;
  ret (fst popped).

(** Successive calls of [get_tetromino], one per random index. *)
Fixpoint draws (playfield : Playfield.t) (indices : list Z) : M t (list Tetromino.t) :=
  match indices with
  | [] => ret []
  | i :: rest =>
      tetromino <~ get_tetromino playfield i ;;
      others <~ draws playfield rest ;;
      ret (tetromino :: others)
  end.

End SevenBag.

(** ** The processing part of one iteration of the loop of [main] *)

Module Main.

Record world : Type := mkWorld {
  frame : Tetromino.frame;
  bag : SevenBag.t
}.

Definition playfield (w : world) : Playfield.t :=
  Tetromino._playfield (Tetromino.this (frame w)).

Definition tetromino (w : world) : Tetromino.t :=
  Tetromino.self (Tetromino.this (frame w)).

Definition set_frame (f : Tetromino.frame) (w : world) : world := mkWorld f (bag w).

Definition set_bag (b : SevenBag.t) (w : world) : world := mkWorld (frame w) b.

Definition set_tetromino (piece : Tetromino.t) (w : world) : world :=
  set_frame (Tetromino.set_this (Tetromino.set_self piece (Tetromino.this (frame w)))
                                (frame w)) w.

Definition update_input (pressed1 pressed2 : InputController.key -> bool) (w : world)
    : world :=
  set_frame (Tetromino.set_input
               (InputController.update pressed1 pressed2
                  (Tetromino.inputController (frame w)))
               (frame w)) w.

(** The objects [main] builds before its loop; [rnd] is what [randrange]
    answers for the first piece.  The state of the outcome is the bag the
    piece was drawn from. *)
Definition main (rnd : Z) : outcome SevenBag.t world :=
  let inputController := InputController.__init__ in
  let score := Score.__init__ in
  let playfield := Playfield.__init__ score (Vector.mk 10 20) in
  let bag := SevenBag.__init__ playfield in
  match SevenBag.get_tetromino playfield rnd bag with
  | Ret bag tetromino =>
      Ret bag (mkWorld (Tetromino.mkFrame (Tetromino.mkEnv tetromino playfield)
                                          inputController) bag)
  | Raise bag ex => Raise bag ex
  end.

(** One pass through the processing and input steps of the loop (drawing
    and sleeping left out).  [gravity] is what the timer answers, [rnd]
    what [randrange] answers if a piece is drawn, [pressed1] and
    [pressed2] what the keyboard answers.  The value returned tells
    whether the loop was left by [break]. *)
Definition iteration (fuel : nat) (gravity : bool) (rnd : Z)
    (pressed1 pressed2 : InputController.key -> bool) (w : world)
    : option (outcome world bool) :=
  match Tetromino.process fuel gravity (frame w) with
  | None => None
  | Some (Raise f ex) => Some (Raise (set_frame f w) ex)
  | Some (Ret f _) =>
      let w := set_frame f w in
      if Tetromino.landed (tetromino w) then
        if Playfield.topped_out (playfield w) then Some (Ret w true)
        else
          match zoom bag set_bag (SevenBag.get_tetromino (playfield w) rnd) w with
          | Raise w ex => Some (Raise w ex)
          | Ret w piece =>
              Some (Ret (update_input pressed1 pressed2 (set_tetromino piece w)) false)
          end
      else Some (Ret (update_input pressed1 pressed2 w) false)
  end.

End Main.

(** ** class Screen *)

Module Screen.

(** A position of the back buffer holds [mask], which is [False] (here
    [None]), or a [ColorChar]. *)
Definition pixel : Type := option ColorChar.t.

Definition mask : pixel := None.

(** The terminal itself is left out; [size] and [_backbuffer] are kept. *)
Record t : Type := mk { size : Vector.t; _backbuffer : list (list pixel) }.

(** [term_width] and [term_height] are the width and height the terminal
    reports. *)
Definition __init__ (term_width term_height : Z) : t :=
  let size := Vector.mk term_width (term_height - 1) in
  mk size
     (replicate (Z.to_nat (Vector.y size)) (replicate (Z.to_nat (Vector.x size)) mask)).

(** [self._backbuffer[location.y][location.x] = color_char] *)
Definition set_color_char (location : Vector.t) (color_char : ColorChar.t) : M t unit :=
  self <~ get ;;
  row <~ index_or_raise (py_getitem (_backbuffer self) (Vector.y location)) ;;
  row' <~ index_or_raise (py_setitem row (Vector.x location) (Some color_char)) ;;
  buffer' <~ index_or_raise (py_setitem (_backbuffer self) (Vector.y location) row') ;;
  put (mk (size self) buffer').

Definition set_char (location : Vector.t) (char : ascii) : M t unit :=
  set_color_char location (ColorChar.mk char (Color.mk 255 255 255) (Color.mk 0 0 0)).

(** [for index, char in enumerate(string)], from [index] on. *)
Fixpoint set_string_loop (location : Vector.t) (index : Z) (chars : list ascii)
    : M t unit :=
  match chars with
  | [] => ret tt
  | char :: rest =>
      set_char (Vector.add_x location index) char ;;;
      set_string_loop location (index + 1) rest
  end.

(** The string is given as the list of its characters. *)
Definition set_string (location : Vector.t) (string : list ascii) : M t unit :=
  set_string_loop location 0 string.

(** The two loops of [clear] visit every position the buffer has and put
    [mask] there. *)
Definition clear : M t unit :=
  self <~ get ;;
  put (mk (size self)
          ((fun line : list pixel => (fun _ : pixel => mask) <$> line) <$> _backbuffer self)).

End Screen.

(** ** class ScaledScreenAdapter *)

Module ScaledScreenAdapter.

(** The adapter holds its two factors; the screen it writes to is the
    state of its methods. *)
Record t : Type := mk { _xScale : Z; _yScale : Z }.

(** [self._screen.set_color_char] at each location in turn. *)
Fixpoint set_each (locations : list Vector.t) (color_char : ColorChar.t)
    : M Screen.t unit :=
  match locations with
  | [] => ret tt
  | location :: rest =>
      Screen.set_color_char location color_char ;;; set_each rest color_char
  end.

(** [range(1, n)] *)
Definition range_from_1 (n : Z) : list Z := seqZ 1 (n - 1).

Definition set_color_char (self : t) (location : Vector.t) (color_char : ColorChar.t)
    : M Screen.t unit :=
  let scaledLocation := Vector.scale location (_xScale self) (_yScale self) in
  Screen.set_color_char scaledLocation color_char ;;;
  set_each ((fun x => Vector.add_x scaledLocation x) <$> range_from_1 (_xScale self))
           color_char ;;;
  set_each ((fun y => Vector.add_y scaledLocation y) <$> range_from_1 (_yScale self))
           color_char.

Definition clear : M Screen.t unit := Screen.clear.

End ScaledScreenAdapter.

(** ** Drawing the active piece *)

Module Drawing.

(** The two attributes of a [Playfield] that its drawing methods use: the
    adapter it draws through and the location of its upper left corner. *)
Record view : Type := mkView { _screen : ScaledScreenAdapter.t; _location : Vector.t }.

(** [Playfield.draw_vector] *)
Definition draw_vector (self : view) (vector : Vector.t) (colorChar : ColorChar.t)
    : M Screen.t unit :=
  ScaledScreenAdapter.set_color_char (_screen self)
    (Vector.add_xy (Vector.add_vector (_location self) vector) 1 1) colorChar.

(** [Playfield.draw_vectors] *)
Fixpoint draw_vectors (self : view) (vectors : list Vector.t) (colorChar : ColorChar.t)
    : M Screen.t unit :=
  match vectors with
  | [] => ret tt
  | vector :: rest =>
      draw_vector self vector colorChar ;;; draw_vectors self rest colorChar
  end.

(** [Tetromino.draw] *)
Definition draw (playfield : view) (self : Tetromino.t) : M Screen.t unit :=
  if Tetromino.landed self then ret tt
  else draw_vectors playfield (Tetromino._position self) (Tetromino.color_char self).

(** The end of [main], once the loop is left: the message is put in the
    middle of the screen.  [int(e / 2)] truncates the quotient. *)
Definition gameOver : list ascii := ["G"; "a"; "m"; "e"; " "; "O"; "v"; "e"; "r"]%char.

Definition game_over : M Screen.t unit :=
  screen <~ get ;;
  Screen.set_string
    (Vector.mk (Z.quot (Vector.x (Screen.size screen) - Z.of_nat (length gameOver)) 2)
               (Z.quot (Vector.y (Screen.size screen)) 2 - 1))
    gameOver.

End Drawing.

(** ** Definitions used to state the properties *)

(** A caller awarding several locks in a row: [score.add] once per entry. *)
Fixpoint add_all (counts : list Z) : M Score.t unit :=
  match counts with
  | [] => ret tt
  | lines :: rest => Score.add lines ;;; add_all rest
  end.

(** The rotate command issued [n] times in a row to a piece: the state
    after each call is the state the next call starts from. *)
Definition rotate_times (n : nat) (e : Tetromino.env) : Tetromino.env :=
  Nat.iter n (fun e => final_state (Tetromino._rotate e)) e.

(** Whether each entry of [indices] is a value [randrange(0, len(bag))] can
    answer, for a bag that holds [remaining] pieces before the first draw
    and is refilled to seven when its last piece is taken. *)
Fixpoint valid_indices (remaining : nat) (indices : list Z) : bool :=
  match indices with
  | [] => true
  | i :: rest =>
      (0 <=? i) && (i <? Z.of_nat remaining)
      && valid_indices (match remaining with
                        | 1%nat => 7%nat
                        | _ => Nat.pred remaining
                        end) rest
  end.

(** A method keeps a relation between the state it starts from and the
    state it ends in, whether it returns or raises. *)
Definition preserves {St A} (R : St -> St -> Prop) (m : M St A) : Prop :=
  forall s, R s (final_state (m s)).

(** Only the cell matrix of the playfield differs. *)
Definition content_only (pf pf' : Playfield.t) : Prop :=
  pf' = Playfield.set_content (Playfield.playfieldContent pf') pf.

(** The flag [topped_out] is not taken back. *)
Definition topped_out_kept (pf pf' : Playfield.t) : Prop :=
  Playfield.topped_out pf = true -> Playfield.topped_out pf' = true.

(** The flag is not taken back in the playfield found at [field]. *)
Definition kept_in {St} (field : St -> Playfield.t) (s s' : St) : Prop :=
  topped_out_kept (field s) (field s').

Definition frame_playfield (f : Tetromino.frame) : Playfield.t :=
  Tetromino._playfield (Tetromino.this f).

(** One pass through the loop of [main], for some answers of the timer, of
    [randrange] and of the keyboard. *)
Inductive step : Main.world -> Main.world -> Prop :=
| step_iteration fuel gravity rnd pressed1 pressed2 w o :
    Main.iteration fuel gravity rnd pressed1 pressed2 w = Some o ->
    step w (final_state o).

(** Sample values for the closed examples. *)
Definition sample_char : ColorChar.t :=
  ColorChar.mk " "%char (Color.mk 255 255 255) (Color.mk 255 0 0).

Definition small_field : Playfield.t :=
  Playfield.__init__ Score.__init__ (Vector.mk 4 3).

Definition game_field : Playfield.t :=
  Playfield.__init__ Score.__init__ (Vector.mk 10 20).

Definition no_key (k : InputController.key) : bool := false.

(** The 4 x 3 playfield after three cells of its bottom row and one of its
    middle row were landed. *)
Definition stacked_field : Playfield.t :=
  final_state
    (Playfield.land [Vector.mk 0 2; Vector.mk 1 2; Vector.mk 2 2; Vector.mk 0 1]
                    sample_char small_field).

(** The 10 x 20 playfield after a single cell was landed in its bottom row,
    column 5. *)
Definition bottom_cell_field : Playfield.t :=
  final_state (Playfield.land [Vector.mk 5 19] sample_char game_field).

(** A J piece as constructed, on a given playfield. *)
Definition fresh_J (playfield : Playfield.t) : Tetromino.env :=
  Tetromino.mkEnv (Tetromino.__init__ Tetromino.Tetromino_J playfield) playfield.

(** The 4 x 3 playfield after a cell was landed in its top row, and a world
    whose piece falls in it. *)
Definition topped_field : Playfield.t :=
  final_state (Playfield.land [Vector.mk 0 0] sample_char small_field).

Definition topped_world : Main.world :=
  Main.mkWorld (Tetromino.mkFrame (fresh_J topped_field) InputController.__init__)
               (SevenBag.__init__ topped_field).

(** *** The playfield as a grid *)

(** The matrix has [size.y] rows of [size.x] cells. *)
Definition well_formed (pf : Playfield.t) : Prop :=
  Z.of_nat (length (Playfield.playfieldContent pf)) = Vector.y (Playfield.size pf)
  /\ Forall (fun row => Z.of_nat (length row) = Vector.x (Playfield.size pf))
            (Playfield.playfieldContent pf).

Definition in_grid (pf : Playfield.t) (v : Vector.t) : Prop :=
  0 <= Vector.x v < Vector.x (Playfield.size pf)
  /\ 0 <= Vector.y v < Vector.y (Playfield.size pf).

(** Whether the cell in column [x] of row [y] of the grid is set; there is
    no such cell outside the grid. *)
Definition cell_occupied (pf : Playfield.t) (x y : Z) : bool :=
  (0 <=? x) && (0 <=? y)
  && match Playfield.playfieldContent pf !! Z.to_nat y with
     | Some row =>
         match row !! Z.to_nat x with
         | Some c => Playfield.truthy c
         | None => false
         end
     | None => false
     end.

(** The matrix with the cell of [v] set to [colorChar], and with the cells
    of all of [vectors] set. *)
Definition mark (colorChar : ColorChar.t) (content : list (list Playfield.cell))
    (v : Vector.t) : list (list Playfield.cell) :=
  alter (fun row => <[Z.to_nat (Vector.x v) := Some colorChar]> row)
        (Z.to_nat (Vector.y v)) content.

Definition marked (vectors : list Vector.t) (colorChar : ColorChar.t)
    (content : list (list Playfield.cell)) : list (list Playfield.cell) :=
  foldl (mark colorChar) content vectors.

(** Row [i] holds a cell of [vectors]. *)
Definition touched (vectors : list Vector.t) (i : nat) : bool :=
  bool_decide (Z.of_nat i ∈ Vector.y <$> vectors).

Definition occupied_count (row : list Playfield.cell) : nat :=
  length (filter (fun c => Playfield.truthy c = true) row).

(** Row [i] of [content] has at least [width] cells set. *)
Definition full (width : Z) (content : list (list Playfield.cell)) (i : nat) : bool :=
  match content !! i with
  | Some row => width <=? Z.of_nat (occupied_count row)
  | None => false
  end.

(** [l] without the elements whose index, counted from [n] for the first,
    satisfies [P]. *)
Fixpoint omit_from {A} (n : nat) (P : nat -> bool) (l : list A) : list A :=
  match l with
  | [] => []
  | a :: rest => if P n then omit_from (S n) P rest else a :: omit_from (S n) P rest
  end.

(** What the specification says [lock] leaves: the touched rows that are
    full after marking are taken out together, and as many empty rows are
    put on top. *)
Definition cleared (vectors : list Vector.t) (colorChar : ColorChar.t)
    (pf : Playfield.t) (i : nat) : bool :=
  touched vectors i
  && full (Vector.x (Playfield.size pf))
          (marked vectors (ColorChar.shift_to_gray colorChar) (Playfield.playfieldContent pf)) i.

Definition cleared_rows (vectors : list Vector.t) (colorChar : ColorChar.t)
    (pf : Playfield.t) : list nat :=
  filter (fun i => cleared vectors colorChar pf i = true)
         (seq 0 (length (Playfield.playfieldContent pf))).

Definition lock_spec (vectors : list Vector.t) (colorChar : ColorChar.t)
    (pf : Playfield.t) : list (list Playfield.cell) :=
  replicate (length (cleared_rows vectors colorChar pf))
            (Playfield.empty_row (Vector.x (Playfield.size pf)))
  ++ omit_from 0 (cleared vectors colorChar pf)
       (marked vectors (ColorChar.shift_to_gray colorChar) (Playfield.playfieldContent pf)).

(** A cell of the piece cannot go down one row: the row below is past the
    bottom of the grid, or the cell below is set. *)
Definition blocked_below (pf : Playfield.t) (v : Vector.t) : bool :=
  (Vector.y (Playfield.size pf) <=? Vector.y v + 1)
  || cell_occupied pf (Vector.x v) (Vector.y v + 1).

(** The cells gravity can be asked about: inside the columns of the grid
    and not higher than one row above it. *)
Definition falling_in (pf : Playfield.t) (v : Vector.t) : Prop :=
  0 <= Vector.x v < Vector.x (Playfield.size pf) /\ -1 <= Vector.y v.

(** The state after a piece landed: the piece is flagged, with its cells
    where they were, and the playfield is what [land] made of it. *)
Definition landing (e : Tetromino.env) : outcome Tetromino.env unit :=
  map_state (fun pf' => Tetromino.mkEnv (Tetromino.set_landed true (Tetromino.self e)) pf')
            (Playfield.land (Tetromino._position (Tetromino.self e))
                            (Tetromino.color_char (Tetromino.self e))
                            (Tetromino._playfield e)).

(** The state after a piece fell by one row. *)
Definition fallen (e : Tetromino.env) : Tetromino.env :=
  Tetromino.mkEnv
    (Tetromino.set_position
       (Vectors.translate_all (Tetromino._position (Tetromino.self e)) (Vector.mk 0 1))
       (Tetromino.self e))
    (Tetromino._playfield e).

(** *** The commands of one tick *)

(** What the input controller hands to [process]: a key in state 1 is a
    command, and taking it puts the key in state 2. *)
Definition requested_dx (ic : InputController.t) : Z :=
  (if InputController.left ic =? 1 then -1 else 0)
  + (if InputController.right ic =? 1 then 1 else 0).

Definition rotate_requested (ic : InputController.t) : bool := InputController.up ic =? 1.

Definition drop_requested (ic : InputController.t) : bool := InputController.down ic =? 1.

Definition consumed (ic : InputController.t) : InputController.t :=
  let taken k := if k =? 1 then 2 else k in
  InputController.mk (taken (InputController.left ic)) (taken (InputController.right ic))
                     (taken (InputController.up ic)) (taken (InputController.down ic)).

(** The gravity step applied [n] times in a row, stopping at an exception. *)
Fixpoint gravity_steps (n : nat) (e : Tetromino.env) : outcome Tetromino.env unit :=
  match n with
  | O => Ret e tt
  | S n' =>
      match Tetromino._do_gravity e with
      | Ret e' _ => gravity_steps n' e'
      | Raise e' ex => Raise e' ex
      end
  end.

(** The per-tick contract as the specification words it: nothing for a
    landed piece; otherwise the horizontal move, then the rotation if
    asked for, then either the drop, which ends the tick, or the gravity
    step if it is due. *)
Definition tick (fuel : nat) (gravityDue : bool) (dx : Z) (rotate drop : bool)
    (e : Tetromino.env) : option (outcome Tetromino.env unit) :=
  if Tetromino.landed (Tetromino.self e) then Some (Ret e tt)
  else
    match Tetromino._move_horizontally dx e with
    | Raise e1 ex => Some (Raise e1 ex)
    | Ret e1 _ =>
        match (if rotate then Tetromino._rotate e1 else Ret e1 tt) with
        | Raise e2 ex => Some (Raise e2 ex)
        | Ret e2 _ =>
            if drop then Tetromino._drop fuel e2
            else if gravityDue then Some (Tetromino._do_gravity e2)
            else Some (Ret e2 tt)
        end
    end.

(** The state after a horizontal move by [dx], and after a rotation, was
    applied to the piece. *)
Definition moved (dx : Z) (e : Tetromino.env) : Tetromino.env :=
  Tetromino.set_self
    (Tetromino.set_position
       (Vectors.translate_all (Tetromino._position (Tetromino.self e)) (Vector.mk dx 0))
       (Tetromino.self e)) e.

Definition turned (e : Tetromino.env) : Tetromino.env :=
  Tetromino.set_self
    (Tetromino.set_position
       (Vectors.get_rotated90_around_anchor (Tetromino._position (Tetromino.self e)))
       (Tetromino.self e)) e.

(** The test made for a cell returns, and finds the cell free or not. *)
Definition passes (e : Tetromino.env) (x y : Z) : Prop :=
  Tetromino.cell_blocked x y e = Ret e false.

Definition refused (e : Tetromino.env) (x y : Z) : Prop :=
  Tetromino.cell_blocked x y e = Ret e true.

(** The list [rowsToScan] after one more row index was seen. *)
Definition see_row (rows : list Z) (y : Z) : list Z :=
  if bool_decide (y ∈ rows) then rows else rows ++ [y].

Ltac unfold_monad :=
  unfold index_or_raise, zoom, bind, get, put, ret, raise, map_state in *.

(** *** Further definitions for the playfield *)

(** The points a lock of [lines] rows is worth. *)
Definition award (lines : Z) : Z :=
  if lines =? 4 then 800
  else if lines =? 3 then 500
  else if lines =? 2 then 300
  else if lines =? 1 then 100
  else 0.

(** Whether the top row of a matrix has a cell set. *)
Definition top_row_set (content : list (list Playfield.cell)) : bool :=
  match content with
  | topRow :: _ => existsb Playfield.truthy topRow
  | [] => false
  end.

(** The size is kept, the number of rows is kept, and rows of width [w]
    stay rows of width [w]. *)
Definition dimensions_kept (w : Z) (pf pf' : Playfield.t) : Prop :=
  Playfield.size pf' = Playfield.size pf
  /\ length (Playfield.playfieldContent pf') = length (Playfield.playfieldContent pf)
  /\ (Forall (fun row => Z.of_nat (length row) = w) (Playfield.playfieldContent pf) ->
      Forall (fun row => Z.of_nat (length row) = w) (Playfield.playfieldContent pf')).

(** A playfield one cell wide and five rows high. *)
Definition column_field : Playfield.t :=
  Playfield.__init__ Score.__init__ (Vector.mk 1 5).

(** *** Further definitions for the piece *)

(** Every cell of the piece passes the test of move and rotate where it
    is: it lies in a column of the grid and the cell it indexes is empty. *)
Definition clear_of (e : Tetromino.env) : Prop :=
  Forall (fun b => passes e (Vector.x b) (Vector.y b))
         (Tetromino._position (Tetromino.self e)).

(** The playfield is the same object in the same state, and the piece is
    of the same kind with as many cells. *)
Definition same_setting (e e' : Tetromino.env) : Prop :=
  Tetromino._playfield e' = Tetromino._playfield e
  /\ Tetromino.cls (Tetromino.self e') = Tetromino.cls (Tetromino.self e)
  /\ length (Tetromino._position (Tetromino.self e'))
     = length (Tetromino._position (Tetromino.self e)).

(** An I piece lying on the bottom row of the 10 x 20 playfield, still
    falling. *)
Definition lying_I : Tetromino.env :=
  Tetromino.mkEnv
    (Tetromino.mk Tetromino.Tetromino_I
       [Vector.mk 5 19; Vector.mk 7 19; Vector.mk 6 19; Vector.mk 4 19] false)
    game_field.

(** *** Further definitions for the input controller *)

(** Every key is in one of the states 0 (up), 1 (pressed, not yet taken)
    and 2 (pressed and taken). *)
Definition valid_keys (ic : InputController.t) : Prop :=
  forall k, 0 <= InputController.get_key ic k <= 2.

(** What [update] makes of the state [s] of one key, when the first loop
    finds it pressed or not ([down1]) and the second loop likewise
    ([down2]). *)
Definition updated_state (down1 down2 : bool) (s : Z) : Z :=
  let s1 := if down1 && (s =? 0) then 1 else s in
  if negb down2 && (s1 =? 2) then 0 else s1.

(** All keys found pressed, all keys found released. *)
Definition all_down (k : InputController.key) : bool := true.

Definition all_up (k : InputController.key) : bool := false.

(** *** Further definitions for the bag and the main loop *)

(** The bag holds at least one piece, and what it holds is what is left of
    a new bag for the playfield: pieces as constructed, in the order of
    construction. *)
Definition bag_ok (playfield : Playfield.t) (bag : SevenBag.t) : Prop :=
  SevenBag._bag bag <> []
  /\ SevenBag._bag bag `sublist_of` SevenBag._bag (SevenBag._new_bag playfield).

(** What holds each time the loop of [main] starts a pass: the piece is
    falling, the bag is in order, the playfield is a grid and the keys are
    in their states. *)
Definition loop_invariant (w : Main.world) : Prop :=
  Tetromino.landed (Main.tetromino w) = false
  /\ bag_ok (Main.playfield w) (Main.bag w)
  /\ well_formed (Main.playfield w)
  /\ valid_keys (Tetromino.inputController (Main.frame w)).

(** A state the loop can start a pass in: a new J piece on the empty
    10 x 20 playfield, no key pressed, a new bag. *)
Definition first_world : Main.world :=
  Main.mkWorld (Tetromino.mkFrame (fresh_J game_field) InputController.__init__)
               (SevenBag.__init__ game_field).

(** *** Further definitions for colours and the screen *)

(** The three components are values a terminal colour can take. *)
Definition in_gamut (c : Color.t) : Prop :=
  0 <= Color.r c <= 255 /\ 0 <= Color.g c <= 255 /\ 0 <= Color.b c <= 255.

(** The gray a colour is moved towards by [shift_to_gray]. *)
Definition gray_target (c : Color.t) : Z :=
  Z.min 255 ((Color.r c + Color.g c + Color.b c) / 3 + 25).

(** The back buffer has [size.y] lines of [size.x] positions. *)
Definition screen_ok (s : Screen.t) : Prop :=
  Z.of_nat (length (Screen._backbuffer s)) = Vector.y (Screen.size s)
  /\ Forall (fun line => Z.of_nat (length line) = Vector.x (Screen.size s))
            (Screen._backbuffer s).

Definition on_screen (s : Screen.t) (v : Vector.t) : Prop :=
  0 <= Vector.x v < Vector.x (Screen.size s)
  /\ 0 <= Vector.y v < Vector.y (Screen.size s).

(** What the back buffer holds for column [x] of line [y]: a [ColorChar],
    or nothing where it holds the mask and outside the buffer. *)
Definition shown (s : Screen.t) (x y : Z) : option ColorChar.t :=
  if (0 <=? x) && (0 <=? y) then
    match Screen._backbuffer s !! Z.to_nat y with
    | Some line =>
        match line !! Z.to_nat x with
        | Some p => p
        | None => None
        end
    | None => None
    end
  else None.

(** The positions one call of the adapter's [set_color_char] writes: the
    scaled location, the run to its right and the run below it. *)
Definition footprint (adapter : ScaledScreenAdapter.t) (location : Vector.t)
    : list Vector.t :=
  let scaled := Vector.scale location (ScaledScreenAdapter._xScale adapter)
                             (ScaledScreenAdapter._yScale adapter) in
  scaled
  :: ((fun x => Vector.add_x scaled x)
        <$> ScaledScreenAdapter.range_from_1 (ScaledScreenAdapter._xScale adapter))
  ++ ((fun y => Vector.add_y scaled y)
        <$> ScaledScreenAdapter.range_from_1 (ScaledScreenAdapter._yScale adapter)).

(** The positions written when the cells [vectors] of a playfield are
    drawn. *)
Definition drawn_positions (view : Drawing.view) (vectors : list Vector.t)
    : list Vector.t :=
  vectors ≫= (fun v =>
    footprint (Drawing._screen view)
              (Vector.add_xy (Vector.add_vector (Drawing._location view) v) 1 1)).

(** The playfield of [main] as it is drawn: through an adapter of factors
    2 and 1, at location (20, 0), on the screen of an 80 x 24 terminal. *)
Definition game_view : Drawing.view :=
  Drawing.mkView (ScaledScreenAdapter.mk 2 1) (Vector.mk 20 0).

Definition game_screen : Screen.t := Screen.__init__ 80 24.

(** *** A piece with a cell above the top row *)

(** A row of the 10 x 20 playfield with a landed cell in column 4, and the
    bottom row with a landed cell in every column but column 5. *)
Definition tower_row : list Playfield.cell :=
  <[4%nat := Some (ColorChar.shift_to_gray sample_char)]> (Playfield.empty_row 10).

Definition gap_row : list Playfield.cell :=
  <[5%nat := None]> (replicate 10 (Some (ColorChar.shift_to_gray sample_char))).

(** The 10 x 20 playfield with a stack in column 4 that leaves the two top
    rows empty. *)
Definition tower_field : Playfield.t :=
  Playfield.set_content
    (replicate 2 (Playfield.empty_row 10) ++ replicate 18 tower_row) game_field.

(** The same stack, over a bottom row that lacks only the cell of
    column 5. *)
Definition tower_gap_field : Playfield.t :=
  Playfield.set_content
    (replicate 2 (Playfield.empty_row 10) ++ replicate 17 tower_row ++ [gap_row])
    game_field.

(** The cells of a new J piece of the 10 x 20 playfield after one rotation:
    one of them is above the top row. *)
Definition overhang_J : Vectors.t :=
  [Vector.mk 5 0; Vector.mk 5 (-1); Vector.mk 5 1; Vector.mk 4 1].

(** A tick in which the rotation was requested and gravity is due. *)
Definition up_pending : InputController.t := InputController.mk 0 0 1 0.

(** * Geometric transform *)

Section Rotation.

Implicit Types (v anchor : Vector.t) (vs : Vectors.t).

Lemma rotate_loop_anchored anchor vs acc :
  Vectors.rotate_loop (Some anchor) vs acc
  = acc ++ ((fun v => Vector.rotate90 v anchor) <$> vs).
Proof.
  revert acc. induction vs as [|v vs IH]; intros acc; simpl.
  - by rewrite app_nil_r.
  - rewrite IH. by rewrite <- app_assoc.
Qed.

Lemma get_rotated90_cons anchor vs :
  Vectors.get_rotated90_around_anchor (anchor :: vs)
  = anchor :: ((fun v => Vector.rotate90 v anchor) <$> vs).
Proof.
  unfold Vectors.get_rotated90_around_anchor. simpl.
  by rewrite rotate_loop_anchored.
Qed.

Lemma rotate90_four_times v anchor :
  Vector.rotate90
    (Vector.rotate90 (Vector.rotate90 (Vector.rotate90 v anchor) anchor) anchor)
    anchor = v.
Proof.
  destruct v as [vx vy], anchor as [ax ay].
  unfold Vector.rotate90; simpl. f_equal; lia.
Qed.

(** C7: [rotate90] is the stated formula; rotating a point set keeps the
    first point, sends every other point through the formula about the
    first one, keeps the order and the number of points, and does nothing
    to a set of one point. *)
Theorem rotate90_formula_and_point_set :
  (∀ px py ax ay,
     Vector.rotate90 (Vector.mk px py) (Vector.mk ax ay)
     = Vector.mk (- (py - ay) + ax) ((px - ax) + ay))
  ∧ (∀ anchor vs,
       Vectors.get_rotated90_around_anchor (anchor :: vs)
       = anchor :: ((fun v => Vector.rotate90 v anchor) <$> vs))
  ∧ (∀ anchor vs (i : nat),
       Vectors.get_rotated90_around_anchor (anchor :: vs) !! S i
       = (fun v => Vector.rotate90 v anchor) <$> (vs !! i))
  ∧ (∀ vs,
       length (Vectors.get_rotated90_around_anchor vs) = length vs)
  ∧ (∀ v, Vectors.get_rotated90_around_anchor [v] = [v]).
Proof.
  split; [|split; [|split; [|split]]].
  - intros. reflexivity.
  - apply get_rotated90_cons.
  - intros anchor vs i. rewrite get_rotated90_cons. simpl.
    apply list_lookup_fmap.
  - intros [|anchor vs]; [reflexivity|].
    rewrite get_rotated90_cons. simpl. by rewrite length_fmap.
  - intros v. apply get_rotated90_cons.
Qed.

Lemma rotate_times_O_fixed n position flag playfield :
  let e := Tetromino.mkEnv (Tetromino.mk Tetromino.Tetromino_O position flag) playfield in
  rotate_times n e = e.
Proof.
  intros e. induction n as [|n IH]; [reflexivity|].
  unfold rotate_times in *. simpl. rewrite IH. reflexivity.
Qed.

(** C8: four rotations of any point set give the point set back; and the
    overriding [_rotate] of the O piece returns without changing
    anything, however often it is called. *)
Theorem rotation_cycle_of_four_and_O_fixed :
  (∀ vs,
     Vectors.get_rotated90_around_anchor
       (Vectors.get_rotated90_around_anchor
          (Vectors.get_rotated90_around_anchor
             (Vectors.get_rotated90_around_anchor vs))) = vs)
  ∧ (∀ position flag playfield,
       let e := Tetromino.mkEnv
                  (Tetromino.mk Tetromino.Tetromino_O position flag) playfield in
       Tetromino._rotate e = Ret e tt
       ∧ ∀ n, Tetromino._position (Tetromino.self (rotate_times n e)) = position).
Proof.
  split.
  - intros [|anchor vs]; [reflexivity|].
    rewrite !get_rotated90_cons. f_equal.
    rewrite <- !list_fmap_compose.
    rewrite <- (list_fmap_id vs) at 2.
    apply list_fmap_ext. intros _ v _. simpl.
    apply rotate90_four_times.
  - intros position flag playfield e. split; [reflexivity|].
    intros n. unfold e. by rewrite rotate_times_O_fixed.
Qed.

End Rotation.

(** * Scoring *)

Section Scoring.

Implicit Types (s : Score.t) (lines : Z).

Lemma score_add_monotone lines s :
  Score._value s ≤ Score._value (final_state (Score.add lines s)).
Proof.
  unfold Score.add.
  repeat (case_match; simpl; try lia).
Qed.

Lemma add_all_monotone counts s :
  Score._value s ≤ Score._value (final_state (add_all counts s)).
Proof.
  revert s. induction counts as [|lines counts IH]; intros s; simpl; [lia|].
  unfold bind. pose proof (score_add_monotone lines s) as Hle.
  destruct (Score.add lines s) as [s' []|s' e]; simpl in *; [|lia].
  specialize (IH s'). lia.
Qed.

(** C5: [add] adds 0, 100, 300, 500, 800 for 0, 1, 2, 3, 4 lines; for any
    other argument it raises [ValueError] and the score is what it was;
    the score never decreases, over one call or over a sequence. *)
Theorem score_add_tiers s :
  Score.add 0 s = Ret s tt
  ∧ Score.add 1 s = Ret (Score.mk (Score._value s + 100)) tt
  ∧ Score.add 2 s = Ret (Score.mk (Score._value s + 300)) tt
  ∧ Score.add 3 s = Ret (Score.mk (Score._value s + 500)) tt
  ∧ Score.add 4 s = Ret (Score.mk (Score._value s + 800)) tt
  ∧ (∀ lines, ¬ (0 ≤ lines ≤ 4) → Score.add lines s = Raise s ValueError)
  ∧ (∀ lines, Score._value s ≤ Score._value (final_state (Score.add lines s)))
  ∧ (∀ counts, Score._value s ≤ Score._value (final_state (add_all counts s))).
Proof.
  repeat split; try reflexivity.
  - intros lines Hout. unfold Score.add.
    repeat (case_match; [lia|]). reflexivity.
  - intros lines. apply score_add_monotone.
  - intros counts. apply add_all_monotone.
Qed.

Lemma score_add_tiers_witness :
  ¬ (0 ≤ 5 ≤ 4)
  ∧ Score.add 5 (Score.mk 700) = Raise (Score.mk 700) ValueError
  ∧ Score.add 4 (Score.mk 700) = Ret (Score.mk 1500) tt.
Proof.
  pose proof (score_add_tiers (Score.mk 700)) as (_ & _ & _ & _ & H4 & Hbad & _).
  split; [lia|]. split; [apply Hbad; lia | exact H4].
Defined.

End Scoring.

(** * Python list indexing *)

Section PythonLists.

Context {A : Type}.

Implicit Types (l : list A) (i : Z).

Lemma py_index_nonneg (len : nat) i :
  0 ≤ i < Z.of_nat len → py_index len i = Some (Z.to_nat i).
Proof.
  intros Hi. unfold py_index.
  replace ((0 <=? i) && (i <? Z.of_nat len)) with true; [done|].
  symmetry. apply andb_true_iff. split; [apply Z.leb_le|apply Z.ltb_lt]; lia.
Qed.

Lemma py_index_negative (len : nat) i :
  - Z.of_nat len ≤ i < 0 → py_index len i = Some (Z.to_nat (Z.of_nat len + i)).
Proof.
  intros Hi. unfold py_index.
  replace (0 <=? i) with false by (symmetry; apply Z.leb_gt; lia).
  replace (- Z.of_nat len <=? i) with true by (symmetry; apply Z.leb_le; lia).
  replace (i <? 0) with true by (symmetry; apply Z.ltb_lt; lia).
  reflexivity.
Qed.

Lemma py_index_outside (len : nat) i :
  i < - Z.of_nat len ∨ Z.of_nat len ≤ i → py_index len i = None.
Proof.
  intros Hi. unfold py_index.
  destruct (0 <=? i) eqn:Hsign.
  - apply Z.leb_le in Hsign.
    replace (i <? Z.of_nat len) with false by (symmetry; apply Z.ltb_ge; lia).
    replace (i <? 0) with false by (symmetry; apply Z.ltb_ge; lia).
    simpl. by rewrite andb_false_r.
  - apply Z.leb_gt in Hsign.
    replace (- Z.of_nat len <=? i) with false by (symmetry; apply Z.leb_gt; lia).
    reflexivity.
Qed.

Lemma py_getitem_outside l i :
  i < - Z.of_nat (length l) ∨ Z.of_nat (length l) ≤ i → py_getitem l i = None.
Proof. intros Hi. unfold py_getitem. by rewrite py_index_outside. Qed.

Lemma py_getitem_nonneg l i :
  0 ≤ i < Z.of_nat (length l) → py_getitem l i = l !! Z.to_nat i.
Proof. intros Hi. unfold py_getitem. by rewrite py_index_nonneg. Qed.

Lemma py_getitem_negative l i :
  - Z.of_nat (length l) ≤ i < 0 →
  py_getitem l i = py_getitem l (Z.of_nat (length l) + i).
Proof.
  intros Hi. unfold py_getitem.
  rewrite py_index_negative by done.
  rewrite py_index_nonneg by lia. reflexivity.
Qed.

Lemma py_setitem_nonneg l i (a : A) :
  0 ≤ i < Z.of_nat (length l) → py_setitem l i a = Some (<[Z.to_nat i := a]> l).
Proof. intros Hi. unfold py_setitem. by rewrite py_index_nonneg. Qed.

Lemma py_pop_nonneg l i :
  0 ≤ i < Z.of_nat (length l) →
  ∃ a, l !! Z.to_nat i = Some a ∧ py_pop l i = Some (a, delete (Z.to_nat i) l).
Proof.
  intros Hi. unfold py_pop. rewrite py_index_nonneg by done.
  destruct (lookup_lt_is_Some_2 l (Z.to_nat i)) as [a Ha]; [lia|].
  exists a. by rewrite Ha.
Qed.

End PythonLists.

(** * Bag dispenser *)

Section Bag.

Variable playfield : Playfield.t.

Implicit Types (l ts : list Tetromino.t) (indices : list Z).

(** One draw from a bag holding [l]: the piece at the index is handed
    out, and what stays is the rest of [l], or a new bag if nothing is
    left. *)
Lemma get_tetromino_draw l (i : Z) :
  0 ≤ i < Z.of_nat (length l) →
  ∃ piece,
    l !! Z.to_nat i = Some piece
    ∧ SevenBag.get_tetromino playfield i (SevenBag.mk l)
      = Ret (if bool_decide (delete (Z.to_nat i) l = [])
             then SevenBag._new_bag playfield
             else SevenBag.mk (delete (Z.to_nat i) l))
            piece.
Proof.
  intros Hi. destruct (py_pop_nonneg l i Hi) as (piece & Hlook & Hpop).
  exists piece. split; [done|].
  unfold SevenBag.get_tetromino, bind, get, put, ret, index_or_raise. simpl.
  destruct l as [|t0 l0]; [simpl in Hi; lia|].
  rewrite bool_decide_eq_false_2 by done.
  rewrite Hpop. simpl. by case_bool_decide.
Qed.

Lemma valid_indices_cons remaining i indices :
  valid_indices remaining (i :: indices) = true →
  0 ≤ i < Z.of_nat remaining
  ∧ valid_indices (match remaining with 1%nat => 7%nat | _ => Nat.pred remaining end)
                  indices = true.
Proof.
  simpl. rewrite !andb_true_iff, Z.leb_le, Z.ltb_lt. tauto.
Qed.

(** Emptying a bag: as many draws as it holds pieces hand out a
    permutation of them and leave a new bag; the indices after them are
    valid for a bag of seven. *)
Lemma draws_drain l indices more :
  l ≠ [] →
  length indices = length l →
  valid_indices (length l) (indices ++ more) = true →
  ∃ ts,
    SevenBag.draws playfield indices (SevenBag.mk l)
    = Ret (SevenBag._new_bag playfield) ts
    ∧ ts ≡ₚ l
    ∧ valid_indices 7 more = true.
Proof.
  revert l. induction indices as [|i indices IH]; intros l Hne Hlen Hvalid.
  - destruct l; [done|discriminate].
  - simpl in Hvalid. apply valid_indices_cons in Hvalid as [Hi Hrest].
    destruct (get_tetromino_draw l i Hi) as (piece & Hlook & Hdraw).
    simpl. unfold bind at 1. rewrite Hdraw.
    pose proof (delete_Permutation l _ _ Hlook) as Hperm.
    assert (length (delete (Z.to_nat i) l) = length indices) as Hlen'.
    { rewrite length_delete by eauto. simpl in Hlen. lia. }
    destruct indices as [|j indices].
    + destruct (delete (Z.to_nat i) l) as [|? ?] eqn:Hdel; [|discriminate].
      rewrite bool_decide_eq_true_2 by done.
      exists [piece]. simpl. unfold bind, ret. split; [done|]. split.
      * by rewrite Hperm.
      * destruct l as [|? [|? ?]]; simpl in *; try discriminate; done.
    + assert (delete (Z.to_nat i) l ≠ []) as Hne'.
      { intros Heq. rewrite Heq in Hlen'. discriminate. }
      rewrite bool_decide_eq_false_2 by done.
      destruct (IH (delete (Z.to_nat i) l) Hne' (eq_sym Hlen')) as (ts & Hts & Hp & Hv).
      { rewrite Hlen'. simpl in Hlen. 
        destruct l as [|? [|? ?]]; simpl in *; try discriminate.
        injection Hlen as Hlen. simpl in Hrest. by rewrite <- Hlen in Hrest. }
      exists (piece :: ts). unfold bind in *. rewrite Hts. simpl.
      split; [done|]. split; [|done].
      rewrite Hperm. by constructor.
Qed.

Lemma draws_app indices1 indices2 bag :
  SevenBag.draws playfield (indices1 ++ indices2) bag
  = (ts1 <~ SevenBag.draws playfield indices1 ;;
     ts2 <~ SevenBag.draws playfield indices2 ;;
     ret (ts1 ++ ts2)) bag.
Proof.
  revert bag. induction indices1 as [|i indices1 IH]; intros bag; simpl.
  - unfold bind, ret. by destruct (SevenBag.draws playfield indices2 bag).
  - unfold bind.
    destruct (SevenBag.get_tetromino playfield i bag) as [bag' piece|bag' e]; [|done].
    rewrite IH. unfold bind, ret.
    destruct (SevenBag.draws playfield indices1 bag') as [bag1 ts1|]; [|done].
    by destruct (SevenBag.draws playfield indices2 bag1).
Qed.

Lemma new_bag_length : length (SevenBag._bag (SevenBag._new_bag playfield)) = 7%nat.
Proof. reflexivity. Qed.

(** Any number of whole bags: after [7 * n] draws from a new bag the bag
    is new again. *)
Lemma draws_whole_bags (n : nat) indices more :
  length indices = (7 * n)%nat →
  valid_indices 7 (indices ++ more) = true →
  ∃ ts,
    SevenBag.draws playfield indices (SevenBag._new_bag playfield)
    = Ret (SevenBag._new_bag playfield) ts
    ∧ length ts = (7 * n)%nat
    ∧ valid_indices 7 more = true.
Proof.
  revert indices. induction n as [|n IH]; intros indices Hlen Hvalid.
  - destruct indices; [|discriminate]. exists []. by simpl.
  - rewrite <- (take_drop 7 indices) in Hvalid |- *.
    set (first := take 7 indices) in *. set (rest := drop 7 indices) in *.
    assert (length first = 7%nat) as Hfirst by (unfold first; rewrite length_take; lia).
    assert (length rest = (7 * n)%nat) as Hrest by (unfold rest; rewrite length_drop; lia).
    rewrite <- app_assoc in Hvalid.
    destruct (draws_drain (SevenBag._bag (SevenBag._new_bag playfield)) first (rest ++ more))
      as (ts1 & Hts1 & Hp1 & Hv1); [done|done|done|].
    destruct (IH rest Hrest Hv1) as (ts2 & Hts2 & Hl2 & Hv2).
    exists (ts1 ++ ts2). rewrite draws_app. unfold bind, ret.
    change (SevenBag.mk (SevenBag._bag (SevenBag._new_bag playfield)))
      with (SevenBag._new_bag playfield) in Hts1.
    rewrite Hts1, Hts2. split; [done|]. split; [|done].
    rewrite length_app, Hl2. apply Permutation_length in Hp1. rewrite Hp1.
    rewrite new_bag_length. lia.
Qed.

(** C6: a draw with index [i] hands out the [i]-th of the pieces left
    (so an index chosen uniformly chooses uniformly among them), removes
    it, and refills the bag exactly when that leaves it empty; and
    whatever the indices, the seven draws that follow any number of whole
    bags hand out each kind exactly once and leave a new bag. *)
Theorem seven_bag_draws :
  (∀ l (i : Z),
     0 ≤ i < Z.of_nat (length l) →
     ∃ piece,
       l !! Z.to_nat i = Some piece
       ∧ SevenBag.get_tetromino playfield i (SevenBag.mk l)
         = Ret (if bool_decide (delete (Z.to_nat i) l = [])
                then SevenBag._new_bag playfield
                else SevenBag.mk (delete (Z.to_nat i) l))
               piece)
  ∧ (∀ (n : nat) before window,
       length before = (7 * n)%nat →
       length window = 7%nat →
       valid_indices 7 (before ++ window) = true →
       ∃ ts1 ts2,
         SevenBag.draws playfield (before ++ window) (SevenBag.__init__ playfield)
         = Ret (SevenBag._new_bag playfield) (ts1 ++ ts2)
         ∧ length ts1 = (7 * n)%nat
         ∧ Tetromino.cls <$> ts2 ≡ₚ SevenBag.all_kinds
         ∧ ∀ k, length (filter (fun t => Tetromino.cls t = k) ts2) = 1%nat).
Proof.
  split; [apply get_tetromino_draw|].
  intros n before window Hbefore Hwindow Hvalid.
  destruct (draws_whole_bags n before window Hbefore Hvalid) as (ts1 & Hts1 & Hl1 & Hv1).
  destruct (draws_drain (SevenBag._bag (SevenBag._new_bag playfield)) window [])
    as (ts2 & Hts2 & Hp2 & _); [done|done|by rewrite app_nil_r|].
  exists ts1, ts2. rewrite draws_app. unfold SevenBag.__init__, bind, ret.
  change (SevenBag.mk (SevenBag._bag (SevenBag._new_bag playfield)))
    with (SevenBag._new_bag playfield) in Hts2.
  rewrite Hts1, Hts2. split; [done|]. split; [done|].
  split.
  - rewrite Hp2. reflexivity.
  - intros k. rewrite Hp2. by destruct k.
Qed.

End Bag.

Lemma seven_bag_draws_witness :
  let playfield := Playfield.__init__ Score.__init__ (Vector.mk 10 20) in
  ∃ ts1 ts2,
    SevenBag.draws playfield ([6; 0; 4; 1; 2; 0; 0] ++ [3; 3; 0; 2; 1; 1; 0])
                   (SevenBag.__init__ playfield)
    = Ret (SevenBag._new_bag playfield) (ts1 ++ ts2)
    ∧ length ts1 = (7 * 1)%nat
    ∧ Tetromino.cls <$> ts2 ≡ₚ SevenBag.all_kinds
    ∧ ∀ k, length (filter (fun t => Tetromino.cls t = k) ts2) = 1%nat.
Proof.
  intros playfield.
  apply (proj2 (seven_bag_draws playfield) 1%nat); reflexivity.
Defined.

(** * The state-and-exception monad *)

Section Monad.

Context {St : Type}.

Lemma final_state_bind {A B} (m : M St A) (k : A → M St B) (s : St) :
  final_state (bind m k s)
  = match m s with
    | Ret s' a => final_state (k a s')
    | Raise s' _ => s'
    end.
Proof. unfold bind. by destruct (m s). Qed.

Lemma preserves_bind {A B} (R : St → St → Prop) `{!Transitive R}
    (m : M St A) (k : A → M St B) :
  preserves R m → (∀ a, preserves R (k a)) → preserves R (bind m k).
Proof.
  intros Hm Hk s. rewrite final_state_bind. specialize (Hm s).
  destruct (m s) as [s' a|s' e]; simpl in Hm; [|done].
  etrans; [exact Hm|apply Hk].
Qed.

Lemma preserves_ret {A} (R : St → St → Prop) `{!Reflexive R} (a : A) :
  preserves R (ret a).
Proof. intros s. simpl. reflexivity. Qed.

Lemma preserves_get (R : St → St → Prop) `{!Reflexive R} : preserves R get.
Proof. intros s. simpl. reflexivity. Qed.

Lemma preserves_index_or_raise {A} (R : St → St → Prop) `{!Reflexive R} (o : option A) :
  preserves R (index_or_raise o).
Proof. intros s. destruct o; simpl; reflexivity. Qed.

Lemma preserves_put (R : St → St → Prop) (s' : St) :
  (∀ s, R s s') → preserves R (put s').
Proof. intros H s. apply H. Qed.

End Monad.

#[local] Instance content_only_refl : Reflexive content_only.
Proof. intros [? ? ? ?]. reflexivity. Qed.

#[local] Instance content_only_trans : Transitive content_only.
Proof.
  intros [? ? ? ?] [? ? ? ?] [? ? ? ?]. unfold content_only, Playfield.set_content.
  simpl. congruence.
Qed.

#[local] Instance topped_out_kept_refl : Reflexive topped_out_kept.
Proof. intros pf Ht. exact Ht. Qed.

#[local] Instance topped_out_kept_trans : Transitive topped_out_kept.
Proof. unfold topped_out_kept. intros pf1 pf2 pf3. tauto. Qed.

Lemma content_only_kept pf pf' : content_only pf pf' → topped_out_kept pf pf'.
Proof. intros H Ht. rewrite H. exact Ht. Qed.

(** * Playfield: what [land] changes *)

Section LandFrame.

Implicit Types (pf : Playfield.t) (rows : list Z).

Lemma content_only_set pf pf' content :
  content_only pf pf' → content_only pf (Playfield.set_content content pf').
Proof. intros H. rewrite H. reflexivity. Qed.

Lemma set_cell_content_only x y colorChar :
  preserves content_only (Playfield.set_cell x y colorChar).
Proof.
  intros pf. unfold Playfield.set_cell. unfold_monad.
  destruct (py_getitem (Playfield.playfieldContent pf) y) as [row|]; simpl;
    [|reflexivity].
  destruct (py_setitem row x (Some colorChar)) as [row'|]; simpl; [|reflexivity].
  destruct (py_setitem (Playfield.playfieldContent pf) y row'); simpl; reflexivity.
Qed.

Lemma land_mark_content_only vectors colorChar rows :
  preserves content_only (Playfield.land_mark vectors colorChar rows).
Proof.
  revert rows. induction vectors as [|v vectors IH]; intros rows; simpl.
  - apply preserves_ret, _.
  - apply preserves_bind; [apply _|apply set_cell_content_only|intros _; apply IH].
Qed.

(** The scan only reads. *)
Lemma land_scan_reads rowsToScan rows pf :
  final_state (Playfield.land_scan rowsToScan rows pf) = pf.
Proof.
  revert rows. induction rowsToScan as [|r rowsToScan IH]; intros rows; simpl; [done|].
  unfold_monad. destruct (py_getitem _ r); simpl; [apply IH|done].
Qed.

Lemma land_rows_content_only vectors colorChar :
  preserves content_only (Playfield.land_rows vectors colorChar).
Proof.
  unfold Playfield.land_rows.
  apply preserves_bind; [apply _|apply land_mark_content_only|].
  intros rows pf. rewrite land_scan_reads. reflexivity.
Qed.

Lemma land_pop_content_only rows : preserves content_only (Playfield.land_pop rows).
Proof.
  induction rows as [|r rows IH]; simpl.
  - apply preserves_ret, _.
  - intros pf. unfold bind at 1. unfold get.
    rewrite final_state_bind.
    destruct (py_pop (Playfield.playfieldContent pf) r) as [popped|]; simpl;
      [|reflexivity].
    rewrite final_state_bind. unfold put at 1.
    etrans; [|apply IH]. reflexivity.
Qed.

Lemma land_insert_spec rows pf :
  Playfield.land_insert rows pf
  = Ret (Playfield.set_content
           (replicate (length rows) (Playfield.empty_row (Vector.x (Playfield.size pf)))
            ++ Playfield.playfieldContent pf) pf) tt.
Proof.
  revert pf. induction rows as [|r rows IH]; intros pf; simpl.
  - by destruct pf.
  - unfold bind, get, put. rewrite IH. simpl. f_equal.
    unfold Playfield.set_content. simpl. f_equal.
    rewrite app_comm_cons, replicate_cons_app, <- app_assoc. reflexivity.
Qed.

Lemma check_top_fold (row : list Playfield.cell) pf :
  foldl (fun self topRowCell =>
           if Playfield.truthy topRowCell then Playfield.set_topped_out true self else self)
        pf row
  = if existsb Playfield.truthy row then Playfield.set_topped_out true pf else pf.
Proof.
  revert pf. induction row as [|c row IH]; intros pf; simpl; [done|].
  rewrite IH. destruct (Playfield.truthy c); simpl; [|done].
  by destruct (existsb Playfield.truthy row).
Qed.

Lemma land_check_top_spec pf :
  Playfield.land_check_top pf
  = match Playfield.playfieldContent pf with
    | [] => Raise pf IndexError
    | topRow :: _ =>
        Ret (if existsb Playfield.truthy topRow
             then Playfield.set_topped_out true pf else pf) tt
    end.
Proof.
  unfold Playfield.land_check_top. unfold_monad.
  destruct (Playfield.playfieldContent pf) as [|topRow content]; simpl; [done|].
  unfold py_getitem, py_index. simpl. by rewrite check_top_fold.
Qed.

Lemma empty_row_no_cell width : existsb Playfield.truthy (Playfield.empty_row width) = false.
Proof.
  unfold Playfield.empty_row. induction (Z.to_nat width) as [|n IH]; simpl; done.
Qed.

Lemma land_check_top_kept : preserves topped_out_kept Playfield.land_check_top.
Proof.
  intros pf. rewrite land_check_top_spec.
  destruct (Playfield.playfieldContent pf); simpl; [done|].
  by destruct (existsb _ _).
Qed.

Lemma score_add_kept (lines : Z) :
  preserves (fun pf pf' =>
               Playfield.playfieldContent pf' = Playfield.playfieldContent pf
               ∧ Playfield.topped_out pf' = Playfield.topped_out pf
               ∧ Playfield.size pf' = Playfield.size pf)
            (zoom Playfield._score Playfield.set_score (Score.add lines)).
Proof.
  intros pf. unfold zoom. by destruct (Score.add lines (Playfield._score pf)).
Qed.

Lemma land_compact_kept rows : preserves topped_out_kept (Playfield.land_compact rows).
Proof.
  unfold Playfield.land_compact.
  apply preserves_bind; [apply _| |intros _].
  { intros pf. apply content_only_kept, land_pop_content_only. }
  apply preserves_bind; [apply _| |intros _].
  { intros pf. rewrite land_insert_spec. intros Ht. exact Ht. }
  apply preserves_bind; [apply _|apply land_check_top_kept|intros _].
  intros pf Ht. by destruct (score_add_kept (Z.of_nat (length rows)) pf) as (_ & -> & _).
Qed.

Lemma land_kept vectors colorChar : preserves topped_out_kept (Playfield.land vectors colorChar).
Proof.
  unfold Playfield.land.
  apply preserves_bind; [apply _| |intros rows; apply land_compact_kept].
  intros pf. apply content_only_kept, land_rows_content_only.
Qed.

(** The compaction of at least one row leaves the flag as it was. *)
Lemma land_compact_clearing rows pf :
  rows ≠ [] →
  Playfield.topped_out (final_state (Playfield.land_compact rows pf))
  = Playfield.topped_out pf.
Proof.
  intros Hrows. unfold Playfield.land_compact.
  rewrite final_state_bind.
  pose proof (land_pop_content_only (rev rows) pf) as Hpop.
  destruct (Playfield.land_pop (rev rows) pf) as [pf1 []|pf1 e]; simpl in Hpop;
    [|by rewrite Hpop].
  rewrite final_state_bind, land_insert_spec.
  rewrite final_state_bind, land_check_top_spec.
  destruct rows as [|r rows]; [done|]. simpl.
  rewrite empty_row_no_cell.
  destruct (score_add_kept (Z.of_nat (S (length rows)))
              (Playfield.set_content
                 (Playfield.empty_row (Vector.x (Playfield.size pf1))
                  :: replicate (length rows)
                       (Playfield.empty_row (Vector.x (Playfield.size pf1)))
                     ++ Playfield.playfieldContent pf1) pf1)) as (_ & Ht & _).
  simpl in Ht. rewrite Ht. by rewrite Hpop.
Qed.

(** C10: a call of [land] that removes at least one row leaves
    [topped_out] as it was: the rows inserted at the top are empty when
    the top row is looked at. *)
Theorem land_clearing_keeps_topped_out vectors colorChar pf pf1 rows :
  Playfield.land_rows vectors colorChar pf = Ret pf1 rows →
  rows ≠ [] →
  Playfield.topped_out (final_state (Playfield.land vectors colorChar pf))
  = Playfield.topped_out pf.
Proof.
  intros Hrows Hne. unfold Playfield.land. rewrite final_state_bind, Hrows.
  rewrite land_compact_clearing by done.
  pose proof (land_rows_content_only vectors colorChar pf) as Hframe.
  rewrite Hrows in Hframe. simpl in Hframe. by rewrite Hframe.
Qed.

End LandFrame.

Lemma land_clearing_keeps_topped_out_witness :
  let vectors := [Vector.mk 0 2; Vector.mk 1 2; Vector.mk 2 2; Vector.mk 3 2] in
  (∃ pf1, Playfield.land_rows vectors sample_char small_field = Ret pf1 [2])
  ∧ Playfield.topped_out (final_state (Playfield.land vectors sample_char small_field))
    = Playfield.topped_out small_field.
Proof.
  intros vectors. split.
  - eexists. vm_compute. reflexivity.
  - eapply (land_clearing_keeps_topped_out vectors sample_char small_field _ [2]).
    + vm_compute. reflexivity.
    + discriminate.
Defined.

(** * Playfield: the flag [topped_out] *)

Section ToppedOut.

Lemma bind_returns {St A B} (m : M St A) (k : A → M St B) s s' b :
  bind m k s = Ret s' b → ∃ s1 a, m s = Ret s1 a ∧ k a s1 = Ret s' b.
Proof.
  unfold bind. destruct (m s) as [s1 a|s1 e]; [|discriminate].
  intros H. by exists s1, a.
Qed.

#[local] Instance kept_in_refl {St} (field : St → Playfield.t) : Reflexive (kept_in field).
Proof. intros s Ht. exact Ht. Qed.

#[local] Instance kept_in_trans {St} (field : St → Playfield.t) : Transitive (kept_in field).
Proof. unfold kept_in, topped_out_kept. intros s1 s2 s3. tauto. Qed.

(** A returning [land] that leaves a set cell in the top row has set the
    flag. *)
Lemma land_sets_topped_out vectors colorChar pf pf' topRow :
  Playfield.land vectors colorChar pf = Ret pf' tt →
  head (Playfield.playfieldContent pf') = Some topRow →
  existsb Playfield.truthy topRow = true →
  Playfield.topped_out pf' = true.
Proof.
  unfold Playfield.land, Playfield.land_compact. intros Hland Hhead Hcell.
  apply bind_returns in Hland as (pf1 & rows & _ & Hland).
  apply bind_returns in Hland as (pf2 & [] & _ & Hland).
  apply bind_returns in Hland as (pf3 & [] & _ & Hland).
  apply bind_returns in Hland as (pf4 & [] & Hcheck & Hscore).
  pose proof (score_add_kept (Z.of_nat (length rows)) pf4) as Hkept.
  rewrite Hscore in Hkept. simpl in Hkept. destruct Hkept as (Hc & Ht & _).
  rewrite Ht. rewrite Hc in Hhead.
  rewrite land_check_top_spec in Hcheck.
  destruct (Playfield.playfieldContent pf3) as [|row3 content3] eqn:Hcontent;
    [discriminate|].
  injection Hcheck as <-.
  destruct (existsb Playfield.truthy row3) eqn:Hrow3; [done|].
  rewrite Hcontent in Hhead. simpl in Hhead. congruence.
Qed.

Lemma cell_blocked_reads x y e : final_state (Tetromino.cell_blocked x y e) = e.
Proof. unfold Tetromino.cell_blocked. by repeat case_match. Qed.

Lemma rests_reads block e : final_state (Tetromino.rests block e) = e.
Proof. unfold Tetromino.rests. by repeat case_match. Qed.

Lemma move_kept dx : preserves (kept_in Tetromino._playfield) (Tetromino._move_horizontally dx).
Proof.
  unfold Tetromino._move_horizontally.
  apply preserves_bind; [apply _|apply preserves_get, _|intros e0].
  clear. induction (Tetromino._position (Tetromino.self e0)) as [|block blocks IH]; simpl.
  - intros e Ht. exact Ht.
  - intros e. rewrite final_state_bind.
    pose proof (cell_blocked_reads (Vector.x block + dx) (Vector.y block) e) as Hr.
    destruct (Tetromino.cell_blocked _ _ e) as [e' hit|e' ex]; simpl in Hr; subst e'.
    + destruct hit; [reflexivity|apply IH].
    + reflexivity.
Qed.

Lemma rotate_loop_kept blocks rotated :
  preserves (kept_in Tetromino._playfield) (Tetromino._rotate_loop blocks rotated).
Proof.
  induction blocks as [|block blocks IH]; simpl.
  - intros e Ht. exact Ht.
  - intros e. rewrite final_state_bind.
    pose proof (cell_blocked_reads (Vector.x block) (Vector.y block) e) as Hr.
    destruct (Tetromino.cell_blocked _ _ e) as [e' hit|e' ex]; simpl in Hr; subst e'.
    + destruct hit; [reflexivity|apply IH].
    + reflexivity.
Qed.

Lemma rotate_kept : preserves (kept_in Tetromino._playfield) Tetromino._rotate.
Proof.
  unfold Tetromino._rotate.
  apply preserves_bind; [apply _|apply preserves_get, _|intros e].
  destruct (Tetromino.cls (Tetromino.self e)); try apply rotate_loop_kept.
  apply preserves_ret, _.
Qed.

Lemma gravity_kept : preserves (kept_in Tetromino._playfield) Tetromino._do_gravity.
Proof.
  unfold Tetromino._do_gravity.
  apply preserves_bind; [apply _|apply preserves_get, _|intros e0].
  destruct (Tetromino.landed (Tetromino.self e0)); [apply preserves_ret, _|].
  induction (Tetromino._position (Tetromino.self e0)) as [|block blocks IH]; simpl.
  - intros e Ht. exact Ht.
  - intros e. rewrite final_state_bind.
    pose proof (rests_reads block e) as Hr.
    destruct (Tetromino.rests block e) as [e' hit|e' ex]; simpl in Hr; subst e'; [|reflexivity].
    destruct hit; [|apply IH].
    unfold bind, get, put, zoom.
    pose proof (land_kept (Tetromino._position (Tetromino.self e))
                  (Tetromino.color_char (Tetromino.self e)) (Tetromino._playfield e)) as Hland.
    simpl.
    destruct (Playfield.land _ _ _); exact Hland.
Qed.

Lemma drop_kept fuel e o :
  Tetromino._drop fuel e = Some o → kept_in Tetromino._playfield e (final_state o).
Proof.
  revert e. induction fuel as [|fuel IH]; intros e; simpl.
  - destruct (Tetromino.landed _); [|discriminate]. intros [= <-]. reflexivity.
  - destruct (Tetromino.landed _); [intros [= <-]; reflexivity|].
    pose proof (gravity_kept e) as Hg.
    destruct (Tetromino._do_gravity e) as [e' []|e' ex]; simpl in Hg.
    + intros Hdrop. etrans; [exact Hg|by apply IH].
    + intros [= <-]. exact Hg.
Qed.

Lemma on_this_kept {A} (m : M Tetromino.env A) :
  preserves (kept_in Tetromino._playfield) m →
  preserves (kept_in frame_playfield) (Tetromino.on_this m).
Proof.
  intros Hm f. unfold Tetromino.on_this, zoom. specialize (Hm (Tetromino.this f)).
  destruct (m (Tetromino.this f)); exact Hm.
Qed.

Lemma on_input_kept {A} (m : M InputController.t A) :
  preserves (kept_in frame_playfield) (Tetromino.on_input m).
Proof.
  intros f. unfold Tetromino.on_input, zoom.
  destruct (m (Tetromino.inputController f)); intros Ht; exact Ht.
Qed.

Lemma process_kept fuel gravity f o :
  Tetromino.process fuel gravity f = Some o → kept_in frame_playfield f (final_state o).
Proof.
  unfold Tetromino.process.
  destruct (Tetromino.landed _); [intros [= <-]; reflexivity|].
  match goal with |- context [match ?m f with _ => _ end] => set (commands := m) end.
  assert (preserves (kept_in frame_playfield) commands) as Hcommands.
  { unfold commands.
    apply preserves_bind; [apply _|apply on_input_kept|intros dx].
    apply preserves_bind; [apply _|apply on_this_kept, move_kept|intros _].
    apply preserves_bind; [apply _|apply on_input_kept|intros up].
    apply preserves_bind; [apply _| |intros _; apply on_input_kept].
    destruct up; [apply on_this_kept, rotate_kept|apply preserves_ret, _]. }
  specialize (Hcommands f).
  destruct (commands f) as [f' down|f' ex]; simpl in Hcommands;
    [|intros [= <-]; exact Hcommands].
  destruct down.
  - destruct (Tetromino._drop fuel (Tetromino.this f')) as [o'|] eqn:Hdrop; [|discriminate].
    intros [= <-]. etrans; [exact Hcommands|].
    apply drop_kept in Hdrop. by destruct o'.
  - destruct gravity; intros [= <-].
    + etrans; [exact Hcommands|]. apply on_this_kept, gravity_kept.
    + exact Hcommands.
Qed.

Lemma step_kept w w' : step w w' → kept_in Main.playfield w w'.
Proof.
  intros [fuel gravity rnd pressed1 pressed2 w0 o Hiter].
  unfold Main.iteration in Hiter.
  destruct (Tetromino.process fuel gravity (Main.frame w0)) as [[f []|f ex]|] eqn:Hp;
    [| |discriminate]; apply process_kept in Hp.
  - simpl in Hp.
    destruct (Tetromino.landed _).
    + destruct (Playfield.topped_out _); [by injection Hiter as <-|].
      unfold zoom in Hiter.
      destruct (SevenBag.get_tetromino _ _ _); by injection Hiter as <-.
    + by injection Hiter as <-.
  - by injection Hiter as <-.
Qed.

(** C9: the flag starts false; a [land] that leaves a set cell in the top
    row sets it; and neither [land] nor any pass through the main loop
    takes it back once it is set. *)
Theorem topped_out_is_never_cleared :
  (∀ score size, Playfield.topped_out (Playfield.__init__ score size) = false)
  ∧ (∀ rnd, match Main.main rnd with
            | Ret _ w => Playfield.topped_out (Main.playfield w) = false
            | Raise _ _ => True
            end)
  ∧ (∀ vectors colorChar pf pf' topRow,
       Playfield.land vectors colorChar pf = Ret pf' tt →
       head (Playfield.playfieldContent pf') = Some topRow →
       existsb Playfield.truthy topRow = true →
       Playfield.topped_out pf' = true)
  ∧ (∀ vectors colorChar pf,
       Playfield.topped_out pf = true →
       Playfield.topped_out (final_state (Playfield.land vectors colorChar pf)) = true)
  ∧ (∀ w w',
       rtc step w w' →
       Playfield.topped_out (Main.playfield w) = true →
       Playfield.topped_out (Main.playfield w') = true).
Proof.
  split; [reflexivity|]. split.
  { intros rnd. unfold Main.main. by destruct (SevenBag.get_tetromino _ _ _). }
  split; [apply land_sets_topped_out|]. split.
  { intros vectors colorChar pf. apply land_kept. }
  intros w w' Hsteps. induction Hsteps as [w|w1 w2 w3 Hstep _ IH]; [done|].
  intros Ht. apply IH. by apply (step_kept _ _ Hstep).
Qed.

End ToppedOut.

Lemma topped_out_is_never_cleared_witness :
  Playfield.topped_out topped_field = true
  ∧ Playfield.topped_out
      (final_state (Playfield.land [Vector.mk 1 2] sample_char topped_field)) = true
  ∧ ∃ w', step topped_world w' ∧ Playfield.topped_out (Main.playfield w') = true.
Proof.
  destruct topped_out_is_never_cleared as (_ & _ & Hset & Hland & Hsteps).
  split; [|split].
  - apply (Hset [Vector.mk 0 0] sample_char small_field topped_field
             (Some (ColorChar.shift_to_gray sample_char) :: replicate 3 None));
      reflexivity.
  - apply Hland. reflexivity.
  - eexists. split.
    + apply (step_iteration 0 true 0 no_key no_key topped_world). vm_compute. reflexivity.
    + apply (Hsteps topped_world).
      * apply rtc_once.
        apply (step_iteration 0 true 0 no_key no_key topped_world). vm_compute. reflexivity.
      * reflexivity.
Defined.

(** * Piece: the test made for one cell by move and rotate *)

Section CellValidation.

Implicit Types (e : Tetromino.env) (pf : Playfield.t).

Lemma content_at_negative pf x y :
  let height := Z.of_nat (length (Playfield.playfieldContent pf)) in
  - height ≤ y < 0 →
  Playfield.content_at pf x y = Playfield.content_at pf x (height + y).
Proof.
  intros height Hy. unfold Playfield.content_at.
  by rewrite py_getitem_negative.
Qed.

Lemma move_loop_applies dx e blocks :
  Forall (fun b => passes e (Vector.x b + dx) (Vector.y b)) blocks →
  Tetromino._move_horizontally_loop blocks dx e = Ret (moved dx e) tt.
Proof.
  induction 1 as [|block blocks Hblock _ IH]; simpl; [reflexivity|].
  unfold bind at 1. by rewrite Hblock.
Qed.

Lemma move_loop_refuses dx e blocks :
  Forall (fun b => passes e (Vector.x b + dx) (Vector.y b)
                   ∨ refused e (Vector.x b + dx) (Vector.y b)) blocks →
  Exists (fun b => refused e (Vector.x b + dx) (Vector.y b)) blocks →
  Tetromino._move_horizontally_loop blocks dx e = Ret e tt.
Proof.
  induction 1 as [|block blocks Hblock _ IH]; intros Hsome; simpl.
  - by apply Exists_nil in Hsome.
  - unfold bind at 1. destruct Hblock as [Hfree|Hhit].
    + rewrite Hfree. apply IH. apply Exists_cons in Hsome as [Hhit|Hrest]; [|done].
      unfold passes, refused in *. congruence.
    + by rewrite Hhit.
Qed.

Lemma rotate_loop_applies e blocks rotated :
  Forall (fun b => passes e (Vector.x b) (Vector.y b)) blocks →
  Tetromino._rotate_loop blocks rotated e
  = Ret (Tetromino.set_self (Tetromino.set_position rotated (Tetromino.self e)) e) tt.
Proof.
  induction 1 as [|block blocks Hblock _ IH]; simpl; [reflexivity|].
  unfold bind at 1. by rewrite Hblock.
Qed.

Lemma rotate_loop_refuses e blocks rotated :
  Forall (fun b => passes e (Vector.x b) (Vector.y b)
                   ∨ refused e (Vector.x b) (Vector.y b)) blocks →
  Exists (fun b => refused e (Vector.x b) (Vector.y b)) blocks →
  Tetromino._rotate_loop blocks rotated e = Ret e tt.
Proof.
  induction 1 as [|block blocks Hblock _ IH]; intros Hsome; simpl.
  - by apply Exists_nil in Hsome.
  - unfold bind at 1. destruct Hblock as [Hfree|Hhit].
    + rewrite Hfree. apply IH. apply Exists_cons in Hsome as [Hhit|Hrest]; [|done].
      unfold passes, refused in *. congruence.
    + by rewrite Hhit.
Qed.

(** X26: the test made for a cell by move and rotate has no bound on
    [y]; inside the columns it reads the cell that Python's indexing
    finds, so a cell with a negative [y] down to minus the height is
    tested against the cell of row [height + y], and a [y] further out
    raises [IndexError]; the move and the rotation are applied when every
    cell passes this test and refused when one does not. *)
Theorem negative_y_cell_tests_row_from_bottom e :
  let pf := Tetromino._playfield e in
  let height := Z.of_nat (length (Playfield.playfieldContent pf)) in
  let position := Tetromino._position (Tetromino.self e) in
  let rotated := Vectors.get_rotated90_around_anchor position in
  (∀ x y, 0 ≤ x < Vector.x (Playfield.size pf) →
          Tetromino.cell_blocked x y e
          = match Playfield.content_at pf x y with
            | Some c => Ret e (Playfield.truthy c)
            | None => Raise e IndexError
            end)
  ∧ (∀ x y, - height ≤ y < 0 →
            Playfield.content_at pf x y = Playfield.content_at pf x (height + y)
            ∧ Tetromino.cell_blocked x y e = Tetromino.cell_blocked x (height + y) e)
  ∧ (∀ x y, 0 ≤ x < Vector.x (Playfield.size pf) →
            y < - height ∨ height ≤ y →
            Tetromino.cell_blocked x y e = Raise e IndexError)
  ∧ (∀ dx, Forall (fun b => passes e (Vector.x b + dx) (Vector.y b)) position →
           Tetromino._move_horizontally dx e = Ret (moved dx e) tt)
  ∧ (∀ dx, Forall (fun b => passes e (Vector.x b + dx) (Vector.y b)
                            ∨ refused e (Vector.x b + dx) (Vector.y b)) position →
           Exists (fun b => refused e (Vector.x b + dx) (Vector.y b)) position →
           Tetromino._move_horizontally dx e = Ret e tt)
  ∧ (Tetromino.cls (Tetromino.self e) ≠ Tetromino.Tetromino_O →
     Forall (fun b => passes e (Vector.x b) (Vector.y b)) rotated →
     Tetromino._rotate e = Ret (turned e) tt)
  ∧ (Tetromino.cls (Tetromino.self e) ≠ Tetromino.Tetromino_O →
     Forall (fun b => passes e (Vector.x b) (Vector.y b)
                      ∨ refused e (Vector.x b) (Vector.y b)) rotated →
     Exists (fun b => refused e (Vector.x b) (Vector.y b)) rotated →
     Tetromino._rotate e = Ret e tt).
Proof.
  intros pf height position rotated.
  assert (∀ x y, 0 ≤ x < Vector.x (Playfield.size pf) →
                 Tetromino.cell_blocked x y e
                 = match Playfield.content_at pf x y with
                   | Some c => Ret e (Playfield.truthy c)
                   | None => Raise e IndexError
                   end) as Hdirect.
  { intros x y Hx. unfold Tetromino.cell_blocked. fold pf.
    replace (Vector.x (Playfield.size pf) <=? x) with false
      by (symmetry; apply Z.leb_gt; lia).
    replace (x <? 0) with false by (symmetry; apply Z.ltb_ge; lia).
    reflexivity. }
  split; [exact Hdirect|]. split; [|split; [|split; [|split; [|split]]]].
  - intros x y Hy.
    pose proof (content_at_negative pf x y Hy) as Hread. fold height in Hread.
    split; [exact Hread|].
    unfold Tetromino.cell_blocked. fold pf. by rewrite Hread.
  - intros x y Hx Hy. rewrite Hdirect by done.
    unfold Playfield.content_at. by rewrite py_getitem_outside.
  - intros dx Hall. unfold Tetromino._move_horizontally, bind, get.
    by apply move_loop_applies.
  - intros dx Hall Hsome. unfold Tetromino._move_horizontally, bind, get.
    by apply move_loop_refuses.
  - intros Hcls Hall. unfold Tetromino._rotate, bind, get. fold position rotated.
    destruct (Tetromino.cls (Tetromino.self e)); try done;
      by apply rotate_loop_applies.
  - intros Hcls Hall Hsome. unfold Tetromino._rotate, bind, get. fold position rotated.
    destruct (Tetromino.cls (Tetromino.self e)); try done;
      by apply rotate_loop_refuses.
Qed.

Lemma negative_y_cell_tests_row_from_bottom_witness :
  Tetromino.cell_blocked 5 (-1) (fresh_J bottom_cell_field)
  = Tetromino.cell_blocked 5 19 (fresh_J bottom_cell_field)
  ∧ Tetromino._rotate (fresh_J bottom_cell_field) = Ret (fresh_J bottom_cell_field) tt
  ∧ Tetromino._rotate (fresh_J game_field) = Ret (turned (fresh_J game_field)) tt.
Proof.
  destruct (negative_y_cell_tests_row_from_bottom (fresh_J bottom_cell_field))
    as (_ & Hwrap & _ & _ & _ & _ & Hrefuse).
  destruct (negative_y_cell_tests_row_from_bottom (fresh_J game_field))
    as (_ & _ & _ & _ & _ & Happly & _).
  split; [|split].
  - apply (Hwrap 5 (-1)). vm_compute. split; [discriminate|reflexivity].
  - apply Hrefuse.
    + discriminate.
    + repeat (apply Forall_cons; split; [(left; reflexivity) || (right; reflexivity)|]).
      apply Forall_nil_2.
    + apply Exists_cons_tl, Exists_cons_hd. reflexivity.
  - apply Happly.
    + discriminate.
    + repeat (apply Forall_cons; split; [reflexivity|]). apply Forall_nil_2.
Defined.

(** C1: the code at the failing input.  With a cell set in the bottom
    row, the cell of a piece at [y = -1] in the same column is found
    occupied, and the rotation of a new J piece that would put a cell
    there is refused, while it is applied on the empty playfield; so a
    cell above the top row is not exempt from the occupancy test. *)
Lemma negative_y_cell_occupied_counterexample :
  -1 < 0
  ∧ Tetromino.cell_blocked 5 (-1) (fresh_J bottom_cell_field)
    = Ret (fresh_J bottom_cell_field) true
  ∧ Tetromino._rotate (fresh_J bottom_cell_field) = Ret (fresh_J bottom_cell_field) tt
  ∧ Tetromino._position (Tetromino.self (final_state (Tetromino._rotate (fresh_J game_field))))
    = [Vector.mk 5 0; Vector.mk 5 (-1); Vector.mk 5 1; Vector.mk 4 1]
  ∧ ¬ (∀ e x y, y < 0 → 0 ≤ x < Vector.x (Playfield.size (Tetromino._playfield e)) →
                Tetromino.cell_blocked x y e = Ret e false).
Proof.
  split; [lia|]. split; [reflexivity|]. split; [reflexivity|]. split; [reflexivity|].
  intros Hclaim.
  specialize (Hclaim (fresh_J bottom_cell_field) 5 (-1)).
  assert (Tetromino.cell_blocked 5 (-1) (fresh_J bottom_cell_field)
          = Ret (fresh_J bottom_cell_field) true) as Hblocked by reflexivity.
  rewrite Hblocked in Hclaim.
  discriminate Hclaim; [lia|]. vm_compute. split; [discriminate|reflexivity].
Qed.

End CellValidation.

(** * Playfield: locking and clearing rows *)

Section Lock.

Implicit Types (pf : Playfield.t) (content : list (list Playfield.cell))
  (rows : list Z) (v : Vector.t) (vectors : list Vector.t).

Lemma insert_as_alter {A} (f : A → A) (l : list A) (i : nat) (a : A) :
  l !! i = Some a → <[i := f a]> l = alter f i l.
Proof.
  intros Hlook. apply list_eq. intros j.
  destruct (decide (i = j)) as [<-|Hne].
  - rewrite list_lookup_insert_eq by (by eapply lookup_lt_Some).
    by rewrite list_lookup_alter_eq, Hlook.
  - by rewrite list_lookup_insert_ne, list_lookup_alter_ne.
Qed.

Lemma mark_length colorChar content v :
  length (mark colorChar content v) = length content.
Proof. unfold mark. apply length_alter. Qed.

Lemma mark_wide (w : Z) colorChar content v :
  Forall (fun row => Z.of_nat (length row) = w) content →
  Forall (fun row => Z.of_nat (length row) = w) (mark colorChar content v).
Proof.
  intros Hwide. unfold mark. apply Forall_alter; [done|].
  intros row _ Hrow. by rewrite length_insert.
Qed.

Lemma marked_length vectors colorChar content :
  length (marked vectors colorChar content) = length content.
Proof.
  revert content. induction vectors as [|v vectors IH]; intros content; [done|].
  unfold marked in *. simpl. by rewrite IH, mark_length.
Qed.

Lemma marked_wide (w : Z) vectors colorChar content :
  Forall (fun row => Z.of_nat (length row) = w) content →
  Forall (fun row => Z.of_nat (length row) = w) (marked vectors colorChar content).
Proof.
  revert content. induction vectors as [|v vectors IH]; intros content Hwide; [done|].
  unfold marked in *. simpl. by apply IH, mark_wide.
Qed.

(** Writing a cell that lies inside the matrix. *)
Lemma set_cell_inside (w : Z) colorChar pf v :
  Forall (fun row => Z.of_nat (length row) = w) (Playfield.playfieldContent pf) →
  0 ≤ Vector.x v < w →
  0 ≤ Vector.y v < Z.of_nat (length (Playfield.playfieldContent pf)) →
  Playfield.set_cell (Vector.x v) (Vector.y v) colorChar pf
  = Ret (Playfield.set_content (mark colorChar (Playfield.playfieldContent pf) v) pf) tt.
Proof.
  intros Hwide Hx Hy. unfold Playfield.set_cell. unfold_monad.
  rewrite py_getitem_nonneg by done.
  destruct (lookup_lt_is_Some_2 (Playfield.playfieldContent pf) (Z.to_nat (Vector.y v)))
    as [row Hrow]; [lia|].
  rewrite Hrow.
  assert (Z.of_nat (length row) = w) as Hlen.
  { by apply (proj1 (Forall_lookup _ _) Hwide _ _ Hrow). }
  rewrite py_setitem_nonneg by lia.
  rewrite py_setitem_nonneg by done.
  unfold mark.
  by rewrite (insert_as_alter (fun row => <[Z.to_nat (Vector.x v) := Some colorChar]> row)
                _ _ row Hrow).
Qed.

Lemma land_mark_inside (w : Z) vectors colorChar rows pf :
  Forall (fun row => Z.of_nat (length row) = w) (Playfield.playfieldContent pf) →
  Forall (fun v => 0 ≤ Vector.x v < w
                   ∧ 0 ≤ Vector.y v < Z.of_nat (length (Playfield.playfieldContent pf)))
         vectors →
  Playfield.land_mark vectors colorChar rows pf
  = Ret (Playfield.set_content (marked vectors colorChar (Playfield.playfieldContent pf)) pf)
        (foldl see_row rows (Vector.y <$> vectors)).
Proof.
  revert rows pf. induction vectors as [|v vectors IH]; intros rows pf Hwide Hin.
  - simpl. unfold ret. by destruct pf.
  - apply Forall_cons in Hin as [[Hx Hy] Hin]. simpl.
    unfold bind. rewrite (set_cell_inside w) by done.
    rewrite IH; simpl.
    + reflexivity.
    + by apply mark_wide.
    + by rewrite mark_length.
Qed.

Lemma see_rows_elem (ys rows : list Z) (z : Z) :
  z ∈ foldl see_row rows ys ↔ z ∈ rows ∨ z ∈ ys.
Proof.
  revert rows. induction ys as [|y ys IH]; intros rows; simpl.
  - rewrite elem_of_nil. tauto.
  - rewrite IH, elem_of_cons. unfold see_row. case_bool_decide.
    + split; [tauto|]. intros [?|[->|?]]; auto.
    + rewrite elem_of_app, list_elem_of_singleton. tauto.
Qed.

Lemma see_rows_NoDup (ys rows : list Z) : NoDup rows → NoDup (foldl see_row rows ys).
Proof.
  revert rows. induction ys as [|y ys IH]; intros rows Hnd; simpl; [done|].
  apply IH. unfold see_row. case_bool_decide; [done|].
  apply NoDup_app. split; [done|]. split; [|apply NoDup_singleton].
  intros z Hz Hzy. apply list_elem_of_singleton in Hzy. by subst.
Qed.

Lemma hit_count_spec (row : list Playfield.cell) (n : Z) :
  Playfield.hit_count row n = n + Z.of_nat (occupied_count row).
Proof.
  revert n. unfold occupied_count.
  induction row as [|c row IH]; intros n; simpl; [lia|].
  rewrite IH, filter_cons. destruct (Playfield.truthy c); simpl; lia.
Qed.

(** The scan of rows that exist: the full ones are kept, in order. *)
Lemma land_scan_inside rowsToScan rows pf :
  Forall (fun r => 0 ≤ r < Z.of_nat (length (Playfield.playfieldContent pf))) rowsToScan →
  Playfield.land_scan rowsToScan rows pf
  = Ret pf (rows ++ filter (fun r => full (Vector.x (Playfield.size pf))
                                          (Playfield.playfieldContent pf) (Z.to_nat r) = true)
                           rowsToScan).
Proof.
  revert rows. induction rowsToScan as [|r rowsToScan IH]; intros rows Hin; simpl.
  - unfold ret. by rewrite app_nil_r.
  - apply Forall_cons in Hin as [Hr Hin]. unfold_monad.
    rewrite py_getitem_nonneg by done.
    destruct (lookup_lt_is_Some_2 (Playfield.playfieldContent pf) (Z.to_nat r))
      as [row Hrow]; [lia|].
    rewrite Hrow. rewrite IH by done. rewrite filter_cons.
    assert (full (Vector.x (Playfield.size pf)) (Playfield.playfieldContent pf) (Z.to_nat r)
            = (Vector.x (Playfield.size pf) <=? Z.of_nat (occupied_count row))) as Hfull.
    { unfold full. by rewrite Hrow. }
    rewrite Hfull, hit_count_spec, Z.add_0_l.
    destruct (Vector.x (Playfield.size pf) <=? Z.of_nat (occupied_count row)).
    + rewrite decide_True by done. by rewrite <- app_assoc.
    + rewrite decide_False by done. done.
Qed.

End Lock.

Section Compaction.

Context {A : Type}.

Implicit Types (l : list A) (P Q : nat → bool).

Lemma omit_from_ext n P Q l :
  (∀ i, (n ≤ i < n + length l)%nat → P i = Q i) →
  omit_from n P l = omit_from n Q l.
Proof.
  revert n. induction l as [|a l IH]; intros n Hext; simpl in *; [done|].
  rewrite (Hext n) by lia. rewrite (IH (S n)); [done|].
  intros i Hi. apply Hext. lia.
Qed.

Lemma omit_from_none n P l :
  (∀ i, (n ≤ i < n + length l)%nat → P i = false) → omit_from n P l = l.
Proof.
  revert n. induction l as [|a l IH]; intros n Hnone; simpl in *; [done|].
  rewrite (Hnone n) by lia. f_equal. apply IH. intros i Hi. apply Hnone. lia.
Qed.

(** Taking out row [r] first does not disturb the rows above it. *)
Lemma omit_from_delete n P (r : nat) l :
  (r < length l)%nat →
  (∀ i, P i = true → (i < n + r)%nat) →
  omit_from n P (delete r l) = omit_from n (fun i => P i || Nat.eqb i (n + r)) l.
Proof.
  revert n r. induction l as [|a l IH]; intros n r Hr Hbelow; simpl in *; [lia|].
  destruct r as [|r]; simpl.
  - rewrite Nat.add_0_r, Nat.eqb_refl, orb_true_r.
    rewrite !omit_from_none; [done| |].
    + intros i Hi. apply orb_false_iff. split.
      * apply not_true_is_false. intros HP. apply Hbelow in HP. lia.
      * apply Nat.eqb_neq. lia.
    + intros i Hi. apply not_true_is_false. intros HP. apply Hbelow in HP. lia.
  - replace (Nat.eqb n (n + S r)) with false by (symmetry; apply Nat.eqb_neq; lia).
    rewrite orb_false_r.
    rewrite (IH (S n) r) by (try lia; intros i HP; apply Hbelow in HP; lia).
    rewrite (omit_from_ext (S n) (fun i => P i || Nat.eqb i (S n + r))
               (fun i => P i || Nat.eqb i (n + S r))); [done|].
    intros i _. by replace (S n + r)%nat with (n + S r)%nat by lia.
Qed.

Lemma omit_from_length n P l :
  (length (omit_from n P l)
   + length (filter (fun i => P i = true) (seq n (length l))))%nat = length l.
Proof.
  revert n. induction l as [|a l IH]; intros n; simpl; [done|].
  rewrite filter_cons. specialize (IH (S n)).
  destruct (P n); simpl; lia.
Qed.

Lemma omit_from_Forall (R : A → Prop) n P l : Forall R l → Forall R (omit_from n P l).
Proof.
  intros Hl. revert n. induction Hl as [|a l Ha Hl IH]; intros n; simpl; [done|].
  destruct (P n); [apply IH|constructor; [done|apply IH]].
Qed.

Lemma omit_from_only n (r : nat) l :
  (r < length l)%nat →
  omit_from n (fun i => Nat.eqb i (n + r)) l = delete r l.
Proof.
  intros Hr.
  rewrite <- (omit_from_none n (fun _ => false) (delete r l)) by done.
  rewrite omit_from_delete; [done|done|discriminate].
Qed.

End Compaction.

Section Sorting.

Lemma StronglySorted_filter {A} (R : A → A → Prop) (P : A → Prop)
    `{∀ a, Decision (P a)} (l : list A) :
  StronglySorted R l → StronglySorted R (filter P l).
Proof.
  induction 1 as [|a l Hl IH Ha]; [constructor|].
  rewrite filter_cons. destruct (decide (P a)); [|done].
  constructor; [done|]. apply Forall_forall. intros b Hb.
  apply list_elem_of_filter in Hb as [_ Hb].
  by apply (proj1 (Forall_forall _ _) Ha).
Qed.

Lemma seq_rows_sorted (P : nat → Prop) `{∀ i, Decision (P i)} (j n : nat) :
  StronglySorted Z.le (Z.of_nat <$> filter P (seq j n)).
Proof.
  revert j. induction n as [|n IH]; intros j; simpl; [constructor|].
  rewrite filter_cons. destruct (decide (P j)); [|apply IH].
  simpl. constructor; [apply IH|].
  apply Forall_fmap, Forall_forall. intros i Hi.
  apply list_elem_of_filter in Hi as [_ Hi]. apply elem_of_seq in Hi. simpl. lia.
Qed.

End Sorting.

Section LockClears.

Implicit Types (pf : Playfield.t) (rows : list Z) (vectors : list Vector.t).

(** Popping rows in descending order takes out exactly the rows listed. *)
Lemma land_pop_descending rows pf :
  StronglySorted Z.le rows →
  NoDup rows →
  Forall (fun r => 0 ≤ r < Z.of_nat (length (Playfield.playfieldContent pf))) rows →
  Playfield.land_pop (rev rows) pf
  = Ret (Playfield.set_content
           (omit_from 0 (fun i => bool_decide (Z.of_nat i ∈ rows))
                      (Playfield.playfieldContent pf)) pf) tt.
Proof.
  revert pf. induction rows as [|r rows IH] using rev_ind; intros pf Hsorted Hnd Hin.
  - simpl. unfold ret. rewrite omit_from_none.
    + by destruct pf.
    + intros i _. reflexivity.
  - rewrite rev_unit. simpl.
    apply Forall_app in Hin as [Hin Hr]. apply Forall_cons in Hr as [Hr _].
    apply NoDup_app in Hnd as (Hnd & Hfresh & _).
    assert (Forall (fun r' => r' < r) rows) as Hbelow.
    { apply Forall_forall. intros r' Hr'.
      assert (r' ≤ r).
      { eapply (StronglySorted_app_1_elem_of Z.le); [exact Hsorted|done|].
        apply list_elem_of_singleton. reflexivity. }
      assert (r' ≠ r).
      { intros ->. apply (Hfresh r Hr'), list_elem_of_singleton. reflexivity. }
      lia. }
    apply StronglySorted_app_1_l in Hsorted.
    destruct (py_pop_nonneg (Playfield.playfieldContent pf) r Hr) as (row & Hrow & Hpop).
    unfold bind at 1, get. unfold bind at 1, index_or_raise. rewrite Hpop.
    unfold ret at 1. unfold bind at 1, put. simpl.
    rewrite IH; [|done|done|].
    + simpl. f_equal. unfold Playfield.set_content. simpl. f_equal.
      rewrite (omit_from_delete 0); [|lia|].
      * apply omit_from_ext. intros i _. simpl.
        apply eq_true_iff_eq. rewrite orb_true_iff, !bool_decide_eq_true.
        rewrite elem_of_app, list_elem_of_singleton, Nat.eqb_eq. 
        split; (intros [?|?]; [left; done|right; lia]).
      * intros i Hi. apply bool_decide_eq_true in Hi.
        apply (proj1 (Forall_forall _ _) Hbelow) in Hi. lia.
    + simpl. rewrite length_delete by eauto.
      apply Forall_forall. intros r' Hr'.
      pose proof (proj1 (Forall_forall _ _) Hin _ Hr') as Hin'.
      pose proof (proj1 (Forall_forall _ _) Hbelow _ Hr') as Hbelow'.
      simpl in Hin', Hbelow'. lia.
Qed.

Lemma land_check_top_content pf :
  Playfield.playfieldContent (final_state (Playfield.land_check_top pf))
  = Playfield.playfieldContent pf
  ∧ Playfield.size (final_state (Playfield.land_check_top pf)) = Playfield.size pf.
Proof.
  rewrite land_check_top_spec.
  destruct (Playfield.playfieldContent pf) eqn:Hcontent; simpl; [done|].
  by destruct (existsb _ _).
Qed.

(** Once the rows are popped and the empty rows inserted, the matrix and
    the size stay as they are. *)
Lemma land_finish_content (lines : Z) pf :
  Playfield.playfieldContent
    (final_state
       ((Playfield.land_check_top ;;;
         zoom Playfield._score Playfield.set_score (Score.add lines)) pf))
  = Playfield.playfieldContent pf
  ∧ Playfield.size
      (final_state
         ((Playfield.land_check_top ;;;
           zoom Playfield._score Playfield.set_score (Score.add lines)) pf))
    = Playfield.size pf.
Proof.
  rewrite final_state_bind.
  pose proof (land_check_top_content pf) as [Hc Hs].
  destruct (Playfield.land_check_top pf) as [pf' []|pf' e]; simpl in *; [|done].
  destruct (score_add_kept lines pf') as (Hc' & _ & Hs'). rewrite Hc', Hs'. done.
Qed.

(** The compaction of rows given in ascending order, all inside the
    matrix. *)
Lemma land_compact_ascending rows pf :
  StronglySorted Z.le rows →
  NoDup rows →
  Forall (fun r => 0 ≤ r < Z.of_nat (length (Playfield.playfieldContent pf))) rows →
  let pf' := final_state (Playfield.land_compact rows pf) in
  Playfield.playfieldContent pf'
  = replicate (length rows) (Playfield.empty_row (Vector.x (Playfield.size pf)))
    ++ omit_from 0 (fun i => bool_decide (Z.of_nat i ∈ rows)) (Playfield.playfieldContent pf)
  ∧ Playfield.size pf' = Playfield.size pf.
Proof.
  intros Hsorted Hnd Hin pf'. unfold pf', Playfield.land_compact.
  rewrite final_state_bind, land_pop_descending by done.
  rewrite final_state_bind, land_insert_spec.
  match goal with
  | |- context [final_state (bind _ _ ?s)] =>
      destruct (land_finish_content (Z.of_nat (length rows)) s) as [Hc Hs]
  end.
  rewrite Hc, Hs. done.
Qed.

End LockClears.

Section LockTheorem.

Implicit Types (pf : Playfield.t) (vectors : list Vector.t).

Lemma in_grid_rows pf vectors :
  well_formed pf →
  Forall (in_grid pf) vectors →
  Forall (fun r => 0 ≤ r < Z.of_nat (length (Playfield.playfieldContent pf)))
         (Vector.y <$> vectors).
Proof.
  intros [Hh _] Hin. apply Forall_fmap.
  eapply Forall_impl; [exact Hin|]. intros v [_ Hy]. simpl. lia.
Qed.

(** The rows [land] decides to remove, for cells inside the grid: the
    touched rows that are full, in ascending order. *)
Lemma land_rows_inside vectors colorChar pf :
  well_formed pf →
  Forall (in_grid pf) vectors →
  Playfield.land_rows vectors colorChar pf
  = Ret (Playfield.set_content
           (marked vectors (ColorChar.shift_to_gray colorChar)
                   (Playfield.playfieldContent pf)) pf)
        (Z.of_nat <$> cleared_rows vectors colorChar pf).
Proof.
  intros Hwf Hin. pose proof (in_grid_rows pf vectors Hwf Hin) as Hrows.
  destruct Hwf as [Hh Hw].
  unfold Playfield.land_rows, bind.
  rewrite (land_mark_inside (Vector.x (Playfield.size pf))); [|done|].
  2:{ eapply Forall_impl; [exact Hin|]. intros v [Hx Hy]. simpl. lia. }
  assert (∀ z, z ∈ merge_sort Z.le (foldl see_row [] (Vector.y <$> vectors))
               ↔ z ∈ Vector.y <$> vectors) as Hseen.
  { intros z. rewrite merge_sort_Permutation, see_rows_elem, elem_of_nil. tauto. }
  rewrite land_scan_inside.
  2:{ simpl. rewrite marked_length. apply Forall_forall. intros z Hz.
      apply Hseen in Hz. by apply (proj1 (Forall_forall _ _) Hrows). }
  simpl. f_equal.
  apply (StronglySorted_unique Z.le).
  - apply StronglySorted_filter, StronglySorted_merge_sort; apply _.
  - apply seq_rows_sorted.
  - apply NoDup_Permutation.
    + apply NoDup_filter. rewrite merge_sort_Permutation.
      apply see_rows_NoDup, NoDup_nil_2.
    + apply NoDup_fmap_2; [apply _|]. apply NoDup_filter, NoDup_seq.
    + intros z. rewrite list_elem_of_filter, Hseen.
      unfold cleared_rows. split.
      * intros [Hfull Hz]. apply list_elem_of_fmap. exists (Z.to_nat z).
        pose proof (proj1 (Forall_forall _ _) Hrows _ Hz) as Hrange. simpl in Hrange.
        split; [lia|]. apply list_elem_of_filter. split.
        -- unfold cleared, touched. rewrite Hfull, andb_true_r.
           apply bool_decide_eq_true. by rewrite Z2Nat.id by lia.
        -- apply elem_of_seq. lia.
      * intros Hz. apply list_elem_of_fmap in Hz as (i & -> & Hi).
        apply list_elem_of_filter in Hi as [Hcleared _].
        unfold cleared, touched in Hcleared.
        apply andb_true_iff in Hcleared as [Htouched Hfull].
        apply bool_decide_eq_true in Htouched.
        rewrite Nat2Z.id. done.
Qed.

Lemma cleared_rows_elem vectors colorChar pf (i : nat) :
  i ∈ cleared_rows vectors colorChar pf
  ↔ cleared vectors colorChar pf i = true
    ∧ (i < length (Playfield.playfieldContent pf))%nat.
Proof.
  unfold cleared_rows. rewrite list_elem_of_filter, elem_of_seq. intuition lia.
Qed.

(** X27: for cells inside the grid, [land] marks them, takes out exactly
    the touched rows that are then full (identified in ascending order,
    popped in descending order, so all together), and puts as many empty
    rows on top; the number of rows and their width stay what they were;
    and when the bottom row is the one row completed, the result is an
    empty row on top of the marked matrix without its bottom row. *)
Theorem land_removes_full_rows vectors colorChar pf :
  well_formed pf →
  Forall (in_grid pf) vectors →
  let m := marked vectors (ColorChar.shift_to_gray colorChar)
                  (Playfield.playfieldContent pf) in
  let pf' := final_state (Playfield.land vectors colorChar pf) in
  Playfield.land_rows vectors colorChar pf
  = Ret (Playfield.set_content m pf) (Z.of_nat <$> cleared_rows vectors colorChar pf)
  ∧ Playfield.playfieldContent pf' = lock_spec vectors colorChar pf
  ∧ length (Playfield.playfieldContent pf') = length (Playfield.playfieldContent pf)
  ∧ well_formed pf'
  ∧ ∀ bottom : nat,
      length (Playfield.playfieldContent pf) = S bottom →
      cleared_rows vectors colorChar pf = [bottom] →
      Playfield.playfieldContent pf'
      = Playfield.empty_row (Vector.x (Playfield.size pf)) :: delete bottom m.
Proof.
  intros Hwf Hin m pf'.
  pose proof (land_rows_inside vectors colorChar pf Hwf Hin) as Hrows. fold m in Hrows.
  assert (length m = length (Playfield.playfieldContent pf)) as Hm
    by apply marked_length.
  destruct (land_compact_ascending (Z.of_nat <$> cleared_rows vectors colorChar pf)
              (Playfield.set_content m pf)) as [Hcontent Hsize].
  { apply seq_rows_sorted. }
  { apply NoDup_fmap_2; [apply _|]. apply NoDup_filter, NoDup_seq. }
  { simpl. rewrite Hm. apply Forall_fmap, Forall_forall. intros i Hi.
    apply cleared_rows_elem in Hi as [_ Hi]. simpl. lia. }
  simpl in Hcontent, Hsize.
  assert (Playfield.playfieldContent pf' = lock_spec vectors colorChar pf) as Hspec.
  { unfold pf', Playfield.land. rewrite final_state_bind, Hrows, Hcontent.
    unfold lock_spec. fold m. rewrite length_fmap. f_equal.
    apply omit_from_ext. intros i Hi. simpl in Hi.
    apply eq_true_iff_eq. rewrite bool_decide_eq_true.
    rewrite (list_elem_of_fmap_inj Z.of_nat), cleared_rows_elem. intuition lia. }
  assert (length (lock_spec vectors colorChar pf)
          = length (Playfield.playfieldContent pf)) as Hlen.
  { unfold lock_spec. fold m. rewrite length_app, length_replicate.
    pose proof (omit_from_length 0 (cleared vectors colorChar pf) m) as Hcount.
    unfold cleared_rows. rewrite <- Hm. lia. }
  split; [exact Hrows|]. split; [exact Hspec|]. split; [by rewrite Hspec|].
  assert (Playfield.size pf' = Playfield.size pf) as Hsz.
  { unfold pf', Playfield.land. rewrite final_state_bind, Hrows. exact Hsize. }
  destruct Hwf as [Hh Hw]. split; [split|].
  - rewrite Hsz, Hspec, Hlen. exact Hh.
  - rewrite Hsz, Hspec. unfold lock_spec. fold m.
    apply Forall_app. split.
    + destruct (cleared_rows vectors colorChar pf) as [|i others] eqn:Hcleared;
        [constructor|].
      assert (i ∈ cleared_rows vectors colorChar pf) as Hi
        by (rewrite Hcleared; left).
      apply cleared_rows_elem in Hi as [_ Hi].
      destruct (lookup_lt_is_Some_2 (Playfield.playfieldContent pf) i Hi) as [row Hrow].
      pose proof (proj1 (Forall_lookup _ _) Hw _ _ Hrow) as Hwidth. simpl in Hwidth.
      apply Forall_replicate. unfold Playfield.empty_row.
      rewrite length_replicate. lia.
    + apply omit_from_Forall. by apply marked_wide.
  - intros bottom Hbottom Hcleared. rewrite Hspec. unfold lock_spec. fold m.
    rewrite Hcleared. simpl. f_equal.
    rewrite <- (omit_from_only 0 bottom m) by lia.
    apply omit_from_ext. intros i Hi. simpl.
    apply eq_true_iff_eq. rewrite Nat.eqb_eq.
    pose proof (cleared_rows_elem vectors colorChar pf i) as Helem.
    rewrite Hcleared, list_elem_of_singleton in Helem. intuition lia.
Qed.

End LockTheorem.

(** Outside the grid the row indices are read Python's way: a cell at
    [y = -1] is written to the bottom row, and when the same row is also
    touched under its own index it is listed twice, so a second row goes
    with it. *)
Example land_row_listed_twice :
  let vectors := [Vector.mk 0 (-1); Vector.mk 1 2; Vector.mk 2 2; Vector.mk 3 2] in
  let pf' := final_state (Playfield.land vectors sample_char stacked_field) in
  (∃ pf1, Playfield.land_rows vectors sample_char stacked_field = Ret pf1 [-1; 2])
  ∧ Playfield.playfieldContent pf' = replicate 3 (replicate 4 None)
  ∧ Score._value (Playfield._score pf') = 300.
Proof. intros vectors pf'. split; [eexists|split]; vm_compute; reflexivity. Qed.

Lemma land_removes_full_rows_witness :
  let vectors := [Vector.mk 3 0; Vector.mk 3 1; Vector.mk 3 2] in
  let gray := Some (ColorChar.shift_to_gray sample_char) in
  well_formed stacked_field
  ∧ Forall (in_grid stacked_field) vectors
  ∧ cleared_rows vectors sample_char stacked_field = [2%nat]
  ∧ Playfield.playfieldContent (final_state (Playfield.land vectors sample_char stacked_field))
    = [[None; None; None; None]; [None; None; None; gray]; [gray; None; None; gray]].
Proof.
  intros vectors gray.
  assert (well_formed stacked_field) as Hwf.
  { split; [reflexivity|]. repeat constructor. }
  assert (Forall (in_grid stacked_field) vectors) as Hin.
  { repeat constructor; simpl; lia. }
  assert (cleared_rows vectors sample_char stacked_field = [2%nat]) as Hcleared
    by reflexivity.
  split; [exact Hwf|]. split; [exact Hin|]. split; [exact Hcleared|].
  destruct (land_removes_full_rows vectors sample_char stacked_field Hwf Hin)
    as (_ & _ & _ & _ & Hbottom).
  rewrite (Hbottom 2%nat eq_refl Hcleared). reflexivity.
Defined.

(** * Piece: gravity *)

Section Gravity.

Implicit Types (e : Tetromino.env) (v block : Vector.t).

Lemma content_at_inside pf (x y : Z) :
  well_formed pf →
  0 ≤ x < Vector.x (Playfield.size pf) →
  0 ≤ y < Vector.y (Playfield.size pf) →
  ∃ c, Playfield.content_at pf x y = Some c
       ∧ cell_occupied pf x y = Playfield.truthy c.
Proof.
  intros [Hh Hw] Hx Hy. unfold Playfield.content_at, cell_occupied.
  rewrite py_getitem_nonneg by lia.
  destruct (lookup_lt_is_Some_2 (Playfield.playfieldContent pf) (Z.to_nat y))
    as [row Hrow]; [lia|].
  rewrite Hrow.
  pose proof (proj1 (Forall_lookup _ _) Hw _ _ Hrow) as Hwidth. simpl in Hwidth.
  rewrite py_getitem_nonneg by lia.
  destruct (lookup_lt_is_Some_2 row (Z.to_nat x)) as [c Hc]; [lia|].
  rewrite Hc. exists c. split; [done|].
  replace (0 <=? x) with true by (symmetry; apply Z.leb_le; lia).
  replace (0 <=? y) with true by (symmetry; apply Z.leb_le; lia).
  reflexivity.
Qed.

Lemma rests_inside e block :
  well_formed (Tetromino._playfield e) →
  falling_in (Tetromino._playfield e) block →
  Tetromino.rests block e = Ret e (blocked_below (Tetromino._playfield e) block).
Proof.
  intros Hwf [Hx Hy]. unfold Tetromino.rests, blocked_below.
  destruct (Vector.y (Playfield.size (Tetromino._playfield e)) <=? Vector.y block + 1)
    eqn:Hbottom; [done|].
  apply Z.leb_gt in Hbottom.
  destruct (content_at_inside (Tetromino._playfield e) (Vector.x block) (Vector.y block + 1))
    as (c & Hc & Hocc); [done|lia|lia|].
  by rewrite Hc, Hocc.
Qed.

Lemma gravity_loop_inside e blocks :
  well_formed (Tetromino._playfield e) →
  Forall (falling_in (Tetromino._playfield e)) blocks →
  Tetromino._do_gravity_loop blocks e
  = if existsb (blocked_below (Tetromino._playfield e)) blocks
    then landing e
    else Ret (fallen e) tt.
Proof.
  intros Hwf Hin. induction Hin as [|block blocks Hblock Hin IH]; simpl.
  - reflexivity.
  - unfold bind at 1. rewrite rests_inside by done.
    destruct (blocked_below (Tetromino._playfield e) block); simpl; [|exact IH].
    reflexivity.
Qed.

(** X28: one gravity step of a piece that has not landed, on a grid,
    with every cell in a column of the grid and not higher than one row
    above it.  If some cell cannot go down, the piece is flagged landed
    and [land] is called with all its cells where they are, nothing
    else; if every cell can, all cells go down one row and the playfield
    is untouched.  A piece with a cell in the bottom row lands. *)
Theorem gravity_step e :
  let pf := Tetromino._playfield e in
  let position := Tetromino._position (Tetromino.self e) in
  Tetromino.landed (Tetromino.self e) = false →
  well_formed pf →
  Forall (falling_in pf) position →
  (existsb (blocked_below pf) position = true →
     Tetromino._do_gravity e = landing e
     ∧ Tetromino.landed (Tetromino.self (final_state (Tetromino._do_gravity e))) = true
     ∧ Tetromino._position (Tetromino.self (final_state (Tetromino._do_gravity e)))
       = position
     ∧ Tetromino._playfield (final_state (Tetromino._do_gravity e))
       = final_state (Playfield.land position (Tetromino.color_char (Tetromino.self e)) pf))
  ∧ (existsb (blocked_below pf) position = false →
       Tetromino._do_gravity e = Ret (fallen e) tt
       ∧ Tetromino._position (Tetromino.self (fallen e))
         = (fun v => Vector.mk (Vector.x v) (Vector.y v + 1)) <$> position
       ∧ Tetromino.landed (Tetromino.self (fallen e)) = false
       ∧ Tetromino._playfield (fallen e) = pf)
  ∧ ((∃ v, v ∈ position ∧ Vector.y v = Vector.y (Playfield.size pf) - 1) →
       Tetromino._do_gravity e = landing e).
Proof.
  intros pf position Hfalling Hwf Hin.
  assert (Tetromino._do_gravity e
          = if existsb (blocked_below pf) position then landing e else Ret (fallen e) tt)
    as Hstep.
  { unfold Tetromino._do_gravity, bind, get. rewrite Hfalling.
    by apply gravity_loop_inside. }
  split; [|split].
  - intros Hblocked. rewrite Hstep, Hblocked. split; [done|].
    unfold landing. fold pf position.
    by destruct (Playfield.land position _ pf).
  - intros Hfree. rewrite Hstep, Hfree. split; [done|].
    split; [|split; [exact Hfalling|done]].
    unfold fallen. simpl. fold position. unfold Vectors.translate_all.
    apply list_fmap_ext. intros _ v _. unfold Vector.add_vector, Vector.add_xy. simpl.
    f_equal. lia.
  - intros (v & Hv & Hbottom). rewrite Hstep.
    replace (existsb (blocked_below pf) position) with true; [done|].
    symmetry. apply existsb_exists. exists v. split.
    + by apply list_elem_of_In.
    + unfold blocked_below. apply orb_true_iff. left. apply Z.leb_le. lia.
Qed.

End Gravity.

Lemma gravity_step_witness :
  let resting :=
    Tetromino.mkEnv
      (Tetromino.mk Tetromino.Tetromino_O
         [Vector.mk 5 18; Vector.mk 6 18; Vector.mk 5 19; Vector.mk 6 19] false)
      game_field in
  Tetromino._do_gravity resting = landing resting
  ∧ Tetromino._do_gravity (fresh_J game_field) = Ret (fallen (fresh_J game_field)) tt
  ∧ Tetromino._position (Tetromino.self (fallen (fresh_J game_field)))
    = [Vector.mk 5 1; Vector.mk 4 1; Vector.mk 6 1; Vector.mk 6 2].
Proof.
  intros resting.
  assert (well_formed game_field) as Hwf.
  { split; [reflexivity|]. repeat constructor. }
  assert (Forall (falling_in game_field) (Tetromino._position (Tetromino.self resting)))
    as Hresting by (repeat constructor; vm_compute; (reflexivity || discriminate)).
  assert (Forall (falling_in game_field)
                 (Tetromino._position (Tetromino.self (fresh_J game_field))))
    as Hfresh by (repeat constructor; vm_compute; (reflexivity || discriminate)).
  destruct (gravity_step resting eq_refl Hwf Hresting) as (_ & _ & Hbottom).
  destruct (gravity_step (fresh_J game_field) eq_refl Hwf Hfresh) as (_ & Hfree & _).
  split; [|split].
  - apply Hbottom. exists (Vector.mk 5 19). split; [|reflexivity].
    apply list_elem_of_In. simpl. tauto.
  - apply Hfree. reflexivity.
  - reflexivity.
Defined.

(** * Piece: the per-tick operation *)

Section Process.

Implicit Types (e : Tetromino.env) (f : Tetromino.frame) (ic : InputController.t).

Lemma take_dx_spec ic :
  InputController.take_dx ic
  = Ret (InputController.mk
           (if InputController.left ic =? 1 then 2 else InputController.left ic)
           (if InputController.right ic =? 1 then 2 else InputController.right ic)
           (InputController.up ic) (InputController.down ic))
        (requested_dx ic).
Proof.
  destruct ic as [l r u d]. unfold InputController.take_dx, requested_dx. unfold_monad.
  simpl. destruct (l =? 1); simpl; destruct (r =? 1); reflexivity.
Qed.

Lemma take_up_spec ic :
  InputController.take_up ic
  = Ret (InputController.mk
           (InputController.left ic) (InputController.right ic)
           (if InputController.up ic =? 1 then 2 else InputController.up ic)
           (InputController.down ic))
        (rotate_requested ic).
Proof.
  destruct ic as [l r u d]. unfold InputController.take_up, rotate_requested. unfold_monad.
  simpl. destruct (u =? 1); reflexivity.
Qed.

Lemma take_down_spec ic :
  InputController.take_down ic
  = Ret (InputController.mk
           (InputController.left ic) (InputController.right ic) (InputController.up ic)
           (if InputController.down ic =? 1 then 2 else InputController.down ic))
        (drop_requested ic).
Proof.
  destruct ic as [l r u d]. unfold InputController.take_down, drop_requested. unfold_monad.
  simpl. destruct (d =? 1); reflexivity.
Qed.

(** [process] seen from the piece and its playfield: the tick of the
    commands the input controller holds. *)
Lemma process_as_tick fuel gravityDue e ic :
  match Tetromino.process fuel gravityDue (Tetromino.mkFrame e ic) with
  | Some o => Some (map_state Tetromino.this o)
  | None => None
  end
  = tick fuel gravityDue (requested_dx ic) (rotate_requested ic) (drop_requested ic) e.
Proof.
  unfold Tetromino.process, tick. simpl.
  destruct (Tetromino.landed (Tetromino.self e)); [reflexivity|].
  unfold Tetromino.on_input, Tetromino.on_this, zoom, bind. simpl.
  rewrite take_dx_spec. simpl.
  destruct (Tetromino._move_horizontally (requested_dx ic) e) as [e1 []|e1 ex]; simpl;
    [|reflexivity].
  rewrite take_up_spec. simpl.
  change (rotate_requested (InputController.mk _ _ (InputController.up ic) _))
    with (rotate_requested ic).
  destruct (rotate_requested ic); simpl.
  - destruct (Tetromino._rotate e1) as [e2 []|e2 ex]; simpl; [|reflexivity].
    rewrite take_down_spec. simpl.
    change (drop_requested (InputController.mk _ _ _ (InputController.down ic)))
      with (drop_requested ic).
    destruct (drop_requested ic); simpl.
    + destruct (Tetromino._drop fuel e2) as [[? ?|? ?]|]; reflexivity.
    + destruct gravityDue; [|reflexivity].
      unfold map_state. by destruct (Tetromino._do_gravity e2).
  - unfold ret. simpl. rewrite take_down_spec. simpl.
    change (drop_requested (InputController.mk _ _ _ (InputController.down ic)))
      with (drop_requested ic).
    destruct (drop_requested ic); simpl.
    + destruct (Tetromino._drop fuel e1) as [[? ?|? ?]|]; reflexivity.
    + destruct gravityDue; [|reflexivity].
      unfold map_state. by destruct (Tetromino._do_gravity e1).
Qed.

Lemma process_consumes fuel gravityDue e ic f' :
  Tetromino.landed (Tetromino.self e) = false →
  Tetromino.process fuel gravityDue (Tetromino.mkFrame e ic) = Some (Ret f' tt) →
  Tetromino.inputController f' = consumed ic.
Proof.
  intros Hfalling. unfold Tetromino.process. simpl. rewrite Hfalling.
  unfold Tetromino.on_input, Tetromino.on_this, zoom, bind. simpl.
  rewrite take_dx_spec. simpl.
  destruct (Tetromino._move_horizontally (requested_dx ic) e) as [e1 []|e1 ex]; simpl;
    [|discriminate].
  rewrite take_up_spec. simpl.
  change (rotate_requested (InputController.mk _ _ (InputController.up ic) _))
    with (rotate_requested ic).
  destruct (rotate_requested ic); simpl.
  - destruct (Tetromino._rotate e1) as [e2 []|e2 ex]; simpl; [|discriminate].
    rewrite take_down_spec. simpl.
    change (drop_requested (InputController.mk _ _ _ (InputController.down ic)))
      with (drop_requested ic).
    destruct (drop_requested ic); simpl.
    + destruct (Tetromino._drop fuel e2) as [[e3 []|e3 ex]|]; simpl; intros Hp;
        [injection Hp as <-; reflexivity|discriminate|discriminate].
    + destruct gravityDue; simpl.
      * unfold Tetromino.on_this, zoom. simpl.
        destruct (Tetromino._do_gravity e2) as [e3 []|e3 ex]; simpl; intros Hp;
          [injection Hp as <-; reflexivity|discriminate].
      * intros Hp. injection Hp as <-. reflexivity.
  - unfold ret. simpl. rewrite take_down_spec. simpl.
    change (drop_requested (InputController.mk _ _ _ (InputController.down ic)))
      with (drop_requested ic).
    destruct (drop_requested ic); simpl.
    + destruct (Tetromino._drop fuel e1) as [[e3 []|e3 ex]|]; simpl; intros Hp;
        [injection Hp as <-; reflexivity|discriminate|discriminate].
    + destruct gravityDue; simpl.
      * unfold Tetromino.on_this, zoom. simpl.
        destruct (Tetromino._do_gravity e1) as [e3 []|e3 ex]; simpl; intros Hp;
          [injection Hp as <-; reflexivity|discriminate].
      * intros Hp. injection Hp as <-. reflexivity.
Qed.

End Process.

Section Drop.

Implicit Types (e : Tetromino.env) (blocks : list Vector.t).

(** [_drop] is the gravity step repeated until the piece has landed. *)
Lemma drop_as_gravity_steps fuel e o :
  Tetromino._drop fuel e = Some o →
  ∃ n, (n ≤ fuel)%nat
       ∧ o = gravity_steps n e
       ∧ (∀ m, (m < n)%nat →
               ∃ e', gravity_steps m e = Ret e' tt
                     ∧ Tetromino.landed (Tetromino.self e') = false)
       ∧ (returned o = true → Tetromino.landed (Tetromino.self (final_state o)) = true).
Proof.
  revert e. induction fuel as [|fuel IH]; intros e; simpl.
  - destruct (Tetromino.landed (Tetromino.self e)) eqn:Hl; [|discriminate].
    intros [= <-]. exists 0%nat. repeat split; [lia|intros m Hm; lia|done].
  - destruct (Tetromino.landed (Tetromino.self e)) eqn:Hl.
    { intros [= <-]. exists 0%nat. repeat split; [lia|intros m Hm; lia|done]. }
    destruct (Tetromino._do_gravity e) as [e1 []|e1 ex] eqn:Hg.
    + intros Hdrop. destruct (IH e1 Hdrop) as (n & Hn & Ho & Hbefore & Hafter).
      exists (S n). split; [lia|]. split; [simpl; by rewrite Hg|]. split; [|done].
      intros [|m] Hm.
      * exists e. by split.
      * simpl. rewrite Hg. apply Hbefore. lia.
    + intros [= <-]. exists 1%nat. split; [lia|]. split; [simpl; by rewrite Hg|].
      split; [|done]. intros m Hm. assert (m = 0%nat) as -> by lia. exists e. by split.
Qed.

Lemma gravity_loop_returns blocks e e' :
  Tetromino._do_gravity_loop blocks e = Ret e' tt →
  Tetromino.landed (Tetromino.self e') = true
  ∨ (e' = fallen e
     ∧ Forall (fun b => Vector.y b + 1 < Vector.y (Playfield.size (Tetromino._playfield e)))
              blocks).
Proof.
  induction blocks as [|block blocks IH]; simpl.
  - intros [= <-]. right. split; [reflexivity|constructor].
  - unfold bind at 1. unfold Tetromino.rests.
    destruct (Vector.y (Playfield.size (Tetromino._playfield e)) <=? Vector.y block + 1)
      eqn:Hbottom.
    + unfold_monad. simpl. destruct (Playfield.land _ _ _); [|discriminate].
      intros [= <-]. by left.
    + destruct (Playfield.content_at _ _ _) as [c|]; [|discriminate].
      destruct (Playfield.truthy c).
      * unfold_monad. simpl. destruct (Playfield.land _ _ _); [|discriminate].
        intros [= <-]. by left.
      * intros Hloop. destruct (IH Hloop) as [?|[-> Hall]]; [by left|].
        right. split; [done|]. constructor; [|done]. apply Z.leb_gt in Hbottom. lia.
Qed.

(** A piece with at least one cell is landed by enough gravity steps. *)
Lemma drop_enough_fuel (k : nat) e block rest :
  Tetromino._position (Tetromino.self e) = block :: rest →
  Vector.y (Playfield.size (Tetromino._playfield e)) - Vector.y block ≤ Z.of_nat k →
  ∀ fuel, (k < fuel)%nat → is_Some (Tetromino._drop fuel e).
Proof.
  revert e block rest. induction k as [|k IH]; intros e block rest Hpos Hk fuel Hfuel;
    (destruct fuel as [|fuel]; [lia|]); simpl;
    (destruct (Tetromino.landed (Tetromino.self e)) eqn:Hl; [by eexists|]);
    (destruct (Tetromino._do_gravity e) as [e1 []|e1 ex] eqn:Hg; [|by eexists]);
    unfold Tetromino._do_gravity, bind, get in Hg; rewrite Hl, Hpos in Hg;
    apply gravity_loop_returns in Hg as [Hlanded|[-> Hall]].
  - destruct fuel; simpl; rewrite Hlanded; by eexists.
  - apply Forall_cons in Hall as [Hblock _]. lia.
  - destruct fuel; simpl; rewrite Hlanded; by eexists.
  - apply Forall_cons in Hall as [Hblock _].
    apply (IH (fallen e) (Vector.add_vector block (Vector.mk 0 1))
              ((fun v => Vector.add_vector v (Vector.mk 0 1)) <$> rest)).
    + unfold fallen. simpl. by rewrite Hpos.
    + unfold fallen. simpl. lia.
    + lia.
Qed.

(** C4: [process] does nothing to a landed piece; otherwise it is the
    tick of the commands held by the input controller, in the order
    move, rotate, drop or else gravity, and it takes those commands; the
    drop is the gravity step repeated until the piece has landed, after
    which the tick is over; and the drop of a piece that has a cell
    ends. *)
Theorem process_command_order fuel gravityDue e ic :
  (Tetromino.landed (Tetromino.self e) = true →
     Tetromino.process fuel gravityDue (Tetromino.mkFrame e ic)
     = Some (Ret (Tetromino.mkFrame e ic) tt))
  ∧ match Tetromino.process fuel gravityDue (Tetromino.mkFrame e ic) with
    | Some o => Some (map_state Tetromino.this o)
    | None => None
    end
    = tick fuel gravityDue (requested_dx ic) (rotate_requested ic) (drop_requested ic) e
  ∧ (∀ f', Tetromino.landed (Tetromino.self e) = false →
           Tetromino.process fuel gravityDue (Tetromino.mkFrame e ic) = Some (Ret f' tt) →
           Tetromino.inputController f' = consumed ic)
  ∧ (∀ o, Tetromino._drop fuel e = Some o →
          ∃ n, (n ≤ fuel)%nat
               ∧ o = gravity_steps n e
               ∧ (∀ m, (m < n)%nat →
                       ∃ e', gravity_steps m e = Ret e' tt
                             ∧ Tetromino.landed (Tetromino.self e') = false)
               ∧ (returned o = true →
                  Tetromino.landed (Tetromino.self (final_state o)) = true))
  ∧ (Tetromino._position (Tetromino.self e) ≠ [] →
     ∃ n, ∀ fuel', (n ≤ fuel')%nat → is_Some (Tetromino._drop fuel' e)).
Proof.
  split; [|split; [|split; [|split]]].
  - intros Hl. unfold Tetromino.process. simpl. by rewrite Hl.
  - apply process_as_tick.
  - intros f'. apply process_consumes.
  - apply drop_as_gravity_steps.
  - destruct (Tetromino._position (Tetromino.self e)) as [|block rest] eqn:Hpos; [done|].
    intros _.
    exists (S (Z.to_nat (Vector.y (Playfield.size (Tetromino._playfield e))
                         - Vector.y block))).
    intros fuel' Hfuel. eapply drop_enough_fuel; [exact Hpos| |exact Hfuel]. lia.
Qed.

End Drop.

Lemma process_command_order_witness :
  let ic := InputController.mk 1 0 0 1 in
  let e := fresh_J game_field in
  (∃ f', Tetromino.process 25 true (Tetromino.mkFrame e ic) = Some (Ret f' tt)
         ∧ Tetromino.inputController f' = InputController.mk 2 0 0 2)
  ∧ (∃ o n, Tetromino._drop 25 e = Some o ∧ o = gravity_steps n e
            ∧ Tetromino.landed (Tetromino.self (final_state o)) = true)
  ∧ (∃ n, ∀ fuel', (n ≤ fuel')%nat → is_Some (Tetromino._drop fuel' e)).
Proof.
  intros ic e.
  destruct (process_command_order 25 true e ic) as (_ & _ & Htaken & Hdrop & Hends).
  split; [|split].
  - assert (∃ f', Tetromino.process 25 true (Tetromino.mkFrame e ic) = Some (Ret f' tt))
      as [f' Hf'] by (eexists; vm_compute; reflexivity).
    exists f'. split; [exact Hf'|]. apply (Htaken f' eq_refl Hf').
  - assert (∃ o, Tetromino._drop 25 e = Some o ∧ returned o = true)
      as (o & Ho & Hret) by (eexists; split; vm_compute; reflexivity).
    destruct (Hdrop o Ho) as (n & _ & Hsteps & _ & Hlanded).
    exists o, n. split; [exact Ho|]. split; [exact Hsteps|]. exact (Hlanded Hret).
  - apply Hends. discriminate.
Defined.

(** * Further properties of the geometric transform *)

Section Translation.

Implicit Types (v t u : Vector.t) (vs : Vectors.t).

Lemma add_vector_back v t :
  Vector.add_vector (Vector.add_vector v t) (Vector.mk (- Vector.x t) (- Vector.y t)) = v.
Proof.
  destruct v as [vx vy], t as [tx ty]. unfold Vector.add_vector, Vector.add_xy. simpl.
  f_equal; lia.
Qed.

(** X1: a translation is undone by the opposite translation, for a point
    and for a point set; two translations in a row are the translation by
    the sum; and the number of points is kept. *)
Theorem translate_round_trip :
  (∀ v dx dy, Vector.add_xy (Vector.add_xy v dx dy) (- dx) (- dy) = v)
  ∧ (∀ vs t,
       Vectors.translate_all (Vectors.translate_all vs t)
                             (Vector.mk (- Vector.x t) (- Vector.y t)) = vs)
  ∧ (∀ vs t u,
       Vectors.translate_all (Vectors.translate_all vs t) u
       = Vectors.translate_all vs (Vector.add_vector t u))
  ∧ (∀ vs t, length (Vectors.translate_all vs t) = length vs).
Proof.
  split; [|split; [|split]].
  - intros [vx vy] dx dy. unfold Vector.add_xy. simpl. f_equal; lia.
  - intros vs t. unfold Vectors.translate_all. rewrite <- list_fmap_compose.
    rewrite <- (list_fmap_id vs) at 2. apply list_fmap_ext. intros _ v _. simpl.
    apply add_vector_back.
  - intros vs t u. unfold Vectors.translate_all. rewrite <- list_fmap_compose.
    apply list_fmap_ext. intros _ [vx vy] _. simpl.
    unfold Vector.add_vector, Vector.add_xy. simpl. f_equal; lia.
  - intros vs t. unfold Vectors.translate_all. apply length_fmap.
Qed.

End Translation.

Section RotationGeometry.

Implicit Types (v w anchor : Vector.t) (vs : Vectors.t).

Lemma rotate90_inj anchor v w :
  Vector.rotate90 v anchor = Vector.rotate90 w anchor → v = w.
Proof.
  destruct v as [vx vy], w as [wx wy], anchor as [ax ay].
  unfold Vector.rotate90. simpl. intros [= Hx Hy]. f_equal; lia.
Qed.

Lemma rotate90_anchor anchor : Vector.rotate90 anchor anchor = anchor.
Proof. destruct anchor as [ax ay]. unfold Vector.rotate90. simpl. f_equal; lia. Qed.

(** X2: the rotation leaves the anchor where it is, keeps the distance of
    every point to the anchor, and sends different points to different
    points; so a point set without repeated points has none after the
    rotation either. *)
Theorem rotation_keeps_shape :
  (∀ anchor, Vector.rotate90 anchor anchor = anchor)
  ∧ (∀ v anchor,
       let v' := Vector.rotate90 v anchor in
       (Vector.x v' - Vector.x anchor) * (Vector.x v' - Vector.x anchor)
       + (Vector.y v' - Vector.y anchor) * (Vector.y v' - Vector.y anchor)
       = (Vector.x v - Vector.x anchor) * (Vector.x v - Vector.x anchor)
         + (Vector.y v - Vector.y anchor) * (Vector.y v - Vector.y anchor))
  ∧ (∀ v w anchor, Vector.rotate90 v anchor = Vector.rotate90 w anchor → v = w)
  ∧ (∀ vs, NoDup vs → NoDup (Vectors.get_rotated90_around_anchor vs)).
Proof.
  split; [apply rotate90_anchor|]. split; [|split].
  - intros [vx vy] [ax ay]. unfold Vector.rotate90. simpl. lia.
  - intros v w anchor. apply rotate90_inj.
  - intros [|anchor vs] Hnd; [constructor|].
    rewrite get_rotated90_cons. apply NoDup_cons in Hnd as [Hfresh Hnd].
    apply NoDup_cons. split.
    + intros Hin. apply list_elem_of_fmap in Hin as (v & Hv & Hin).
      rewrite <- (rotate90_anchor anchor) in Hv at 1.
      apply rotate90_inj in Hv. by subst.
    + apply NoDup_fmap_2; [|done]. intros v w. apply rotate90_inj.
Qed.

Lemma rotation_keeps_shape_witness :
  NoDup (Vectors.get_rotated90_around_anchor
           [Vector.mk 5 0; Vector.mk 4 0; Vector.mk 6 0; Vector.mk 6 1]).
Proof.
  apply (proj2 (proj2 (proj2 rotation_keeps_shape))).
  apply NoDup_ListNoDup. repeat constructor; simpl; intuition discriminate.
Defined.

End RotationGeometry.

(** * The pieces as constructed *)

Section Spawn.

Ltac distinct_vectors :=
  repeat (apply NoDup_cons; split;
          [rewrite ?elem_of_cons, elem_of_nil;
           intros Heq; repeat destruct Heq as [Heq|Heq]; try done;
           injection Heq; lia|]);
  apply NoDup_nil_2.

(** X3: on a playfield at least 3 and at most 2^53 wide (where the float
    quotient of the constructors is exact) and at least 4 high, every kind
    of piece is constructed falling, with four different cells that all
    lie inside the grid (none above row 0), the first cell being the
    anchor in column [size.x / 2]. *)
Theorem pieces_spawn_inside (k : Tetromino.kind) (playfield : Playfield.t) :
  3 ≤ Vector.x (Playfield.size playfield) ≤ 2 ^ 53 →
  4 ≤ Vector.y (Playfield.size playfield) →
  let piece := Tetromino.__init__ k playfield in
  Tetromino.cls piece = k
  ∧ Tetromino.landed piece = false
  ∧ length (Tetromino._position piece) = 4%nat
  ∧ NoDup (Tetromino._position piece)
  ∧ Forall (in_grid playfield) (Tetromino._position piece)
  ∧ Vector.x <$> head (Tetromino._position piece)
    = Some (Vector.x (Playfield.size playfield) / 2).
Proof.
  intros Hw Hh piece. unfold piece, Tetromino.__init__.
  rewrite Z.quot_div_nonneg by lia.
  assert (1 ≤ Vector.x (Playfield.size playfield) / 2
          ∧ Vector.x (Playfield.size playfield) / 2 + 1
            < Vector.x (Playfield.size playfield)) as Hhalf.
  { pose proof (Z.div_mod (Vector.x (Playfield.size playfield)) 2).
    pose proof (Z.mod_pos_bound (Vector.x (Playfield.size playfield)) 2). lia. }
  set (half := Vector.x (Playfield.size playfield) / 2) in *.
  split; [done|]. split; [done|].
  destruct k; simpl; unfold Vector.add_xy; simpl;
    (split; [done|]); (split; [distinct_vectors|]);
    (split; [repeat constructor; simpl; lia|done]).
Qed.

Lemma pieces_spawn_inside_witness :
  Forall (in_grid game_field)
         (Tetromino._position (Tetromino.__init__ Tetromino.Tetromino_I game_field))
  ∧ NoDup (Tetromino._position (Tetromino.__init__ Tetromino.Tetromino_I game_field)).
Proof.
  assert (3 ≤ Vector.x (Playfield.size game_field) ≤ 2 ^ 53) as Hw
    by (split; vm_compute; discriminate).
  assert (4 ≤ Vector.y (Playfield.size game_field)) as Hh by (vm_compute; discriminate).
  destruct (pieces_spawn_inside Tetromino.Tetromino_I game_field Hw Hh)
    as (_ & _ & _ & Hnd & Hin & _).
  split; [exact Hin|exact Hnd].
Defined.

End Spawn.

(** * Playfield: construction and [floor] *)

Section Floor.

Implicit Types (pf : Playfield.t).

Lemma init_well_formed score size :
  0 ≤ Vector.x size → 0 ≤ Vector.y size →
  well_formed (Playfield.__init__ score size).
Proof.
  intros Hx Hy. unfold well_formed, Playfield.__init__, Playfield.empty_row. simpl.
  split.
  - rewrite length_replicate. lia.
  - apply Forall_replicate. rewrite length_replicate. lia.
Qed.

Lemma init_cells_empty score size (x y : Z) :
  cell_occupied (Playfield.__init__ score size) x y = false.
Proof.
  unfold cell_occupied, Playfield.__init__, Playfield.empty_row. simpl.
  destruct (replicate _ _ !! Z.to_nat y) as [row|] eqn:Hrow; [|by rewrite andb_false_r].
  apply lookup_replicate_1 in Hrow as [-> _].
  destruct (replicate _ _ !! Z.to_nat x) as [c|] eqn:Hc; [|by rewrite andb_false_r].
  apply lookup_replicate_1 in Hc as [-> _]. by rewrite andb_false_r.
Qed.

(** The scan of [floor] from row [j] on, when no row above [j] has the
    cell of column [x] set. *)
Lemma floor_loop_first pf (x : Z) (n j : nat) :
  well_formed pf →
  0 ≤ x < Vector.x (Playfield.size pf) →
  (j + n)%nat = length (Playfield.playfieldContent pf) →
  (∀ y', 0 ≤ y' < Z.of_nat j → cell_occupied pf x y' = false) →
  ∃ y, Playfield.floor_loop pf x (seq j n) = Ret pf y
       ∧ 0 ≤ y ≤ Vector.y (Playfield.size pf)
       ∧ (∀ y', 0 ≤ y' < y → cell_occupied pf x y' = false)
       ∧ (y < Vector.y (Playfield.size pf) → cell_occupied pf x y = true).
Proof.
  intros Hwf Hx. revert j. induction n as [|n IH]; intros j Hlen Habove; simpl.
  - destruct Hwf as [Hh _]. exists (Vector.y (Playfield.size pf)).
    split; [done|]. split; [lia|]. split; [|lia].
    intros y' Hy'. apply Habove. lia.
  - destruct (content_at_inside pf x (Z.of_nat j)) as (c & Hc & Hocc); [done|done| |].
    { destruct Hwf as [Hh _]. lia. }
    rewrite Hc. destruct (Playfield.truthy c) eqn:Hset.
    + exists (Z.of_nat j). split; [done|]. destruct Hwf as [Hh _].
      split; [lia|]. split; [exact Habove|]. intros _. by rewrite Hocc.
    + apply (IH (S j)); [lia|].
      intros y' Hy'. destruct (decide (y' = Z.of_nat j)) as [->|Hne].
      * by rewrite Hocc.
      * apply Habove. lia.
Qed.

(** X4: a playfield constructed with non-negative sizes is a grid of
    [size.y] rows of [size.x] cells, all empty, not topped out, and
    [floor] answers [size.y] for every column. *)
Theorem new_playfield_is_empty score size :
  0 ≤ Vector.x size → 0 ≤ Vector.y size →
  let pf := Playfield.__init__ score size in
  well_formed pf
  ∧ Playfield.size pf = size
  ∧ Playfield.topped_out pf = false
  ∧ Playfield._score pf = score
  ∧ (∀ x y, cell_occupied pf x y = false)
  ∧ (∀ x, 0 ≤ x < Vector.x size → Playfield.floor x pf = Ret pf (Vector.y size)).
Proof.
  intros Hx Hy pf.
  pose proof (init_well_formed score size Hx Hy) as Hwf. fold pf in Hwf.
  split; [exact Hwf|]. split; [done|]. split; [done|]. split; [done|].
  split; [apply init_cells_empty|].
  intros x Hcol. unfold Playfield.floor.
  destruct (floor_loop_first pf x (length (Playfield.playfieldContent pf)) 0 Hwf)
    as (y & Hfloor & Hrange & _ & Hset); [done|done|intros y' Hy'; lia|].
  rewrite Hfloor. f_equal.
  destruct (decide (y < Vector.y size)) as [Hlt|Hge]; [|simpl in Hrange; lia].
  apply Hset in Hlt. unfold pf in Hlt. by rewrite init_cells_empty in Hlt.
Qed.

Lemma new_playfield_is_empty_witness :
  well_formed game_field ∧ Playfield.floor 3 game_field = Ret game_field 20.
Proof.
  destruct (new_playfield_is_empty Score.__init__ (Vector.mk 10 20)) as (Hwf & _ & _ & _ & _ & Hfloor);
    [simpl; lia|simpl; lia|].
  split; [exact Hwf|]. apply Hfloor. simpl. lia.
Defined.

(** X5: on a grid, for a column of the grid, [floor] never raises and
    changes nothing; it answers the first row, from the top, whose cell in
    that column is set, or [size.y] when the column is empty. *)
Theorem floor_finds_first_set_cell pf (x : Z) :
  well_formed pf →
  0 ≤ x < Vector.x (Playfield.size pf) →
  ∃ y, Playfield.floor x pf = Ret pf y
       ∧ 0 ≤ y ≤ Vector.y (Playfield.size pf)
       ∧ (∀ y', 0 ≤ y' < y → cell_occupied pf x y' = false)
       ∧ (y < Vector.y (Playfield.size pf) → cell_occupied pf x y = true).
Proof.
  intros Hwf Hx. unfold Playfield.floor.
  apply floor_loop_first; [done|done|done|]. intros y' Hy'. lia.
Qed.

Lemma floor_finds_first_set_cell_witness :
  ∃ y, Playfield.floor 0 stacked_field = Ret stacked_field y
       ∧ cell_occupied stacked_field 0 y = true.
Proof.
  assert (well_formed stacked_field) as Hwf.
  { split; [reflexivity|]. repeat constructor. }
  destruct (floor_finds_first_set_cell stacked_field 0 Hwf) as (y & Hfloor & _ & _ & Hset).
  { vm_compute. split; [discriminate|reflexivity]. }
  exists y. split; [exact Hfloor|]. apply Hset.
  assert (Playfield.floor 0 stacked_field = Ret stacked_field 1) as Hone by reflexivity.
  rewrite Hone in Hfloor. injection Hfloor as <-. vm_compute. reflexivity.
Defined.

End Floor.

(** * Playfield: the state [land] leaves *)

Section LandOutcome.

Implicit Types (pf : Playfield.t) (vectors : list Vector.t) (v : Vector.t).

Lemma score_add_award (lines : Z) (s : Score.t) :
  0 ≤ lines ≤ 4 →
  Score.add lines s = Ret (Score.mk (Score._value s + award lines)) tt.
Proof.
  intros Hlines. destruct s as [value]. unfold Score.add, award. simpl.
  repeat (case_match; [reflexivity|]).
  case_match; [|lia]. f_equal. f_equal. lia.
Qed.

Lemma score_add_too_many (lines : Z) (s : Score.t) :
  4 < lines → Score.add lines s = Raise s ValueError.
Proof.
  intros Hlines. unfold Score.add. repeat (case_match; [lia|]). reflexivity.
Qed.

(** The matrix left by the compaction, for cells inside the grid, is the
    one the specification describes. *)
Lemma compacted_is_lock_spec vectors colorChar pf :
  let m := marked vectors (ColorChar.shift_to_gray colorChar)
                  (Playfield.playfieldContent pf) in
  replicate (length (Z.of_nat <$> cleared_rows vectors colorChar pf))
            (Playfield.empty_row (Vector.x (Playfield.size pf)))
  ++ omit_from 0 (fun i => bool_decide (Z.of_nat i ∈ Z.of_nat <$> cleared_rows vectors colorChar pf)) m
  = lock_spec vectors colorChar pf.
Proof.
  intros m. unfold lock_spec. fold m. rewrite length_fmap. f_equal.
  apply omit_from_ext. intros i Hi. simpl in Hi.
  assert (length m = length (Playfield.playfieldContent pf)) as Hm by apply marked_length.
  apply eq_true_iff_eq. rewrite bool_decide_eq_true.
  rewrite (list_elem_of_fmap_inj Z.of_nat), cleared_rows_elem. intuition lia.
Qed.

Lemma lock_spec_length vectors colorChar pf :
  length (lock_spec vectors colorChar pf) = length (Playfield.playfieldContent pf).
Proof.
  unfold lock_spec. rewrite length_app, length_replicate.
  pose proof (omit_from_length 0 (cleared vectors colorChar pf)
                (marked vectors (ColorChar.shift_to_gray colorChar)
                        (Playfield.playfieldContent pf))) as Hcount.
  rewrite marked_length in Hcount. unfold cleared_rows. lia.
Qed.

(** [land], for cells inside a grid that has a row: everything up to the
    call of [Score.add] returns, and leaves the matrix of the
    specification and the flag set if the top row has a cell set. *)
Lemma land_inside_outcome vectors colorChar pf :
  well_formed pf →
  Forall (in_grid pf) vectors →
  0 < Vector.y (Playfield.size pf) →
  Playfield.land vectors colorChar pf
  = zoom Playfield._score Playfield.set_score
         (Score.add (Z.of_nat (length (cleared_rows vectors colorChar pf))))
         (Playfield.mk (Playfield.size pf)
                       (lock_spec vectors colorChar pf)
                       (Playfield.topped_out pf
                        || top_row_set (lock_spec vectors colorChar pf))
                       (Playfield._score pf)).
Proof.
  intros Hwf Hin Hrow.
  unfold Playfield.land, bind at 1. rewrite (land_rows_inside _ _ _ Hwf Hin).
  unfold Playfield.land_compact, bind at 1.
  rewrite land_pop_descending; simpl.
  2:{ apply seq_rows_sorted. }
  2:{ apply NoDup_fmap_2; [apply _|]. apply NoDup_filter, NoDup_seq. }
  2:{ rewrite marked_length. apply Forall_fmap, Forall_forall. intros i Hi.
      apply cleared_rows_elem in Hi as [_ Hi]. simpl. lia. }
  unfold bind at 1. rewrite land_insert_spec. simpl.
  rewrite compacted_is_lock_spec.
  unfold bind at 1. rewrite land_check_top_spec. simpl.
  pose proof (lock_spec_length vectors colorChar pf) as Hlen.
  destruct Hwf as [Hh _].
  destruct (lock_spec vectors colorChar pf) as [|topRow content']; simpl in *; [lia|].
  rewrite length_fmap.
  destruct (existsb Playfield.truthy topRow); simpl.
  - by rewrite orb_true_r.
  - by rewrite orb_false_r.
Qed.

Lemma cleared_rows_at_most vectors colorChar pf :
  (length (cleared_rows vectors colorChar pf) ≤ length vectors)%nat.
Proof.
  rewrite <- (length_fmap Z.of_nat), <- (length_fmap Vector.y vectors).
  apply submseteq_length, NoDup_submseteq.
  - apply NoDup_fmap_2; [apply _|]. apply NoDup_filter, NoDup_seq.
  - intros z Hz. apply list_elem_of_fmap in Hz as (i & -> & Hi).
    apply cleared_rows_elem in Hi as [Hcleared _].
    unfold cleared, touched in Hcleared. apply andb_true_iff in Hcleared as [Ht _].
    by apply bool_decide_eq_true in Ht.
Qed.

(** X6: locking at least one and at most four cells that lie inside a
    grid always returns; the score grows by exactly the award for the
    number of rows cleared, the matrix is the compacted one, the size is
    kept, and the flag is set if it was set or the new top row has a cell
    set. *)
Theorem land_of_a_piece_returns vectors colorChar pf :
  well_formed pf →
  Forall (in_grid pf) vectors →
  vectors ≠ [] →
  (length vectors ≤ 4)%nat →
  let k := Z.of_nat (length (cleared_rows vectors colorChar pf)) in
  0 ≤ k ≤ 4
  ∧ Playfield.land vectors colorChar pf
    = Ret (Playfield.mk (Playfield.size pf)
                        (lock_spec vectors colorChar pf)
                        (Playfield.topped_out pf
                         || top_row_set (lock_spec vectors colorChar pf))
                        (Score.mk (Score._value (Playfield._score pf) + award k)))
          tt.
Proof.
  intros Hwf Hin Hne Hfour k.
  pose proof (cleared_rows_at_most vectors colorChar pf) as Hk.
  assert (0 ≤ k ≤ 4) as Hrange by (unfold k; lia).
  split; [exact Hrange|].
  rewrite land_inside_outcome; [|done|done|].
  - unfold zoom. simpl. fold k. by rewrite score_add_award.
  - destruct vectors as [|v vectors]; [done|].
    apply Forall_cons in Hin as [[_ Hy] _]. lia.
Qed.

Lemma land_of_a_piece_returns_witness :
  let vectors := [Vector.mk 3 0; Vector.mk 3 1; Vector.mk 3 2] in
  Score._value
    (Playfield._score (final_state (Playfield.land vectors sample_char stacked_field)))
  = 100.
Proof.
  intros vectors.
  assert (well_formed stacked_field) as Hwf.
  { split; [reflexivity|]. repeat constructor. }
  assert (Forall (in_grid stacked_field) vectors) as Hin.
  { repeat constructor; simpl; lia. }
  destruct (land_of_a_piece_returns vectors sample_char stacked_field Hwf Hin)
    as [_ Hland]; [discriminate|simpl; lia|].
  rewrite Hland. reflexivity.
Defined.

(** X7: locking more than four rows' worth of full rows raises
    [ValueError], but only after the rows were cleared: the matrix is the
    compacted one and the score is what it was. *)
Theorem land_of_five_rows_raises vectors colorChar pf :
  well_formed pf →
  Forall (in_grid pf) vectors →
  (4 < length (cleared_rows vectors colorChar pf))%nat →
  Playfield.land vectors colorChar pf
  = Raise (Playfield.mk (Playfield.size pf)
                        (lock_spec vectors colorChar pf)
                        (Playfield.topped_out pf
                         || top_row_set (lock_spec vectors colorChar pf))
                        (Playfield._score pf))
          ValueError.
Proof.
  intros Hwf Hin Hfive.
  rewrite land_inside_outcome; [|done|done|].
  - unfold zoom. simpl. rewrite score_add_too_many by lia. simpl.
    by destruct (Playfield._score pf).
  - destruct (cleared_rows vectors colorChar pf) as [|i others] eqn:Hrows;
      [simpl in Hfive; lia|].
    assert (i ∈ cleared_rows vectors colorChar pf) as Hi by (rewrite Hrows; left).
    apply cleared_rows_elem in Hi as [_ Hi]. destruct Hwf as [Hh _]. lia.
Qed.

Lemma land_of_five_rows_raises_witness :
  let vectors := (fun y => Vector.mk 0 y) <$> [0; 1; 2; 3; 4] in
  returned (Playfield.land vectors sample_char column_field) = false
  ∧ Playfield.playfieldContent (final_state (Playfield.land vectors sample_char column_field))
    = replicate 5 [None].
Proof.
  intros vectors.
  assert (well_formed column_field) as Hwf.
  { split; [reflexivity|]. repeat constructor. }
  assert (Forall (in_grid column_field) vectors) as Hin.
  { repeat constructor; simpl; lia. }
  assert (4 < length (cleared_rows vectors sample_char column_field))%nat as Hfive.
  { vm_compute. lia. }
  rewrite (land_of_five_rows_raises vectors sample_char column_field Hwf Hin Hfive).
  split; reflexivity.
Defined.

(** The cells set after marking are the cells set before and the cells
    marked. *)
Lemma cell_occupied_mark colorChar pf pf' v (x y : Z) :
  well_formed pf →
  in_grid pf v →
  Playfield.playfieldContent pf' = mark colorChar (Playfield.playfieldContent pf) v →
  cell_occupied pf' x y = bool_decide (Vector.mk x y = v) || cell_occupied pf x y.
Proof.
  intros [Hh Hw] [Hvx Hvy] Hmark. unfold cell_occupied. rewrite Hmark. unfold mark.
  destruct v as [vx vy]. simpl in *.
  destruct (0 <=? x) eqn:Hx; simpl.
  2:{ apply Z.leb_gt in Hx. rewrite bool_decide_eq_false_2; [done|]. intros [= -> _]. lia. }
  destruct (0 <=? y) eqn:Hy; simpl.
  2:{ apply Z.leb_gt in Hy. rewrite bool_decide_eq_false_2; [done|]. intros [= _ ->]. lia. }
  apply Z.leb_le in Hx, Hy.
  destruct (lookup_lt_is_Some_2 (Playfield.playfieldContent pf) (Z.to_nat vy))
    as [row Hrow]; [lia|].
  pose proof (proj1 (Forall_lookup _ _) Hw _ _ Hrow) as Hwidth. simpl in Hwidth.
  destruct (decide (y = vy)) as [->|Hrowne].
  - rewrite list_lookup_alter_eq, Hrow. simpl.
    destruct (decide (x = vx)) as [->|Hcolne].
    + rewrite list_lookup_insert_eq by lia. simpl.
      by rewrite bool_decide_eq_true_2.
    + rewrite list_lookup_insert_ne by lia.
      rewrite bool_decide_eq_false_2; [done|]. intros [= ->]. done.
  - rewrite list_lookup_alter_ne by lia.
    rewrite bool_decide_eq_false_2; [done|]. intros [= _ ->]. done.
Qed.

Lemma mark_well_formed colorChar pf v :
  well_formed pf →
  well_formed (Playfield.set_content (mark colorChar (Playfield.playfieldContent pf) v) pf).
Proof.
  intros [Hh Hw]. split; simpl.
  - by rewrite mark_length.
  - by apply mark_wide.
Qed.

Lemma cell_occupied_marked colorChar vectors pf pf' (x y : Z) :
  well_formed pf →
  Forall (in_grid pf) vectors →
  Playfield.playfieldContent pf' = marked vectors colorChar (Playfield.playfieldContent pf) →
  cell_occupied pf' x y = bool_decide (Vector.mk x y ∈ vectors) || cell_occupied pf x y.
Proof.
  revert pf. induction vectors as [|v vectors IH]; intros pf Hwf Hin Hmarked.
  - unfold cell_occupied. simpl in Hmarked. by rewrite Hmarked.
  - apply Forall_cons in Hin as [Hv Hin].
    set (pf1 := Playfield.set_content (mark colorChar (Playfield.playfieldContent pf) v) pf).
    rewrite (IH pf1); [|by apply mark_well_formed|done|done].
    rewrite (cell_occupied_mark colorChar pf pf1 v) by done.
    rewrite orb_assoc. f_equal.
    apply eq_true_iff_eq. rewrite orb_true_iff, !bool_decide_eq_true, elem_of_cons.
    tauto.
Qed.

(** X8: when a lock inside the grid completes no row, the cells set in
    the grid afterwards are exactly the cells set before and the cells of
    the piece, and the score is what it was. *)
Theorem land_without_clear_adds_cells vectors colorChar pf :
  well_formed pf →
  Forall (in_grid pf) vectors →
  vectors ≠ [] →
  cleared_rows vectors colorChar pf = [] →
  ∃ pf', Playfield.land vectors colorChar pf = Ret pf' tt
         ∧ (∀ x y, cell_occupied pf' x y
                   = bool_decide (Vector.mk x y ∈ vectors) || cell_occupied pf x y)
         ∧ Playfield._score pf' = Playfield._score pf
         ∧ Playfield.size pf' = Playfield.size pf.
Proof.
  intros Hwf Hin Hne Hnone.
  rewrite land_inside_outcome; [|done|done|].
  2:{ destruct vectors as [|v vectors]; [done|].
      apply Forall_cons in Hin as [[_ Hy] _]. lia. }
  rewrite Hnone. unfold zoom. simpl.
  eexists. split; [reflexivity|]. simpl. split; [|split; [by destruct (Playfield._score pf)|done]].
  intros x y.
  apply (cell_occupied_marked (ColorChar.shift_to_gray colorChar) vectors pf); [done|done|].
  simpl. unfold lock_spec. rewrite Hnone. simpl.
  apply omit_from_none. intros i Hi.
  apply not_true_is_false. intros Hcleared.
  assert (i ∈ cleared_rows vectors colorChar pf) as Hi'.
  { apply cleared_rows_elem. split; [done|]. rewrite marked_length in Hi. lia. }
  rewrite Hnone in Hi'. by apply elem_of_nil in Hi'.
Qed.

Lemma land_without_clear_adds_cells_witness :
  let vectors := [Vector.mk 5 19; Vector.mk 6 19; Vector.mk 5 18; Vector.mk 6 18] in
  ∃ pf', Playfield.land vectors sample_char game_field = Ret pf' tt
         ∧ cell_occupied pf' 6 18 = true
         ∧ cell_occupied pf' 7 18 = false.
Proof.
  intros vectors.
  assert (well_formed game_field) as Hwf.
  { split; [reflexivity|]. repeat constructor. }
  assert (Forall (in_grid game_field) vectors) as Hin.
  { repeat constructor; vm_compute; (reflexivity || discriminate). }
  destruct (land_without_clear_adds_cells vectors sample_char game_field Hwf Hin)
    as (pf' & Hland & Hcells & _); [discriminate|reflexivity|].
  exists pf'. split; [exact Hland|]. rewrite !Hcells. split; reflexivity.
Defined.

End LandOutcome.

(** * Playfield: the dimensions under any returning [land] *)

Section LandDimensions.

Implicit Types (pf : Playfield.t) (rows : list Z).

#[local] Instance dimensions_kept_refl w : Reflexive (dimensions_kept w).
Proof. intros pf. by repeat split. Qed.

#[local] Instance dimensions_kept_trans w : Transitive (dimensions_kept w).
Proof.
  intros pf1 pf2 pf3 (Hs1 & Hl1 & Hw1) (Hs2 & Hl2 & Hw2).
  repeat split; [congruence|congruence|auto].
Qed.

Lemma py_getitem_lookup {A} (l : list A) (i : Z) (a : A) :
  py_getitem l i = Some a → ∃ n, py_index (length l) i = Some n ∧ l !! n = Some a.
Proof.
  unfold py_getitem. destruct (py_index (length l) i) as [n|]; [|discriminate].
  intros Hl. by exists n.
Qed.

Lemma set_cell_dimensions w x y colorChar :
  preserves (dimensions_kept w) (Playfield.set_cell x y colorChar).
Proof.
  intros pf. unfold Playfield.set_cell. unfold_monad.
  destruct (py_getitem (Playfield.playfieldContent pf) y) as [row|] eqn:Hrow; simpl;
    [|reflexivity].
  apply py_getitem_lookup in Hrow as (n & Hn & Hrow).
  destruct (py_setitem row x (Some colorChar)) as [row'|] eqn:Hrow'; simpl;
    [|reflexivity].
  assert (length row' = length row) as Hlen.
  { unfold py_setitem in Hrow'. destruct (py_index (length row) x); [|discriminate].
    injection Hrow' as <-. apply length_insert. }
  unfold py_setitem. rewrite Hn. simpl.
  split; [done|]. split; [apply length_insert|].
  intros Hwide. apply Forall_insert; [done|]. rewrite Hlen.
  by apply (proj1 (Forall_lookup _ _) Hwide _ _ Hrow).
Qed.

Lemma land_rows_dimensions w vectors colorChar :
  preserves (dimensions_kept w) (Playfield.land_rows vectors colorChar).
Proof.
  unfold Playfield.land_rows.
  apply preserves_bind; [apply _| |].
  - generalize (@nil Z). generalize (ColorChar.shift_to_gray colorChar). intros cc.
    induction vectors as [|v vectors IH]; intros rows; simpl.
    + apply preserves_ret, _.
    + apply preserves_bind; [apply _|apply set_cell_dimensions|intros _; apply IH].
  - intros rows pf. rewrite land_scan_reads. reflexivity.
Qed.

(** A pop loop that returns has taken out one row per index. *)
Lemma land_pop_returns w rows pf pf' :
  Playfield.land_pop rows pf = Ret pf' tt →
  Playfield.size pf' = Playfield.size pf
  ∧ (length (Playfield.playfieldContent pf') + length rows)%nat
    = length (Playfield.playfieldContent pf)
  ∧ (Forall (fun row => Z.of_nat (length row) = w) (Playfield.playfieldContent pf) →
     Forall (fun row => Z.of_nat (length row) = w) (Playfield.playfieldContent pf')).
Proof.
  revert pf. induction rows as [|r rows IH]; intros pf; simpl.
  - intros [= <-]. split; [done|]. split; [lia|done].
  - unfold bind at 1, get. unfold bind at 1, index_or_raise.
    unfold py_pop.
    destruct (py_index (length (Playfield.playfieldContent pf)) r) as [n|]; [|discriminate].
    destruct (Playfield.playfieldContent pf !! n) as [row|] eqn:Hrow; [|discriminate].
    unfold ret at 1. unfold bind at 1, put. simpl.
    intros Hpop. apply IH in Hpop as (Hs & Hl & Hw). simpl in *.
    rewrite length_delete in Hl by eauto.
    apply lookup_lt_Some in Hrow.
    split; [done|]. split; [lia|]. intros Hwide. by apply Hw, Forall_delete.
Qed.

Lemma land_returns_grid vectors colorChar pf pf' :
  well_formed pf →
  Playfield.land vectors colorChar pf = Ret pf' tt →
  well_formed pf' ∧ Playfield.size pf' = Playfield.size pf.
Proof.
  intros [Hh Hw] Hland.
  unfold Playfield.land in Hland.
  apply bind_returns in Hland as (pf1 & rows & Hrows & Hland).
  pose proof (land_rows_dimensions (Vector.x (Playfield.size pf)) vectors colorChar pf)
    as (Hs1 & Hl1 & Hw1).
  rewrite Hrows in Hs1, Hl1, Hw1. simpl in Hs1, Hl1, Hw1.
  unfold Playfield.land_compact in Hland.
  apply bind_returns in Hland as (pf2 & [] & Hpop & Hland).
  apply (land_pop_returns (Vector.x (Playfield.size pf))) in Hpop as (Hs2 & Hl2 & Hw2).
  rewrite length_rev in Hl2.
  apply bind_returns in Hland as (pf3 & [] & Hinsert & Hland).
  rewrite land_insert_spec in Hinsert. injection Hinsert as <-.
  match type of Hland with
  | bind _ _ ?s = _ =>
      destruct (land_finish_content (Z.of_nat (length rows)) s) as [Hc Hs]
  end.
  rewrite Hland in Hc, Hs. simpl in Hc, Hs.
  assert (Playfield.size pf' = Playfield.size pf) as Hsize by congruence.
  split; [|exact Hsize]. split.
  - rewrite Hsize, Hc, length_app, length_replicate. lia.
  - rewrite Hsize, Hc. apply Forall_app. split; [|auto].
    destruct rows as [|r rows]; [constructor|].
    apply Forall_replicate. unfold Playfield.empty_row. rewrite length_replicate.
    destruct (Playfield.playfieldContent pf) as [|row content] eqn:Hcontent.
    { simpl in *. lia. }
    apply Forall_cons in Hw as [Hrow _]. rewrite Hs2, Hs1. lia.
Qed.

(** X9: whatever the cells, a call of [land] that returns leaves a grid of
    the same size: as many rows as before, each as wide as before. *)
Theorem land_keeps_dimensions vectors colorChar pf pf' :
  well_formed pf →
  Playfield.land vectors colorChar pf = Ret pf' tt →
  well_formed pf' ∧ Playfield.size pf' = Playfield.size pf.
Proof. apply land_returns_grid. Qed.

Lemma land_keeps_dimensions_witness :
  ∃ pf', Playfield.land [Vector.mk 3 (-1); Vector.mk 3 0] sample_char stacked_field
         = Ret pf' tt
         ∧ well_formed pf'.
Proof.
  assert (well_formed stacked_field) as Hwf.
  { split; [reflexivity|]. repeat constructor. }
  assert (∃ pf', Playfield.land [Vector.mk 3 (-1); Vector.mk 3 0] sample_char stacked_field
                 = Ret pf' tt) as [pf' Hland] by (eexists; vm_compute; reflexivity).
  exists pf'. split; [exact Hland|].
  apply (land_keeps_dimensions _ _ _ _ Hwf Hland).
Defined.

End LandDimensions.

(** * Piece: what the commands keep *)

Section PieceInvariant.

Implicit Types (e : Tetromino.env) (blocks : list Vector.t).

Lemma passes_same_playfield e e' (x y : Z) :
  Tetromino._playfield e' = Tetromino._playfield e →
  passes e x y → passes e' x y.
Proof.
  unfold passes, Tetromino.cell_blocked. intros ->.
  destruct (_ || _); [discriminate|].
  destruct (Playfield.content_at _ _ _) as [c|]; [|discriminate].
  intros [= ->]. reflexivity.
Qed.

Lemma passes_in_columns e (x y : Z) :
  passes e x y → 0 ≤ x < Vector.x (Playfield.size (Tetromino._playfield e)).
Proof.
  unfold passes, Tetromino.cell_blocked.
  destruct (Vector.x _ <=? x) eqn:Hhigh; [discriminate|].
  destruct (x <? 0) eqn:Hlow; [discriminate|].
  intros _. apply Z.leb_gt in Hhigh. apply Z.ltb_ge in Hlow. lia.
Qed.

Lemma cell_blocked_returns e (x y : Z) e' (hit : bool) :
  Tetromino.cell_blocked x y e = Ret e' hit → e' = e.
Proof.
  intros Hc. pose proof (cell_blocked_reads x y e) as Hr. by rewrite Hc in Hr.
Qed.

Lemma move_loop_returns dx e e' blocks :
  Tetromino._move_horizontally_loop blocks dx e = Ret e' tt →
  e' = e
  ∨ (e' = moved dx e
     ∧ Forall (fun b => passes e (Vector.x b + dx) (Vector.y b)) blocks).
Proof.
  induction blocks as [|block blocks IH]; simpl.
  - intros [= <-]. right. split; [reflexivity|constructor].
  - unfold bind at 1.
    destruct (Tetromino.cell_blocked _ _ e) as [e1 hit|e1 ex] eqn:Hcell; [|discriminate].
    apply cell_blocked_returns in Hcell as Heq. subst e1.
    destruct hit.
    + intros [= <-]. by left.
    + intros Hloop. destruct (IH Hloop) as [->|[-> Hall]]; [by left|].
      right. split; [done|]. by constructor.
Qed.

Lemma rotate_loop_returns e e' blocks rotated :
  Tetromino._rotate_loop blocks rotated e = Ret e' tt →
  e' = e
  ∨ (e' = Tetromino.set_self (Tetromino.set_position rotated (Tetromino.self e)) e
     ∧ Forall (fun b => passes e (Vector.x b) (Vector.y b)) blocks).
Proof.
  induction blocks as [|block blocks IH]; simpl.
  - intros [= <-]. right. split; [reflexivity|constructor].
  - unfold bind at 1.
    destruct (Tetromino.cell_blocked _ _ e) as [e1 hit|e1 ex] eqn:Hcell; [|discriminate].
    apply cell_blocked_returns in Hcell as Heq. subst e1.
    destruct hit.
    + intros [= <-]. by left.
    + intros Hloop. destruct (IH Hloop) as [->|[-> Hall]]; [by left|].
      right. split; [done|]. by constructor.
Qed.

Lemma get_rotated90_length (vs : Vectors.t) :
  length (Vectors.get_rotated90_around_anchor vs) = length vs.
Proof.
  destruct vs as [|anchor vs]; [reflexivity|].
  rewrite get_rotated90_cons. simpl. by rewrite length_fmap.
Qed.

#[global] Instance same_setting_refl : Reflexive same_setting.
Proof. intros e. by repeat split. Qed.

#[global] Instance same_setting_trans : Transitive same_setting.
Proof.
  intros e1 e2 e3 (Hp1 & Hc1 & Hl1) (Hp2 & Hc2 & Hl2).
  repeat split; congruence.
Qed.

Lemma move_keeps dx e e' :
  Tetromino._move_horizontally dx e = Ret e' tt →
  same_setting e e' ∧ (clear_of e → clear_of e').
Proof.
  unfold Tetromino._move_horizontally, bind, get. intros Hmove.
  apply move_loop_returns in Hmove as [->|[-> Hall]]; [by split|].
  split.
  - unfold moved, Vectors.translate_all. repeat split; simpl. by rewrite length_fmap.
  - intros _. unfold clear_of, moved, Vectors.translate_all. simpl.
    apply Forall_fmap. eapply Forall_impl; [exact Hall|].
    intros b Hb. simpl. rewrite Z.add_0_r.
    by apply (passes_same_playfield e).
Qed.

Lemma rotate_keeps e e' :
  Tetromino._rotate e = Ret e' tt →
  same_setting e e' ∧ (clear_of e → clear_of e').
Proof.
  unfold Tetromino._rotate, bind, get. intros Hrotate.
  assert (e' = e
          ∨ (e' = turned e
             ∧ Forall (fun b => passes e (Vector.x b) (Vector.y b))
                      (Vectors.get_rotated90_around_anchor
                         (Tetromino._position (Tetromino.self e))))) as [->|[-> Hall]].
  { destruct (Tetromino.cls (Tetromino.self e));
      try (by apply rotate_loop_returns in Hrotate).
    injection Hrotate as <-. by left. }
  - by split.
  - split.
    + unfold turned. repeat split; simpl. apply get_rotated90_length.
    + intros _. unfold clear_of, turned. simpl.
      eapply Forall_impl; [exact Hall|]. intros b Hb.
      by apply (passes_same_playfield e).
Qed.

(** A gravity loop that returns without landing the piece found every
    cell free to go down. *)
Lemma gravity_loop_falls blocks e e' :
  Tetromino._do_gravity_loop blocks e = Ret e' tt →
  Tetromino.landed (Tetromino.self e') = false →
  e' = fallen e ∧ Forall (fun b => Tetromino.rests b e = Ret e false) blocks.
Proof.
  induction blocks as [|block blocks IH]; simpl.
  - intros [= <-] _. split; [reflexivity|constructor].
  - unfold bind at 1.
    destruct (Tetromino.rests block e) as [e1 hit|e1 ex] eqn:Hrests; [|discriminate].
    pose proof (rests_reads block e) as Hr. rewrite Hrests in Hr. simpl in Hr. subst e1.
    destruct hit.
    + unfold_monad. simpl. destruct (Playfield.land _ _ _); [|discriminate].
      intros [= <-]. discriminate.
    + intros Hloop Hfalling. destruct (IH Hloop Hfalling) as [-> Hall].
      split; [done|]. by constructor.
Qed.

Lemma rests_free_passes e block :
  Tetromino.rests block e = Ret e false →
  passes e (Vector.x block) (Vector.y block) →
  passes (fallen e) (Vector.x block) (Vector.y block + 1).
Proof.
  intros Hrests Hpass. apply passes_in_columns in Hpass as Hx.
  apply (passes_same_playfield e); [reflexivity|].
  unfold passes, Tetromino.cell_blocked.
  replace (Vector.x (Playfield.size (Tetromino._playfield e)) <=? Vector.x block)
    with false by (symmetry; apply Z.leb_gt; lia).
  replace (Vector.x block <? 0) with false by (symmetry; apply Z.ltb_ge; lia).
  simpl. unfold Tetromino.rests in Hrests.
  destruct (_ <=? _); [discriminate|].
  destruct (Playfield.content_at _ _ _) as [c|]; [|discriminate].
  by injection Hrests as ->.
Qed.

Lemma gravity_keeps e e' :
  Tetromino._do_gravity e = Ret e' tt →
  Tetromino.landed (Tetromino.self e') = false →
  same_setting e e' ∧ (clear_of e → clear_of e').
Proof.
  unfold Tetromino._do_gravity, bind, get.
  destruct (Tetromino.landed (Tetromino.self e)) eqn:Hlanded.
  { intros [= <-]. by split. }
  intros Hloop Hfalling. destruct (gravity_loop_falls _ _ _ Hloop Hfalling) as [-> Hall].
  split.
  - unfold fallen, Vectors.translate_all. repeat split; simpl. by rewrite length_fmap.
  - intros Hclear. unfold clear_of in *. unfold fallen at 2. simpl.
    unfold Vectors.translate_all. apply Forall_fmap.
    apply Forall_forall. intros b Hb. simpl. rewrite Z.add_0_r.
    apply rests_free_passes.
    + by apply (proj1 (Forall_forall _ _) Hall).
    + by apply (proj1 (Forall_forall _ _) Hclear).
Qed.

(** X10: a horizontal move, a rotation, or a gravity step that does not
    land the piece leaves the playfield untouched and the piece of the
    same kind with as many cells; and if every cell of the piece was in a
    column of the grid on an empty cell before, so it is after. *)
Theorem commands_keep_the_piece_clear e e' :
  (∀ dx, Tetromino._move_horizontally dx e = Ret e' tt →
         same_setting e e' ∧ (clear_of e → clear_of e'))
  ∧ (Tetromino._rotate e = Ret e' tt →
     same_setting e e' ∧ (clear_of e → clear_of e'))
  ∧ (Tetromino._do_gravity e = Ret e' tt →
     Tetromino.landed (Tetromino.self e') = false →
     same_setting e e' ∧ (clear_of e → clear_of e')).
Proof.
  split; [|split].
  - intros dx. apply move_keeps.
  - apply rotate_keeps.
  - apply gravity_keeps.
Qed.

End PieceInvariant.

Lemma commands_keep_the_piece_clear_witness :
  clear_of (fresh_J game_field)
  ∧ clear_of (moved 1 (fresh_J game_field))
  ∧ clear_of (fallen (fresh_J game_field)).
Proof.
  assert (clear_of (fresh_J game_field)) as Hclear.
  { repeat (apply Forall_cons; split; [reflexivity|]). apply Forall_nil_2. }
  destruct (commands_keep_the_piece_clear (fresh_J game_field) (moved 1 (fresh_J game_field)))
    as (Hmove & _ & _).
  destruct (commands_keep_the_piece_clear (fresh_J game_field) (fallen (fresh_J game_field)))
    as (_ & _ & Hfall).
  split; [exact Hclear|]. split.
  - apply (Hmove 1); [reflexivity|exact Hclear].
  - apply Hfall; [reflexivity|reflexivity|exact Hclear].
Defined.

Section ProcessInvariant.

Implicit Types (e : Tetromino.env) (ic : InputController.t).

Lemma tick_keeps fuel gravityDue dx (rotate drop : bool) e e' :
  tick fuel gravityDue dx rotate drop e = Some (Ret e' tt) →
  Tetromino.landed (Tetromino.self e') = false →
  same_setting e e' ∧ (clear_of e → clear_of e').
Proof.
  unfold tick. destruct (Tetromino.landed (Tetromino.self e)).
  { intros [= <-]. by split. }
  destruct (Tetromino._move_horizontally dx e) as [e1 []|e1 ex] eqn:Hmove; [|discriminate].
  apply move_keeps in Hmove as [Hs1 Hc1].
  assert (∀ e2, same_setting e1 e2 ∧ (clear_of e1 → clear_of e2) →
                (if drop then Tetromino._drop fuel e2
                 else if gravityDue then Some (Tetromino._do_gravity e2)
                      else Some (Ret e2 tt)) = Some (Ret e' tt) →
                Tetromino.landed (Tetromino.self e') = false →
                same_setting e e' ∧ (clear_of e → clear_of e')) as Hlast.
  { intros e2 [Hs2 Hc2] Hend Hfalling. destruct drop.
    - apply drop_as_gravity_steps in Hend as (n & _ & _ & _ & Hlanded).
      simpl in Hlanded. rewrite Hlanded in Hfalling; [discriminate|done].
    - destruct gravityDue.
      + injection Hend as Hend. apply gravity_keeps in Hend as [Hs3 Hc3]; [|done].
        split; [|auto]. etrans; [exact Hs1|]. etrans; [exact Hs2|exact Hs3].
      + injection Hend as <-. split; [|auto]. etrans; [exact Hs1|exact Hs2]. }
  destruct rotate.
  - destruct (Tetromino._rotate e1) as [e2 []|e2 ex] eqn:Hrotate; [|discriminate].
    apply rotate_keeps in Hrotate. by apply Hlast.
  - apply Hlast. by split.
Qed.

(** X11: when [process] returns and the piece is still falling, the
    playfield (grid, flag and score) is exactly what it was, the piece is
    of the same kind with as many cells, and if every cell of the piece
    was in a column of the grid on an empty cell before, so it is after:
    the grid changes only in a tick that lands the piece. *)
Theorem process_changes_grid_only_by_landing fuel gravityDue e ic f' :
  Tetromino.process fuel gravityDue (Tetromino.mkFrame e ic) = Some (Ret f' tt) →
  Tetromino.landed (Tetromino.self (Tetromino.this f')) = false →
  same_setting e (Tetromino.this f')
  ∧ (clear_of e → clear_of (Tetromino.this f')).
Proof.
  intros Hprocess Hfalling.
  pose proof (process_as_tick fuel gravityDue e ic) as Htick.
  rewrite Hprocess in Htick. simpl in Htick. symmetry in Htick.
  by apply tick_keeps in Htick.
Qed.

Lemma process_changes_grid_only_by_landing_witness :
  ∃ f', Tetromino.process 0 true
          (Tetromino.mkFrame (fresh_J game_field) (InputController.mk 0 1 1 0))
        = Some (Ret f' tt)
        ∧ Tetromino._playfield (Tetromino.this f') = game_field
        ∧ clear_of (Tetromino.this f').
Proof.
  assert (∃ f', Tetromino.process 0 true
                  (Tetromino.mkFrame (fresh_J game_field) (InputController.mk 0 1 1 0))
                = Some (Ret f' tt)
                ∧ Tetromino.landed (Tetromino.self (Tetromino.this f')) = false)
    as (f' & Hprocess & Hfalling) by (eexists; split; vm_compute; reflexivity).
  exists f'. split; [exact Hprocess|].
  destruct (process_changes_grid_only_by_landing _ _ _ _ _ Hprocess Hfalling)
    as [(Hplayfield & _) Hclear].
  split; [exact Hplayfield|]. apply Hclear.
  repeat (apply Forall_cons; split; [reflexivity|]). apply Forall_nil_2.
Defined.

End ProcessInvariant.

(** * Piece: a rotation that reaches below the bottom row *)

Section RotateRaises.

Implicit Types (e : Tetromino.env) (b : Vector.t).

Lemma rotate_loop_raises e (before after : list Vector.t) b rotated :
  Forall (fun c => passes e (Vector.x c) (Vector.y c)) before →
  Tetromino.cell_blocked (Vector.x b) (Vector.y b) e = Raise e IndexError →
  Tetromino._rotate_loop (before ++ b :: after) rotated e = Raise e IndexError.
Proof.
  intros Hbefore Hraise. induction Hbefore as [|c before Hc _ IH]; simpl.
  - unfold bind. by rewrite Hraise.
  - unfold bind at 1. by rewrite Hc.
Qed.

(** X12: [_rotate] has no test on [y]: when a cell of the rotated piece
    lies in a column of the grid but below the bottom row (or more than
    the height above the top), and the cells before it are accepted, the
    call raises [IndexError] instead of refusing the rotation; the piece
    and the playfield are left as they were. *)
Theorem rotate_below_the_floor_raises e (before after : list Vector.t) b :
  let pf := Tetromino._playfield e in
  let height := Z.of_nat (length (Playfield.playfieldContent pf)) in
  Tetromino.cls (Tetromino.self e) ≠ Tetromino.Tetromino_O →
  Vectors.get_rotated90_around_anchor (Tetromino._position (Tetromino.self e))
  = before ++ b :: after →
  Forall (fun c => passes e (Vector.x c) (Vector.y c)) before →
  0 ≤ Vector.x b < Vector.x (Playfield.size pf) →
  Vector.y b < - height ∨ height ≤ Vector.y b →
  Tetromino._rotate e = Raise e IndexError.
Proof.
  intros pf height Hcls Hrotated Hbefore Hx Hy.
  assert (Tetromino.cell_blocked (Vector.x b) (Vector.y b) e = Raise e IndexError)
    as Hraise.
  { unfold Tetromino.cell_blocked. fold pf.
    replace (Vector.x (Playfield.size pf) <=? Vector.x b) with false
      by (symmetry; apply Z.leb_gt; lia).
    replace (Vector.x b <? 0) with false by (symmetry; apply Z.ltb_ge; lia).
    simpl. unfold Playfield.content_at. by rewrite py_getitem_outside. }
  unfold Tetromino._rotate, bind, get. rewrite Hrotated.
  destruct (Tetromino.cls (Tetromino.self e)); try done;
    by apply rotate_loop_raises.
Qed.

Lemma rotate_below_the_floor_raises_witness :
  Tetromino._rotate lying_I = Raise lying_I IndexError.
Proof.
  apply (rotate_below_the_floor_raises lying_I [Vector.mk 5 19]
           [Vector.mk 5 20; Vector.mk 5 18] (Vector.mk 5 21)).
  - discriminate.
  - reflexivity.
  - repeat (apply Forall_cons; split; [reflexivity|]). apply Forall_nil_2.
  - vm_compute. split; [discriminate|reflexivity].
  - right. vm_compute. discriminate.
Defined.

End RotateRaises.

(** * Input controller *)

Section Input.

Implicit Types (ic : InputController.t) (k : InputController.key).

#[local] Instance key_eq_dec : EqDecision InputController.key.
Proof. solve_decision. Defined.

Lemma get_set_key k k' (v : Z) ic :
  InputController.get_key (InputController.set_key k' v ic) k
  = if decide (k = k') then v else InputController.get_key ic k.
Proof. destruct ic as [l r u d]. by destruct k, k'. Qed.

Lemma press_step_key (pressed : InputController.key → bool) ic k k' :
  InputController.get_key
    (if pressed k' && (InputController.get_key ic k' =? 0)
     then InputController.set_key k' 1 ic else ic) k
  = if decide (k = k')
    then (if pressed k && (InputController.get_key ic k =? 0)
          then 1 else InputController.get_key ic k)
    else InputController.get_key ic k.
Proof.
  destruct (decide (k = k')) as [->|Hne].
  - destruct (pressed k' && _); [|done]. rewrite get_set_key. by rewrite decide_True.
  - destruct (pressed k' && _); [|done]. rewrite get_set_key. by rewrite decide_False.
Qed.

Lemma release_step_key (pressed : InputController.key → bool) ic k k' :
  InputController.get_key
    (if negb (pressed k') && (InputController.get_key ic k' =? 2)
     then InputController.set_key k' 0 ic else ic) k
  = if decide (k = k')
    then (if negb (pressed k) && (InputController.get_key ic k =? 2)
          then 0 else InputController.get_key ic k)
    else InputController.get_key ic k.
Proof.
  destruct (decide (k = k')) as [->|Hne].
  - destruct (negb (pressed k') && _); [|done]. rewrite get_set_key. by rewrite decide_True.
  - destruct (negb (pressed k') && _); [|done]. rewrite get_set_key. by rewrite decide_False.
Qed.

Lemma update_key pressed1 pressed2 ic k :
  InputController.get_key (InputController.update pressed1 pressed2 ic) k
  = updated_state (pressed1 k) (pressed2 k) (InputController.get_key ic k).
Proof.
  unfold InputController.update, updated_state. cbn [foldl].
  rewrite !release_step_key, !press_step_key.
  destruct k; reflexivity.
Qed.

Lemma updated_state_valid (down1 down2 : bool) (s : Z) :
  0 ≤ s ≤ 2 → 0 ≤ updated_state down1 down2 s ≤ 2.
Proof.
  intros Hs. unfold updated_state.
  destruct down1, down2; simpl; repeat case_match; lia.
Qed.

Lemma update_valid pressed1 pressed2 ic :
  valid_keys ic → valid_keys (InputController.update pressed1 pressed2 ic).
Proof. intros Hvalid k. rewrite update_key. apply updated_state_valid, Hvalid. Qed.

(** X13: [update] treats each key on its own.  A key that is up and found
    pressed becomes pending (1); a pending key stays pending until it is
    taken, even if it was released meanwhile; a taken key (2) stays taken
    for as long as it is found pressed, and becomes up (0) again once it
    is found released; and the states stay among 0, 1 and 2. *)
Theorem update_detects_key_edges pressed1 pressed2 ic k :
  let before := InputController.get_key ic k in
  let after := InputController.get_key (InputController.update pressed1 pressed2 ic) k in
  after = updated_state (pressed1 k) (pressed2 k) before
  ∧ (before = 0 → pressed1 k = true → after = 1)
  ∧ (before = 0 → pressed1 k = false → after = 0)
  ∧ (before = 1 → after = 1)
  ∧ (before = 2 → pressed2 k = true → after = 2)
  ∧ (before = 2 → pressed2 k = false → after = 0)
  ∧ (valid_keys ic → valid_keys (InputController.update pressed1 pressed2 ic)).
Proof.
  cbv zeta. rewrite update_key.
  split; [reflexivity|].
  generalize (InputController.get_key ic k) as s. intros s.
  unfold updated_state.
  repeat (split;
          [intros; subst s; destruct (pressed1 k), (pressed2 k);
           first [discriminate|reflexivity]|]).
  apply update_valid.
Qed.

Lemma update_detects_key_edges_witness :
  let held := InputController.mk 0 0 2 0 in
  InputController.get_key (InputController.update all_down all_down held) InputController.Up = 2
  ∧ InputController.get_key (InputController.update all_up all_up held) InputController.Up = 0
  ∧ valid_keys (InputController.update all_down all_up held).
Proof.
  intros held.
  destruct (update_detects_key_edges all_down all_down held InputController.Up)
    as (_ & _ & _ & _ & Hheld & _).
  destruct (update_detects_key_edges all_up all_up held InputController.Up)
    as (_ & _ & _ & _ & _ & Hreleased & _).
  destruct (update_detects_key_edges all_down all_up held InputController.Up)
    as (_ & _ & _ & _ & _ & _ & Hvalid).
  split; [by apply Hheld|]. split; [by apply Hreleased|].
  apply Hvalid. intros []; simpl; lia.
Defined.

Lemma consumed_valid ic : valid_keys ic → valid_keys (consumed ic).
Proof.
  intros Hvalid k. destruct ic as [l r u d].
  pose proof (Hvalid InputController.Left). pose proof (Hvalid InputController.Right).
  pose proof (Hvalid InputController.Up). pose proof (Hvalid InputController.Down).
  destruct k; simpl in *; case_match; lia.
Qed.

(** X14: a pending command is handed out once.  [take_dx] answers -1, 0
    or 1 (0 when left and right are both pending), [take_up] and
    [take_down] answer whether their key is pending; each puts the keys it
    has read in the taken state, so that the same call made again right
    away answers 0 or [False] and changes nothing. *)
Theorem commands_are_taken_once ic :
  (∃ ic1, InputController.take_dx ic = Ret ic1 (requested_dx ic)
          ∧ -1 ≤ requested_dx ic ≤ 1
          ∧ (InputController.left ic = 1 → InputController.right ic = 1 →
             requested_dx ic = 0)
          ∧ InputController.take_dx ic1 = Ret ic1 0)
  ∧ (∃ ic1, InputController.take_up ic = Ret ic1 (rotate_requested ic)
            ∧ InputController.take_up ic1 = Ret ic1 false)
  ∧ (∃ ic1, InputController.take_down ic = Ret ic1 (drop_requested ic)
            ∧ InputController.take_down ic1 = Ret ic1 false).
Proof.
  destruct ic as [l r u d]. split; [|split].
  - eexists. split; [apply take_dx_spec|]. unfold requested_dx. simpl.
    split; [repeat case_match; lia|]. split.
    + intros -> ->. reflexivity.
    + rewrite take_dx_spec. unfold requested_dx. simpl.
      destruct (l =? 1) eqn:Hl; destruct (r =? 1) eqn:Hr; simpl;
        rewrite ?Hl, ?Hr; reflexivity.
  - eexists. split; [apply take_up_spec|]. rewrite take_up_spec.
    unfold rotate_requested. simpl.
    destruct (u =? 1) eqn:Hu; simpl; rewrite ?Hu; reflexivity.
  - eexists. split; [apply take_down_spec|]. rewrite take_down_spec.
    unfold drop_requested. simpl.
    destruct (d =? 1) eqn:Hd; simpl; rewrite ?Hd; reflexivity.
Qed.

Lemma commands_are_taken_once_witness :
  requested_dx (InputController.mk 1 1 0 0) = 0
  ∧ ∃ ic1, InputController.take_dx (InputController.mk 1 1 0 0) = Ret ic1 0
           ∧ InputController.take_dx ic1 = Ret ic1 0.
Proof.
  destruct (commands_are_taken_once (InputController.mk 1 1 0 0))
    as ((ic1 & Htake & _ & Hboth & Hagain) & _).
  split; [by apply Hboth|].
  exists ic1. split; [|exact Hagain]. rewrite Htake. reflexivity.
Defined.

End Input.

(** * Bag dispenser: what the bag holds *)

Section BagInvariant.

Variable playfield : Playfield.t.

Implicit Types (bag : SevenBag.t) (piece : Tetromino.t).

Lemma new_bag_pieces piece :
  piece ∈ SevenBag._bag (SevenBag._new_bag playfield) →
  piece = Tetromino.__init__ (Tetromino.cls piece) playfield.
Proof.
  unfold SevenBag._new_bag. cbn [SevenBag._bag]. intros Hin.
  apply list_elem_of_fmap in Hin as (k & -> & _). reflexivity.
Qed.

Lemma new_bag_NoDup : NoDup (SevenBag._bag (SevenBag._new_bag playfield)).
Proof.
  apply (NoDup_fmap_1 Tetromino.cls).
  unfold SevenBag._new_bag. simpl.
  apply NoDup_ListNoDup. repeat constructor; simpl; intuition discriminate.
Qed.

Lemma bag_ok_new : bag_ok playfield (SevenBag._new_bag playfield).
Proof. split; [discriminate|reflexivity]. Qed.

Lemma bag_ok_pieces bag piece :
  bag_ok playfield bag →
  piece ∈ SevenBag._bag bag →
  piece = Tetromino.__init__ (Tetromino.cls piece) playfield
  ∧ Tetromino.landed piece = false.
Proof.
  intros [_ Hsub] Hin.
  assert (piece = Tetromino.__init__ (Tetromino.cls piece) playfield) as Hpiece.
  { apply new_bag_pieces. by apply (sublist_subseteq _ _ Hsub). }
  split; [exact Hpiece|]. by rewrite Hpiece.
Qed.

Lemma get_tetromino_ok bag (i : Z) :
  bag_ok playfield bag →
  0 ≤ i < Z.of_nat (length (SevenBag._bag bag)) →
  ∃ piece bag',
    SevenBag.get_tetromino playfield i bag = Ret bag' piece
    ∧ bag_ok playfield bag'
    ∧ piece ∈ SevenBag._bag bag.
Proof.
  intros [Hne Hsub] Hi. destruct bag as [l]. simpl in *.
  destruct (get_tetromino_draw playfield l i Hi) as (piece & Hlook & Hdraw).
  exists piece. eexists. split; [exact Hdraw|]. split.
  - case_bool_decide as Hempty; [apply bag_ok_new|].
    split; [done|]. simpl. etrans; [apply sublist_delete|done].
  - by eapply list_elem_of_lookup_2.
Qed.

(** X15: the bag is never found empty and only ever hands out pieces as
    constructed.  A new bag is in order; a draw with an index
    [randrange] can answer returns a piece that was in the bag, not
    landed and exactly as its constructor made it, and leaves a bag in
    order, of at most seven pieces of different kinds.  An index outside
    the bag raises [IndexError], and an empty bag [ValueError], with the
    bag unchanged. *)
Theorem bag_stays_in_order :
  bag_ok playfield (SevenBag.__init__ playfield)
  ∧ (∀ bag, bag_ok playfield bag →
            (1 ≤ length (SevenBag._bag bag) ≤ 7)%nat
            ∧ NoDup (SevenBag._bag bag))
  ∧ (∀ bag (i : Z),
       bag_ok playfield bag →
       0 ≤ i < Z.of_nat (length (SevenBag._bag bag)) →
       ∃ piece bag',
         SevenBag.get_tetromino playfield i bag = Ret bag' piece
         ∧ bag_ok playfield bag'
         ∧ piece ∈ SevenBag._bag bag
         ∧ piece = Tetromino.__init__ (Tetromino.cls piece) playfield
         ∧ Tetromino.landed piece = false)
  ∧ (∀ bag (i : Z),
       SevenBag._bag bag ≠ [] →
       i < - Z.of_nat (length (SevenBag._bag bag))
       ∨ Z.of_nat (length (SevenBag._bag bag)) ≤ i →
       SevenBag.get_tetromino playfield i bag = Raise bag IndexError)
  ∧ (∀ i, SevenBag.get_tetromino playfield i (SevenBag.mk [])
          = Raise (SevenBag.mk []) ValueError).
Proof.
  split; [apply bag_ok_new|]. split; [|split; [|split]].
  - intros bag [Hne Hsub]. split.
    + apply sublist_length in Hsub. simpl in Hsub.
      destruct (SevenBag._bag bag); [done|]. simpl in *. lia.
    + eapply sublist_NoDup; [apply new_bag_NoDup|exact Hsub].
  - intros bag i Hok Hi.
    destruct (get_tetromino_ok bag i Hok Hi) as (piece & bag' & Hdraw & Hok' & Hin).
    exists piece, bag'. split; [done|]. split; [done|]. split; [done|].
    by apply (bag_ok_pieces bag).
  - intros [l] i Hne Hi. simpl in *.
    unfold SevenBag.get_tetromino. unfold_monad. simpl.
    rewrite bool_decide_eq_false_2 by done.
    unfold py_pop. by rewrite py_index_outside.
  - intros i. reflexivity.
Qed.

End BagInvariant.

Lemma bag_stays_in_order_witness :
  ∃ piece bag',
    SevenBag.get_tetromino game_field 6 (SevenBag.__init__ game_field) = Ret bag' piece
    ∧ bag_ok game_field bag'
    ∧ Tetromino.landed piece = false.
Proof.
  destruct (bag_stays_in_order game_field) as (Hnew & _ & Hdraw & _).
  destruct (Hdraw (SevenBag.__init__ game_field) 6 Hnew) as (piece & bag' & H1 & H2 & _ & _ & H3).
  { simpl. lia. }
  by exists piece, bag'.
Defined.

(** * The loop of [main] *)

Section MainLoop.

Implicit Types (e : Tetromino.env) (w : Main.world).

Lemma gravity_loop_outcome blocks e e' :
  Tetromino._do_gravity_loop blocks e = Ret e' tt →
  e' = fallen e
  ∨ ∃ pf', Playfield.land (Tetromino._position (Tetromino.self e))
                          (Tetromino.color_char (Tetromino.self e))
                          (Tetromino._playfield e) = Ret pf' tt
           ∧ e' = Tetromino.mkEnv (Tetromino.set_landed true (Tetromino.self e)) pf'.
Proof.
  induction blocks as [|block blocks IH]; simpl.
  - intros [= <-]. by left.
  - unfold bind at 1.
    destruct (Tetromino.rests block e) as [e1 hit|e1 ex] eqn:Hrests; [|discriminate].
    pose proof (rests_reads block e) as Hr. rewrite Hrests in Hr. simpl in Hr. subst e1.
    destruct hit; [|exact IH].
    unfold_monad. simpl.
    destruct (Playfield.land _ _ _) as [pf' []|pf' ex] eqn:Hland; [|discriminate].
    intros [= <-]. right. by exists pf'.
Qed.

Lemma gravity_returns_grid e e' :
  well_formed (Tetromino._playfield e) →
  Tetromino._do_gravity e = Ret e' tt →
  well_formed (Tetromino._playfield e')
  ∧ Playfield.size (Tetromino._playfield e') = Playfield.size (Tetromino._playfield e).
Proof.
  intros Hwf. unfold Tetromino._do_gravity, bind, get.
  destruct (Tetromino.landed (Tetromino.self e)); [by intros [= <-]|].
  intros Hloop. apply gravity_loop_outcome in Hloop as [->|(pf' & Hland & ->)]; [done|].
  simpl. by apply (land_returns_grid _ _ _ _ Hwf Hland).
Qed.

Lemma drop_returns_grid fuel e e' :
  well_formed (Tetromino._playfield e) →
  Tetromino._drop fuel e = Some (Ret e' tt) →
  well_formed (Tetromino._playfield e')
  ∧ Playfield.size (Tetromino._playfield e') = Playfield.size (Tetromino._playfield e).
Proof.
  revert e. induction fuel as [|fuel IH]; intros e Hwf; simpl.
  - destruct (Tetromino.landed _); [|discriminate]. by intros [= <-].
  - destruct (Tetromino.landed _); [by intros [= <-]|].
    destruct (Tetromino._do_gravity e) as [e1 []|e1 ex] eqn:Hg; [|discriminate].
    apply gravity_returns_grid in Hg as [Hwf1 Hs1]; [|done].
    intros Hdrop. apply IH in Hdrop as [Hwf' Hs']; [|done].
    split; [done|congruence].
Qed.

Lemma tick_end_returns_grid fuel (gravityDue drop : bool) e e' :
  well_formed (Tetromino._playfield e) →
  (if drop then Tetromino._drop fuel e
   else if gravityDue then Some (Tetromino._do_gravity e)
        else Some (Ret e tt)) = Some (Ret e' tt) →
  well_formed (Tetromino._playfield e')
  ∧ Playfield.size (Tetromino._playfield e') = Playfield.size (Tetromino._playfield e).
Proof.
  intros Hwf Hend. destruct drop.
  - by apply (drop_returns_grid fuel).
  - destruct gravityDue.
    + injection Hend as Hend. by apply gravity_returns_grid.
    + by injection Hend as <-.
Qed.

Lemma tick_returns_grid fuel gravityDue dx (rotate drop : bool) e e' :
  well_formed (Tetromino._playfield e) →
  tick fuel gravityDue dx rotate drop e = Some (Ret e' tt) →
  well_formed (Tetromino._playfield e')
  ∧ Playfield.size (Tetromino._playfield e') = Playfield.size (Tetromino._playfield e).
Proof.
  intros Hwf. unfold tick. destruct (Tetromino.landed (Tetromino.self e)).
  { by intros [= <-]. }
  destruct (Tetromino._move_horizontally dx e) as [e1 []|e1 ex] eqn:Hmove; [|discriminate].
  apply move_keeps in Hmove as [(Hp1 & _) _].
  destruct rotate.
  - destruct (Tetromino._rotate e1) as [e2 []|e2 ex] eqn:Hrotate; [|discriminate].
    apply rotate_keeps in Hrotate as [(Hp2 & _) _].
    intros Hend. apply tick_end_returns_grid in Hend; [|by rewrite Hp2, Hp1].
    by rewrite Hp2, Hp1 in Hend.
  - intros Hend. apply tick_end_returns_grid in Hend; [|by rewrite Hp1].
    by rewrite Hp1 in Hend.
Qed.

Lemma new_bag_same_size (pf pf' : Playfield.t) :
  Playfield.size pf' = Playfield.size pf →
  SevenBag._new_bag pf' = SevenBag._new_bag pf.
Proof.
  intros Hsize. unfold SevenBag._new_bag. f_equal.
  apply list_fmap_ext. intros _ k _. unfold Tetromino.__init__. by rewrite Hsize.
Qed.

Lemma get_tetromino_same_size (pf pf' : Playfield.t) (i : Z) (bag : SevenBag.t) :
  Playfield.size pf' = Playfield.size pf →
  SevenBag.get_tetromino pf' i bag = SevenBag.get_tetromino pf i bag.
Proof.
  intros Hsize. unfold SevenBag.get_tetromino. by rewrite (new_bag_same_size pf pf').
Qed.

Lemma bag_ok_same_size (pf pf' : Playfield.t) (bag : SevenBag.t) :
  Playfield.size pf' = Playfield.size pf → bag_ok pf bag → bag_ok pf' bag.
Proof. intros Hsize. unfold bag_ok. by rewrite (new_bag_same_size pf pf'). Qed.

(** One pass of the loop that returns, from a state in which the
    invariant holds. *)
Lemma iteration_keeps_invariant fuel gravity (rnd : Z) pressed1 pressed2 w w'
    (broke : bool) :
  loop_invariant w →
  0 ≤ rnd < Z.of_nat (length (SevenBag._bag (Main.bag w))) →
  Main.iteration fuel gravity rnd pressed1 pressed2 w = Some (Ret w' broke) →
  Playfield.size (Main.playfield w') = Playfield.size (Main.playfield w)
  ∧ well_formed (Main.playfield w')
  ∧ if broke
    then Tetromino.landed (Main.tetromino w') = true
         ∧ Playfield.topped_out (Main.playfield w') = true
    else loop_invariant w'.
Proof.
  destruct w as [[e ic] bag]. unfold loop_invariant, Main.playfield, Main.tetromino. simpl.
  intros (Hfalling & Hbag & Hwf & Hkeys) Hrnd. unfold Main.iteration. simpl.
  destruct (Tetromino.process fuel gravity (Tetromino.mkFrame e ic))
    as [[[e1 ic1] []|f ex]|] eqn:Hprocess; [|discriminate|discriminate].
  pose proof (process_as_tick fuel gravity e ic) as Htick.
  rewrite Hprocess in Htick. simpl in Htick. symmetry in Htick.
  apply tick_returns_grid in Htick as [Hwf1 Hsize1]; [|done].
  apply process_consumes in Hprocess as Hic1; [|done]. simpl in Hic1. subst ic1.
  unfold Main.tetromino, Main.playfield. simpl.
  destruct (Tetromino.landed (Tetromino.self e1)) eqn:Hlanded1.
  - destruct (Playfield.topped_out (Tetromino._playfield e1)) eqn:Htopped.
    + intros [= <- <-]. simpl. split; [done|]. split; [done|]. by split.
    + unfold zoom. simpl.
      rewrite (get_tetromino_same_size (Tetromino._playfield e)) by done.
      destruct (get_tetromino_ok (Tetromino._playfield e) bag rnd Hbag Hrnd)
        as (piece & bag' & Hdraw & Hbag' & Hin).
      rewrite Hdraw. simpl. intros [= <- <-]. simpl.
      split; [done|]. split; [done|].
      destruct (bag_ok_pieces _ _ _ Hbag Hin) as [_ Hfresh].
      split; [done|]. split; [by apply (bag_ok_same_size (Tetromino._playfield e))|].
      split; [done|]. by apply update_valid, consumed_valid.
  - intros [= <- <-]. simpl. split; [done|]. split; [done|].
    split; [done|]. split; [by apply (bag_ok_same_size (Tetromino._playfield e))|].
    split; [done|]. by apply update_valid, consumed_valid.
Qed.

(** X16: the state [main] starts its loop in satisfies the loop invariant
    (the piece is falling, the bag is in order, the playfield is a 10 x 20
    grid, the keys are in their states), and every pass of the loop that
    returns keeps the playfield a grid of the same size; it either keeps
    the invariant, or leaves the loop, which it does only with the piece
    landed and the playfield topped out. *)
Theorem main_loop_invariant :
  (∀ rnd, 0 ≤ rnd < 7 →
          ∃ bag w, Main.main rnd = Ret bag w
                   ∧ loop_invariant w
                   ∧ Playfield.size (Main.playfield w) = Vector.mk 10 20)
  ∧ (∀ fuel gravity (rnd : Z) pressed1 pressed2 w w' (broke : bool),
       loop_invariant w →
       0 ≤ rnd < Z.of_nat (length (SevenBag._bag (Main.bag w))) →
       Main.iteration fuel gravity rnd pressed1 pressed2 w = Some (Ret w' broke) →
       Playfield.size (Main.playfield w') = Playfield.size (Main.playfield w)
       ∧ well_formed (Main.playfield w')
       ∧ if broke
         then Tetromino.landed (Main.tetromino w') = true
              ∧ Playfield.topped_out (Main.playfield w') = true
         else loop_invariant w').
Proof.
  split; [|apply iteration_keeps_invariant].
  intros rnd Hrnd. unfold Main.main.
  set (pf := Playfield.__init__ Score.__init__ (Vector.mk 10 20)).
  destruct (get_tetromino_ok pf (SevenBag.__init__ pf) rnd (bag_ok_new pf) Hrnd)
    as (piece & bag' & Hdraw & Hbag' & Hin).
  rewrite Hdraw. exists bag'. eexists. split; [reflexivity|].
  split; [|reflexivity].
  unfold loop_invariant, Main.tetromino, Main.playfield. simpl.
  destruct (bag_ok_pieces pf _ _ (bag_ok_new pf) Hin) as [_ Hfresh].
  split; [done|]. split; [done|]. split.
  - apply init_well_formed; simpl; lia.
  - intros []; simpl; lia.
Qed.

Lemma main_loop_invariant_witness :
  (∃ bag w, Main.main 3 = Ret bag w ∧ loop_invariant w)
  ∧ ∃ w', Main.iteration 0 true 2 all_down all_up first_world = Some (Ret w' false)
          ∧ loop_invariant w'.
Proof.
  destruct main_loop_invariant as [Hstart Hpass].
  split.
  - destruct (Hstart 3) as (bag & w & Hmain & Hinv & _); [lia|]. by exists bag, w.
  - assert (loop_invariant first_world) as Hinv.
    { split; [reflexivity|]. split; [apply bag_ok_new|]. split.
      - apply init_well_formed; simpl; lia.
      - intros []; simpl; lia. }
    assert (∃ w', Main.iteration 0 true 2 all_down all_up first_world
                  = Some (Ret w' false)) as [w' Hiter]
      by (eexists; vm_compute; reflexivity).
    exists w'. split; [exact Hiter|].
    apply (Hpass 0%nat true 2 all_down all_up first_world w' false Hinv); [|exact Hiter].
    simpl. lia.
Defined.

End MainLoop.

(** * Piece: where a drop lands it *)

Section DropStraight.

Implicit Types (e : Tetromino.env).

Lemma shift_by_zero (vs : Vectors.t) :
  (fun v => Vector.add_xy v 0 (Z.of_nat 0)) <$> vs = vs.
Proof.
  rewrite <- (list_fmap_id vs) at 2. apply list_fmap_ext. intros _ [vx vy] _.
  unfold Vector.add_xy. simpl. f_equal; lia.
Qed.

Lemma shift_after_fall (m : nat) (vs : Vectors.t) :
  (fun v => Vector.add_xy v 0 (Z.of_nat m)) <$> Vectors.translate_all vs (Vector.mk 0 1)
  = (fun v => Vector.add_xy v 0 (Z.of_nat (S m))) <$> vs.
Proof.
  unfold Vectors.translate_all. rewrite <- list_fmap_compose.
  apply list_fmap_ext. intros _ [vx vy] _.
  unfold Vector.add_vector, Vector.add_xy. simpl. f_equal; lia.
Qed.

Lemma drop_lands_below fuel e e' :
  Tetromino.landed (Tetromino.self e) = false →
  Tetromino._drop fuel e = Some (Ret e' tt) →
  ∃ (m : nat) pf',
    let cells := (fun v => Vector.add_xy v 0 (Z.of_nat m))
                   <$> Tetromino._position (Tetromino.self e) in
    Playfield.land cells (Tetromino.color_char (Tetromino.self e)) (Tetromino._playfield e)
    = Ret pf' tt
    ∧ e' = Tetromino.mkEnv (Tetromino.mk (Tetromino.cls (Tetromino.self e)) cells true) pf'.
Proof.
  revert e. induction fuel as [|fuel IH]; intros e Hfalling; simpl; rewrite Hfalling;
    [discriminate|].
  destruct (Tetromino._do_gravity e) as [e1 []|e1 ex] eqn:Hg; [|discriminate].
  unfold Tetromino._do_gravity, bind, get in Hg. rewrite Hfalling in Hg.
  apply gravity_loop_outcome in Hg as [->|(pf' & Hland & ->)].
  - intros Hdrop. destruct (IH (fallen e) Hfalling Hdrop) as (m & pf' & Hland & ->).
    exists (S m), pf'. unfold fallen in Hland |- *. simpl in Hland |- *.
    rewrite shift_after_fall in Hland |- *. by split.
  - intros Hdrop. exists 0%nat, pf'. simpl. rewrite shift_by_zero.
    split; [exact Hland|].
    destruct fuel; simpl in Hdrop; injection Hdrop as <-;
      by destruct e as [[k position flag] pf].
Qed.

(** X17: a drop that returns has moved the piece straight down: its cells
    are the cells it had, all lowered by the same number of rows, the
    piece is landed, and the playfield is what [land] made of it with
    those cells. *)
Theorem drop_lands_straight_down fuel e e' :
  Tetromino.landed (Tetromino.self e) = false →
  Tetromino._drop fuel e = Some (Ret e' tt) →
  ∃ (m : nat) pf',
    let cells := (fun v => Vector.add_xy v 0 (Z.of_nat m))
                   <$> Tetromino._position (Tetromino.self e) in
    Playfield.land cells (Tetromino.color_char (Tetromino.self e)) (Tetromino._playfield e)
    = Ret pf' tt
    ∧ e' = Tetromino.mkEnv (Tetromino.mk (Tetromino.cls (Tetromino.self e)) cells true) pf'.
Proof. apply drop_lands_below. Qed.

Lemma drop_lands_straight_down_witness :
  ∃ e', Tetromino._drop 25 (fresh_J game_field) = Some (Ret e' tt)
        ∧ Tetromino._position (Tetromino.self e')
          = [Vector.mk 5 18; Vector.mk 4 18; Vector.mk 6 18; Vector.mk 6 19]
        ∧ Tetromino.landed (Tetromino.self e') = true.
Proof.
  assert (∃ e', Tetromino._drop 25 (fresh_J game_field) = Some (Ret e' tt)
                ∧ Tetromino._position (Tetromino.self e')
                  = [Vector.mk 5 18; Vector.mk 4 18; Vector.mk 6 18; Vector.mk 6 19])
    as (e' & Hdrop & Hcells) by (eexists; split; vm_compute; reflexivity).
  destruct (drop_lands_straight_down 25 (fresh_J game_field) e' eq_refl Hdrop)
    as (m & pf' & _ & Heq).
  exists e'. split; [exact Hdrop|]. split; [exact Hcells|]. by rewrite Heq.
Defined.

End DropStraight.

(** * Colours *)

Section Colours.

Lemma shifted_component (c shift : Z) :
  0 ≤ c ≤ 255 → 0 ≤ shift ≤ 255 →
  0 ≤ Z.quot (c + shift) 2 ≤ 255
  ∧ Z.min c shift ≤ Z.quot (c + shift) 2 ≤ Z.max c shift.
Proof.
  intros Hc Hs. rewrite Z.quot_div_nonneg by lia.
  pose proof (Z.div_mod (c + shift) 2). pose proof (Z.mod_pos_bound (c + shift) 2). lia.
Qed.

(** X18: [shift_to_gray] keeps a colour a colour: components between 0
    and 255 stay between 0 and 255.  Each component ends between its old
    value and the gray the colour is moved towards (the mean of the
    components plus 25, at most 255), and the character of a [ColorChar]
    is kept. *)
Theorem shift_to_gray_stays_in_gamut (c : Color.t) :
  in_gamut c →
  let c' := Color.shift_to_gray c in
  in_gamut c'
  ∧ Z.min (Color.r c) (gray_target c) ≤ Color.r c' ≤ Z.max (Color.r c) (gray_target c)
  ∧ Z.min (Color.g c) (gray_target c) ≤ Color.g c' ≤ Z.max (Color.g c) (gray_target c)
  ∧ Z.min (Color.b c) (gray_target c) ≤ Color.b c' ≤ Z.max (Color.b c) (gray_target c)
  ∧ ∀ char bg, ColorChar.char (ColorChar.shift_to_gray (ColorChar.mk char c bg)) = char.
Proof.
  intros (Hr & Hg & Hb) c'. unfold c', Color.shift_to_gray, in_gamut. simpl.
  rewrite (Z.quot_div_nonneg (Color.r c + Color.g c + Color.b c) 3) by lia.
  fold (gray_target c).
  assert (0 ≤ gray_target c ≤ 255) as Hshift.
  { unfold gray_target.
    pose proof (Z.div_mod (Color.r c + Color.g c + Color.b c) 3).
    pose proof (Z.mod_pos_bound (Color.r c + Color.g c + Color.b c) 3). lia. }
  pose proof (shifted_component (Color.r c) (gray_target c) Hr Hshift).
  pose proof (shifted_component (Color.g c) (gray_target c) Hg Hshift).
  pose proof (shifted_component (Color.b c) (gray_target c) Hb Hshift).
  repeat split; try tauto.
Qed.

Lemma shift_to_gray_stays_in_gamut_witness :
  in_gamut (Color.shift_to_gray (Color.mk 173 216 230))
  ∧ Color.shift_to_gray (Color.mk 173 216 230) = Color.mk 202 223 230.
Proof.
  split; [|reflexivity].
  apply (shift_to_gray_stays_in_gamut (Color.mk 173 216 230)).
  repeat split; simpl; lia.
Defined.

End Colours.

(** * The screen *)

Section ScreenBuffer.

Implicit Types (s : Screen.t) (v : Vector.t) (cc : ColorChar.t).

Lemma set_color_char_on_screen s v cc :
  screen_ok s → on_screen s v →
  Screen.set_color_char v cc s
  = Ret (Screen.mk (Screen.size s) (mark cc (Screen._backbuffer s) v)) tt.
Proof.
  intros [Hh Hw] [Hx Hy]. unfold Screen.set_color_char. unfold_monad.
  rewrite py_getitem_nonneg by lia.
  destruct (lookup_lt_is_Some_2 (Screen._backbuffer s) (Z.to_nat (Vector.y v)))
    as [line Hline]; [lia|].
  rewrite Hline.
  pose proof (proj1 (Forall_lookup _ _) Hw _ _ Hline) as Hlen. simpl in Hlen.
  rewrite py_setitem_nonneg by lia.
  rewrite py_setitem_nonneg by lia.
  unfold mark.
  by rewrite (insert_as_alter (fun row => <[Z.to_nat (Vector.x v) := Some cc]> row)
                _ _ line Hline).
Qed.

Lemma set_color_char_off_screen s v cc :
  screen_ok s →
  Vector.y v < - Vector.y (Screen.size s) ∨ Vector.y (Screen.size s) ≤ Vector.y v
  ∨ Vector.x v < - Vector.x (Screen.size s) ∨ Vector.x (Screen.size s) ≤ Vector.x v →
  Screen.set_color_char v cc s = Raise s IndexError.
Proof.
  intros [Hh Hw] Hout. unfold Screen.set_color_char. unfold_monad.
  destruct (py_getitem (Screen._backbuffer s) (Vector.y v)) as [line|] eqn:Hget; [|done].
  apply py_getitem_lookup in Hget as (n & Hn & Hline).
  pose proof (proj1 (Forall_lookup _ _) Hw _ _ Hline) as Hlen. simpl in Hlen.
  destruct Hout as [Hy|[Hy|Hx]].
  - rewrite py_index_outside in Hn by lia. discriminate.
  - rewrite py_index_outside in Hn by lia. discriminate.
  - unfold py_setitem at 1. rewrite py_index_outside by lia. done.
Qed.

Lemma mark_screen_ok s v cc :
  screen_ok s → screen_ok (Screen.mk (Screen.size s) (mark cc (Screen._backbuffer s) v)).
Proof.
  intros [Hh Hw]. split; simpl.
  - by rewrite mark_length.
  - by apply mark_wide.
Qed.

Lemma shown_mark s v cc (x y : Z) :
  screen_ok s → on_screen s v →
  shown (Screen.mk (Screen.size s) (mark cc (Screen._backbuffer s) v)) x y
  = if decide (Vector.mk x y = v) then Some cc else shown s x y.
Proof.
  intros [Hh Hw] [Hvx Hvy]. unfold shown, mark. simpl.
  destruct v as [vx vy]. simpl in *.
  destruct (0 <=? x) eqn:Hx; simpl.
  2:{ apply Z.leb_gt in Hx. rewrite decide_False; [done|]. intros [= -> _]. lia. }
  destruct (0 <=? y) eqn:Hy; simpl.
  2:{ apply Z.leb_gt in Hy. rewrite decide_False; [done|]. intros [= _ ->]. lia. }
  apply Z.leb_le in Hx, Hy.
  destruct (lookup_lt_is_Some_2 (Screen._backbuffer s) (Z.to_nat vy))
    as [line Hline]; [lia|].
  pose proof (proj1 (Forall_lookup _ _) Hw _ _ Hline) as Hwidth. simpl in Hwidth.
  unfold Screen.pixel, Playfield.cell in *.
  destruct (decide (y = vy)) as [->|Hrowne].
  - rewrite list_lookup_alter_eq, Hline. simpl.
    destruct (decide (x = vx)) as [->|Hcolne].
    + rewrite list_lookup_insert_eq by lia. by rewrite decide_True.
    + rewrite list_lookup_insert_ne by lia.
      rewrite decide_False; [done|]. intros [= ->]. done.
  - rewrite list_lookup_alter_ne by lia.
    rewrite decide_False; [done|]. intros [= _ ->]. done.
Qed.

(** X19: on a screen whose buffer has the lines and columns its size
    says, [set_color_char] at a position on the screen writes that
    position and no other and keeps the buffer's dimensions; at a
    position that is off the screen even counted from the end it raises
    [IndexError] and writes nothing. *)
Theorem set_color_char_writes_one_position s v cc :
  screen_ok s →
  (on_screen s v →
   ∃ s', Screen.set_color_char v cc s = Ret s' tt
         ∧ screen_ok s'
         ∧ Screen.size s' = Screen.size s
         ∧ ∀ x y, shown s' x y = if decide (Vector.mk x y = v) then Some cc else shown s x y)
  ∧ (Vector.y v < - Vector.y (Screen.size s) ∨ Vector.y (Screen.size s) ≤ Vector.y v
     ∨ Vector.x v < - Vector.x (Screen.size s) ∨ Vector.x (Screen.size s) ≤ Vector.x v →
     Screen.set_color_char v cc s = Raise s IndexError).
Proof.
  intros Hok. split.
  - intros Hon. eexists. split; [by apply set_color_char_on_screen|].
    split; [by apply mark_screen_ok|]. split; [done|].
    intros x y. by apply shown_mark.
  - by apply set_color_char_off_screen.
Qed.

Lemma set_color_char_writes_one_position_witness :
  ∃ s', Screen.set_color_char (Vector.mk 79 22) sample_char game_screen = Ret s' tt
        ∧ shown s' 79 22 = Some sample_char
        ∧ Screen.set_color_char (Vector.mk 80 22) sample_char game_screen
          = Raise game_screen IndexError.
Proof.
  assert (screen_ok game_screen) as Hok.
  { split; [reflexivity|]. repeat constructor. }
  destruct (set_color_char_writes_one_position game_screen (Vector.mk 79 22) sample_char Hok)
    as [Hin _].
  destruct (set_color_char_writes_one_position game_screen (Vector.mk 80 22) sample_char Hok)
    as [_ Hout].
  destruct Hin as (s' & Hset & _ & _ & Hshown).
  { split; simpl; lia. }
  exists s'. split; [exact Hset|]. split.
  - rewrite Hshown. by rewrite decide_True.
  - apply Hout. simpl. lia.
Defined.

Lemma replicate_fmap_const {A B} (b : B) (l : list A) :
  (fun _ => b) <$> l = replicate (length l) b.
Proof. induction l as [|a l IH]; [done|]. cbn. f_equal. exact IH. Qed.

Lemma shown_new_screen (w h x y : Z) : shown (Screen.__init__ w h) x y = None.
Proof.
  unfold shown, Screen.__init__. simpl.
  destruct ((0 <=? x) && (0 <=? y)); [|done].
  destruct (replicate _ _ !! Z.to_nat y) as [line|] eqn:Hline; [|done].
  apply lookup_replicate in Hline as [-> _].
  destruct (replicate _ _ !! Z.to_nat x) as [p|] eqn:Hp; [|done].
  by apply lookup_replicate in Hp as [-> _].
Qed.

(** X20: on a screen whose buffer has the lines and columns its size
    says, [clear] returns and leaves the screen as [__init__] made it for
    a terminal of that size: the same dimensions and the mask at every
    position. *)
Theorem clear_gives_a_new_screen s :
  screen_ok s →
  Screen.clear s
  = Ret (Screen.__init__ (Vector.x (Screen.size s)) (Vector.y (Screen.size s) + 1)) tt
  ∧ screen_ok (Screen.__init__ (Vector.x (Screen.size s)) (Vector.y (Screen.size s) + 1))
  ∧ ∀ x y,
      shown (Screen.__init__ (Vector.x (Screen.size s)) (Vector.y (Screen.size s) + 1)) x y
      = None.
Proof.
  intros [Hh Hw].
  assert (0 ≤ Vector.y (Screen.size s)) as Hy by lia.
  destruct s as [[w h] buffer]. simpl in *.
  assert (buffer = [] ∨ 0 ≤ w) as Hwidth.
  { destruct buffer as [|line buffer]; [by left|right].
    apply Forall_cons in Hw as [Hline _]. lia. }
  split; [|split].
  - unfold Screen.clear, Screen.__init__. unfold_monad. simpl.
    replace (h + 1 - 1) with h by lia. do 2 f_equal.
    rewrite <- Hh, Nat2Z.id.
    clear Hh Hy Hwidth. induction buffer as [|line buffer IH]; [done|].
    apply Forall_cons in Hw as [Hline Hw]. cbn. f_equal; [|by apply IH].
    rewrite replicate_fmap_const. f_equal. lia.
  - unfold screen_ok, Screen.__init__. simpl. rewrite length_replicate. split; [lia|].
    destruct Hwidth as [->|Hwidth].
    + simpl in Hh. replace (h + 1 - 1) with 0 by lia. constructor.
    + apply Forall_replicate. rewrite length_replicate. lia.
  - intros x y. apply shown_new_screen.
Qed.

Lemma clear_gives_a_new_screen_witness :
  Screen.clear (Screen.mk (Vector.mk 2 1) [[Some sample_char; None]])
  = Ret (Screen.mk (Vector.mk 2 1) [[None; None]]) tt.
Proof.
  assert (screen_ok (Screen.mk (Vector.mk 2 1) [[Some sample_char; None]])) as Hok.
  { split; [reflexivity|]. repeat constructor. }
  destruct (clear_gives_a_new_screen _ Hok) as (Hclear & _ & _).
  exact Hclear.
Defined.

(** The character [set_char] writes: white on black. *)
Lemma set_string_loop_writes s (location : Vector.t) (chars : list ascii) (index : Z) :
  screen_ok s →
  0 ≤ Vector.x location →
  0 ≤ Vector.y location < Vector.y (Screen.size s) →
  0 ≤ index →
  Vector.x location + index ≤ Vector.x (Screen.size s) →
  ∃ s',
    Screen.set_string_loop location index chars s
    = (if decide (Vector.x location + index + Z.of_nat (length chars)
                  ≤ Vector.x (Screen.size s))
       then Ret s' tt else Raise s' IndexError)
    ∧ screen_ok s'
    ∧ Screen.size s' = Screen.size s
    ∧ ∀ x y,
        shown s' x y
        = if decide (y = Vector.y location
                     ∧ Vector.x location + index ≤ x < Vector.x (Screen.size s))
          then match chars !! Z.to_nat (x - Vector.x location - index) with
               | Some char =>
                   Some (ColorChar.mk char (Color.mk 255 255 255) (Color.mk 0 0 0))
               | None => shown s x y
               end
          else shown s x y.
Proof.
  revert s index. induction chars as [|char chars IH]; intros s index Hok Hlx Hly Hindex Hfit.
  - exists s. simpl. rewrite decide_True by lia.
    split; [done|]. split; [done|]. split; [done|].
    intros x y. by destruct (decide _).
  - simpl. unfold bind, Screen.set_char.
    destruct (decide (Vector.x location + index = Vector.x (Screen.size s))) as [Hend|Hroom].
    + rewrite set_color_char_off_screen; [|done|simpl; lia].
      exists s. rewrite decide_False by lia.
      split; [done|]. split; [done|]. split; [done|].
      intros x y. rewrite decide_False; [done|lia].
    + assert (on_screen s (Vector.add_x location index)) as Hon.
      { split; simpl; lia. }
      rewrite set_color_char_on_screen by done.
      set (white := ColorChar.mk char (Color.mk 255 255 255) (Color.mk 0 0 0)).
      set (s1 := Screen.mk (Screen.size s)
                   (mark white (Screen._backbuffer s) (Vector.add_x location index))).
      destruct (IH s1 (index + 1)) as (s' & Hloop & Hok' & Hsize & Hshown);
        [by apply mark_screen_ok|done|done|lia|simpl; lia|].
      exists s'. simpl in Hloop, Hsize, Hshown. rewrite Hloop.
      split.
      { destruct (decide _), (decide _); first [done|lia]. }
      split; [done|]. split; [done|].
      intros x y. rewrite Hshown. unfold s1. rewrite shown_mark by done. simpl.
      destruct (decide (x = Vector.x location + index ∧ y = Vector.y location))
        as [[-> ->]|Hother].
      * rewrite decide_False by lia.
        rewrite decide_True by (unfold Vector.add_x, Vector.add_xy; f_equal; lia).
        rewrite decide_True by lia.
        replace (Vector.x location + index - Vector.x location - index) with 0 by lia.
        done.
      * rewrite (decide_False (P := Vector.mk x y = _)).
        2:{ unfold Vector.add_x, Vector.add_xy. intros [= -> ->]. apply Hother. split; lia. }
        destruct (decide (y = Vector.y location
                          ∧ Vector.x location + (index + 1) ≤ x < Vector.x (Screen.size s)))
          as [[-> Hx]|Hout].
        -- rewrite decide_True by lia.
           replace (Z.to_nat (x - Vector.x location - index))
             with (S (Z.to_nat (x - Vector.x location - (index + 1)))) by lia.
           done.
        -- destruct (decide (y = Vector.y location
                             ∧ Vector.x location + index ≤ x < Vector.x (Screen.size s)))
             as [[-> Hx]|Hout']; [|done].
           exfalso. apply Hout. split; [done|].
           assert (x ≠ Vector.x location + index) by (intros ->; by apply Hother).
           lia.
Qed.

(** X21: [set_string] at a position on the screen writes the characters
    of the string, white on black, from that position rightwards on its
    line, and nothing else.  A string that does not fit before the end of
    the line is cut there: the characters that fit have been written when
    the call raises [IndexError]. *)
Theorem set_string_writes_until_the_line_ends s (location : Vector.t) (string : list ascii) :
  screen_ok s →
  on_screen s location →
  ∃ s',
    Screen.set_string location string s
    = (if decide (Vector.x location + Z.of_nat (length string) ≤ Vector.x (Screen.size s))
       then Ret s' tt else Raise s' IndexError)
    ∧ screen_ok s'
    ∧ Screen.size s' = Screen.size s
    ∧ ∀ x y,
        shown s' x y
        = if decide (y = Vector.y location
                     ∧ Vector.x location ≤ x < Vector.x (Screen.size s))
          then match string !! Z.to_nat (x - Vector.x location) with
               | Some char =>
                   Some (ColorChar.mk char (Color.mk 255 255 255) (Color.mk 0 0 0))
               | None => shown s x y
               end
          else shown s x y.
Proof.
  intros Hok [Hx Hy].
  destruct (set_string_loop_writes s location string 0) as (s' & Hloop & Hok' & Hsize & Hshown);
    [done|lia|done|lia|lia|].
  exists s'. unfold Screen.set_string. rewrite Hloop.
  replace (Vector.x location + 0) with (Vector.x location) in * by lia.
  split; [done|]. split; [done|]. split; [done|].
  intros x y. rewrite Hshown.
  by replace (x - Vector.x location - 0) with (x - Vector.x location) by lia.
Qed.

Lemma set_string_writes_until_the_line_ends_witness :
  ∃ s', Screen.set_string (Vector.mk 78 10) ["O"; "v"; "e"; "r"]%char game_screen
        = Raise s' IndexError
        ∧ shown s' 78 10 = Some (ColorChar.mk "O" (Color.mk 255 255 255) (Color.mk 0 0 0))
        ∧ shown s' 79 10 = Some (ColorChar.mk "v" (Color.mk 255 255 255) (Color.mk 0 0 0)).
Proof.
  assert (screen_ok game_screen) as Hok.
  { split; [reflexivity|]. repeat constructor. }
  destruct (set_string_writes_until_the_line_ends game_screen (Vector.mk 78 10)
              ["O"; "v"; "e"; "r"]%char Hok)
    as (s' & Hset & _ & _ & Hshown).
  { split; simpl; lia. }
  exists s'. split; [exact Hset|].
  split; rewrite Hshown; reflexivity.
Defined.

Lemma set_each_app (locations more : list Vector.t) cc s :
  ScaledScreenAdapter.set_each (locations ++ more) cc s
  = (ScaledScreenAdapter.set_each locations cc ;;; ScaledScreenAdapter.set_each more cc) s.
Proof.
  revert s. induction locations as [|v locations IH]; intros s; [done|].
  simpl. unfold bind.
  destruct (Screen.set_color_char v cc s) as [s1 []|s1 e]; [|done].
  rewrite IH. reflexivity.
Qed.

Lemma adapter_writes_footprint (adapter : ScaledScreenAdapter.t) v cc s :
  ScaledScreenAdapter.set_color_char adapter v cc s
  = ScaledScreenAdapter.set_each (footprint adapter v) cc s.
Proof.
  unfold ScaledScreenAdapter.set_color_char, footprint. cbv zeta. simpl.
  unfold bind at 1 3.
  destruct (Screen.set_color_char _ cc s) as [s1 []|s1 e]; [|done].
  by rewrite set_each_app.
Qed.

Lemma draw_vectors_writes_positions (view : Drawing.view) (vectors : list Vector.t) cc s :
  Drawing.draw_vectors view vectors cc s
  = ScaledScreenAdapter.set_each (drawn_positions view vectors) cc s.
Proof.
  revert s. induction vectors as [|v vectors IH]; intros s; [done|].
  change (drawn_positions view (v :: vectors))
    with (footprint (Drawing._screen view)
            (Vector.add_xy (Vector.add_vector (Drawing._location view) v) 1 1)
          ++ drawn_positions view vectors).
  rewrite set_each_app. cbn [Drawing.draw_vectors].
  unfold bind, Drawing.draw_vector. rewrite adapter_writes_footprint.
  destruct (ScaledScreenAdapter.set_each _ cc s) as [s1 []|s1 e]; [|done].
  apply IH.
Qed.

Lemma set_each_on_screen (locations : list Vector.t) cc s :
  screen_ok s →
  Forall (on_screen s) locations →
  ∃ s', ScaledScreenAdapter.set_each locations cc s = Ret s' tt
        ∧ screen_ok s'
        ∧ Screen.size s' = Screen.size s
        ∧ ∀ x y, shown s' x y
                 = if decide (Vector.mk x y ∈ locations) then Some cc else shown s x y.
Proof.
  revert s. induction locations as [|v locations IH]; intros s Hok Hon.
  - exists s. split; [done|]. split; [done|]. split; [done|].
    intros x y. rewrite decide_False; [done|]. apply not_elem_of_nil.
  - apply Forall_cons in Hon as [Hv Hon]. simpl. unfold bind.
    rewrite set_color_char_on_screen by done.
    destruct (IH (Screen.mk (Screen.size s) (mark cc (Screen._backbuffer s) v)))
      as (s' & Hset & Hok' & Hsize & Hshown); [by apply mark_screen_ok|done|].
    exists s'. split; [done|]. split; [done|]. split; [done|].
    intros x y. rewrite Hshown, shown_mark by done.
    destruct (decide (Vector.mk x y ∈ locations)) as [Hin|Hnotin].
    + rewrite decide_True; [done|]. by apply list_elem_of_further.
    + destruct (decide (Vector.mk x y = v)) as [<-|Hne].
      * rewrite decide_True; [done|]. apply list_elem_of_here.
      * rewrite decide_False; [done|]. rewrite elem_of_cons. tauto.
Qed.

Lemma elem_of_footprint (adapter : ScaledScreenAdapter.t) v (x y : Z) :
  Vector.mk x y ∈ footprint adapter v
  ↔ (x = Vector.x v * ScaledScreenAdapter._xScale adapter
     ∧ y = Vector.y v * ScaledScreenAdapter._yScale adapter)
    ∨ (y = Vector.y v * ScaledScreenAdapter._yScale adapter
       ∧ Vector.x v * ScaledScreenAdapter._xScale adapter < x
         < Vector.x v * ScaledScreenAdapter._xScale adapter
           + ScaledScreenAdapter._xScale adapter)
    ∨ (x = Vector.x v * ScaledScreenAdapter._xScale adapter
       ∧ Vector.y v * ScaledScreenAdapter._yScale adapter < y
         < Vector.y v * ScaledScreenAdapter._yScale adapter
           + ScaledScreenAdapter._yScale adapter).
Proof.
  unfold footprint, ScaledScreenAdapter.range_from_1. cbv zeta.
  rewrite elem_of_cons, elem_of_app, !list_elem_of_fmap.
  unfold Vector.scale, Vector.add_x, Vector.add_y, Vector.add_xy. simpl.
  split.
  - intros [[= -> ->]|[(d & [= -> ->] & Hd)|(d & [= -> ->] & Hd)]].
    + by left.
    + apply elem_of_seqZ in Hd. right; left. lia.
    + apply elem_of_seqZ in Hd. right; right. lia.
  - intros [[-> ->]|[[-> Hx]|[-> Hy]]].
    + by left.
    + right; left. exists (x - Vector.x v * ScaledScreenAdapter._xScale adapter).
      split; [f_equal; lia|]. apply elem_of_seqZ. lia.
    + right; right. exists (y - Vector.y v * ScaledScreenAdapter._yScale adapter).
      split; [f_equal; lia|]. apply elem_of_seqZ. lia.
Qed.

(** X22: one call of the adapter's [set_color_char] writes the scaled
    location, the positions to its right up to the horizontal factor and
    the positions below it up to the vertical factor, so the corner, the
    top edge and the left edge of the scaled cell and not its inside.
    When these positions are on the screen the call returns, they hold
    the [ColorChar] afterwards and every other position is as before. *)
Theorem adapter_writes_a_row_and_a_column (adapter : ScaledScreenAdapter.t) v cc s :
  screen_ok s →
  Forall (on_screen s) (footprint adapter v) →
  (∀ x y,
     Vector.mk x y ∈ footprint adapter v
     ↔ (x = Vector.x v * ScaledScreenAdapter._xScale adapter
        ∧ y = Vector.y v * ScaledScreenAdapter._yScale adapter)
       ∨ (y = Vector.y v * ScaledScreenAdapter._yScale adapter
          ∧ Vector.x v * ScaledScreenAdapter._xScale adapter < x
            < Vector.x v * ScaledScreenAdapter._xScale adapter
              + ScaledScreenAdapter._xScale adapter)
       ∨ (x = Vector.x v * ScaledScreenAdapter._xScale adapter
          ∧ Vector.y v * ScaledScreenAdapter._yScale adapter < y
            < Vector.y v * ScaledScreenAdapter._yScale adapter
              + ScaledScreenAdapter._yScale adapter))
  ∧ ∃ s',
      ScaledScreenAdapter.set_color_char adapter v cc s = Ret s' tt
      ∧ screen_ok s'
      ∧ Screen.size s' = Screen.size s
      ∧ ∀ x y, shown s' x y
               = if decide (Vector.mk x y ∈ footprint adapter v) then Some cc
                 else shown s x y.
Proof.
  intros Hok Hon. split; [intros x y; apply elem_of_footprint|].
  rewrite adapter_writes_footprint. by apply set_each_on_screen.
Qed.

Lemma adapter_writes_a_row_and_a_column_witness :
  ∃ s', ScaledScreenAdapter.set_color_char (ScaledScreenAdapter.mk 2 2) (Vector.mk 3 4)
          sample_char game_screen = Ret s' tt
        ∧ shown s' 6 8 = Some sample_char
        ∧ shown s' 7 8 = Some sample_char
        ∧ shown s' 6 9 = Some sample_char
        ∧ shown s' 7 9 = None.
Proof.
  assert (screen_ok game_screen) as Hok.
  { split; [reflexivity|]. repeat constructor. }
  destruct (adapter_writes_a_row_and_a_column (ScaledScreenAdapter.mk 2 2) (Vector.mk 3 4)
              sample_char game_screen Hok)
    as (_ & s' & Hset & _ & _ & Hshown).
  { repeat constructor; simpl; lia. }
  exists s'. split; [exact Hset|].
  repeat split; rewrite Hshown; reflexivity.
Defined.

Lemma draw_on_screen (view : Drawing.view) (self : Tetromino.t) s :
  screen_ok s →
  Forall (on_screen s) (drawn_positions view (Tetromino._position self)) →
  ∃ s',
    Drawing.draw view self s = Ret s' tt
    ∧ screen_ok s'
    ∧ Screen.size s' = Screen.size s
    ∧ ∀ x y,
        shown s' x y
        = if Tetromino.landed self then shown s x y
          else if decide (Vector.mk x y ∈ drawn_positions view (Tetromino._position self))
               then Some (Tetromino.color_char self)
               else shown s x y.
Proof.
  intros Hok Hon. unfold Drawing.draw.
  destruct (Tetromino.landed self).
  - by exists s.
  - rewrite draw_vectors_writes_positions. by apply set_each_on_screen.
Qed.

(** X23: [Tetromino.draw] writes nothing for a landed piece.  For a
    falling piece whose drawn positions are on the screen it returns and
    writes the piece's [ColorChar] at the positions of its cells, moved by
    the playfield's location and one more column and line for the frame
    and scaled by the adapter; every other position is as before. *)
Theorem draw_shows_a_falling_piece (view : Drawing.view) (self : Tetromino.t) s :
  screen_ok s →
  Forall (on_screen s) (drawn_positions view (Tetromino._position self)) →
  ∃ s',
    Drawing.draw view self s = Ret s' tt
    ∧ screen_ok s'
    ∧ Screen.size s' = Screen.size s
    ∧ ∀ x y,
        shown s' x y
        = if Tetromino.landed self then shown s x y
          else if decide (Vector.mk x y ∈ drawn_positions view (Tetromino._position self))
               then Some (Tetromino.color_char self)
               else shown s x y.
Proof. apply draw_on_screen. Qed.

Lemma draw_shows_a_falling_piece_witness :
  ∃ s', Drawing.draw game_view (Tetromino.self (fresh_J game_field)) game_screen = Ret s' tt
        ∧ shown s' 52 1
          = Some (Tetromino.color_char (Tetromino.self (fresh_J game_field)))
        ∧ shown s' 53 1
          = Some (Tetromino.color_char (Tetromino.self (fresh_J game_field)))
        ∧ shown s' 52 3 = None.
Proof.
  assert (screen_ok game_screen) as Hok.
  { split; [reflexivity|]. repeat constructor. }
  destruct (draw_shows_a_falling_piece game_view (Tetromino.self (fresh_J game_field))
              game_screen Hok)
    as (s' & Hdraw & _ & _ & Hshown).
  { repeat constructor; vm_compute; (reflexivity || discriminate). }
  exists s'. split; [exact Hdraw|].
  repeat split; rewrite Hshown; reflexivity.
Defined.

(** X24: as [main] sets the game up (a terminal of at least 80 columns
    and 24 lines, the playfield of 10 by 20 cells at location (20, 0)
    behind an adapter of factors 2 and 1), drawing a piece whose cells are
    in the grid never raises, and a falling piece's cell in column [x] of
    row [y] is shown at columns [42 + 2 x] and [43 + 2 x] of line
    [y + 1]. *)
Theorem main_draws_pieces_on_the_screen (self : Tetromino.t) s :
  screen_ok s →
  80 ≤ Vector.x (Screen.size s) →
  23 ≤ Vector.y (Screen.size s) →
  Forall (in_grid game_field) (Tetromino._position self) →
  ∃ s',
    Drawing.draw game_view self s = Ret s' tt
    ∧ (Tetromino.landed self = false →
       ∀ v, v ∈ Tetromino._position self →
            shown s' (42 + 2 * Vector.x v) (Vector.y v + 1)
            = Some (Tetromino.color_char self)
            ∧ shown s' (43 + 2 * Vector.x v) (Vector.y v + 1)
              = Some (Tetromino.color_char self)).
Proof.
  intros Hok Hwide Hhigh Hin.
  assert (∀ v, v ∈ Tetromino._position self →
               drawn_positions game_view [v]
               = [Vector.mk (42 + 2 * Vector.x v) (Vector.y v + 1);
                  Vector.mk (43 + 2 * Vector.x v) (Vector.y v + 1)]) as Hcells.
  { intros [vx vy] _. unfold drawn_positions, footprint. cbn.
    change (ScaledScreenAdapter.range_from_1 2) with [1].
    change (ScaledScreenAdapter.range_from_1 1) with (@nil Z).
    unfold Vector.scale, Vector.add_x, Vector.add_xy, Vector.add_vector, Vector.add_xy.
    cbn. f_equal; [f_equal; lia|]. f_equal. f_equal; lia. }
  assert (∀ v, v ∈ Tetromino._position self →
               ∀ p, p ∈ drawn_positions game_view [v] →
                    p ∈ drawn_positions game_view (Tetromino._position self)) as Hsub.
  { intros v Hv p Hp. unfold drawn_positions in *.
    apply list_elem_of_bind in Hp as (v' & Hp & Hv').
    apply list_elem_of_singleton in Hv' as ->.
    apply list_elem_of_bind. by exists v. }
  destruct (draw_on_screen game_view self s Hok) as (s' & Hdraw & _ & _ & Hshown).
  { apply Forall_forall. intros p Hp. unfold drawn_positions in Hp.
    apply list_elem_of_bind in Hp as (v & Hp & Hv).
    pose proof (proj1 (Forall_forall _ _) Hin v Hv) as [Hx Hy].
    change (Vector.x (Playfield.size game_field)) with 10 in Hx.
    change (Vector.y (Playfield.size game_field)) with 20 in Hy.
    assert (p ∈ drawn_positions game_view [v]) as Hp'.
    { unfold drawn_positions. apply list_elem_of_bind. exists v.
      split; [done|]. apply list_elem_of_here. }
    rewrite (Hcells v Hv) in Hp'.
    apply elem_of_cons in Hp' as [->|Hp'];
      [|apply list_elem_of_singleton in Hp' as ->]; split; simpl; lia. }
  exists s'. split; [done|].
  intros Hfalling v Hv. rewrite !Hshown, Hfalling.
  pose proof (Hcells v Hv) as Hcell.
  split; (rewrite decide_True; [done|]); apply (Hsub v Hv); rewrite Hcell.
  - apply list_elem_of_here.
  - apply list_elem_of_further, list_elem_of_here.
Qed.

Lemma main_draws_pieces_on_the_screen_witness :
  ∃ s', Drawing.draw game_view (Tetromino.self (fresh_J game_field)) game_screen = Ret s' tt
        ∧ shown s' 54 2
          = Some (Tetromino.color_char (Tetromino.self (fresh_J game_field))).
Proof.
  assert (screen_ok game_screen) as Hok.
  { split; [reflexivity|]. repeat constructor. }
  destruct (main_draws_pieces_on_the_screen (Tetromino.self (fresh_J game_field))
              game_screen Hok)
    as (s' & Hdraw & Hshown); [simpl; lia|simpl; lia| |].
  { repeat constructor; vm_compute; (reflexivity || discriminate). }
  exists s'. split; [exact Hdraw|].
  destruct (Hshown eq_refl (Vector.mk 6 1)) as [Hleft _].
  { vm_compute. apply list_elem_of_further, list_elem_of_further, list_elem_of_further,
      list_elem_of_here. }
  exact Hleft.
Defined.

(** X25: on a terminal that passed the size check of [main] (at least
    80 columns and 24 lines) the message written when the game is over fits
    on its line: the call returns, and the nine characters stand, white on
    black, from column [(width - 9) / 2] on line [height / 2 - 1] of the
    screen, with as many columns left of them as right of them, or one
    fewer. *)
Theorem game_over_message_fits s :
  screen_ok s →
  80 ≤ Vector.x (Screen.size s) →
  23 ≤ Vector.y (Screen.size s) →
  ∃ s',
    Drawing.game_over s = Ret s' tt
    ∧ let left := (Vector.x (Screen.size s) - 9) / 2 in
      let line := Vector.y (Screen.size s) / 2 - 1 in
      0 ≤ Vector.x (Screen.size s) - 9 - 2 * left ≤ 1
      ∧ (∀ (i : nat) char,
           Drawing.gameOver !! i = Some char →
           shown s' (left + Z.of_nat i) line
           = Some (ColorChar.mk char (Color.mk 255 255 255) (Color.mk 0 0 0)))
      ∧ ∀ x y, ¬ (y = line ∧ left ≤ x < left + 9) → shown s' x y = shown s x y.
Proof.
  intros Hok Hwide Hhigh. unfold Drawing.game_over. unfold_monad.
  change (Z.of_nat (length Drawing.gameOver)) with 9.
  rewrite !Z.quot_div_nonneg by lia.
  pose proof (Z.div_mod (Vector.x (Screen.size s) - 9) 2).
  pose proof (Z.mod_pos_bound (Vector.x (Screen.size s) - 9) 2).
  pose proof (Z.div_mod (Vector.y (Screen.size s)) 2).
  pose proof (Z.mod_pos_bound (Vector.y (Screen.size s)) 2).
  set (left := (Vector.x (Screen.size s) - 9) / 2) in *.
  set (line := Vector.y (Screen.size s) / 2 - 1) in *.
  destruct (set_string_loop_writes s (Vector.mk left line) Drawing.gameOver 0)
    as (s' & Hloop & _ & _ & Hshown); [done|simpl; lia|simpl; lia|lia|simpl; lia|].
  simpl in Hloop, Hshown.
  rewrite decide_True in Hloop by lia.
  exists s'. split; [exact Hloop|]. cbv zeta.
  split; [lia|]. split.
  - intros i char Hchar. rewrite Hshown.
    assert (i < 9)%nat by (by apply lookup_lt_Some in Hchar).
    rewrite decide_True by lia.
    replace (Z.to_nat (left + Z.of_nat i - left - 0)) with i by lia.
    by rewrite Hchar.
  - intros x y Hout. rewrite Hshown.
    destruct (decide _) as [[-> Hx]|]; [|done].
    rewrite lookup_ge_None_2; [done|].
    change (length Drawing.gameOver) with 9%nat. lia.
Qed.

Lemma game_over_message_fits_witness :
  ∃ s', Drawing.game_over game_screen = Ret s' tt
        ∧ shown s' 35 10 = Some (ColorChar.mk "G" (Color.mk 255 255 255) (Color.mk 0 0 0))
        ∧ shown s' 43 10 = Some (ColorChar.mk "r" (Color.mk 255 255 255) (Color.mk 0 0 0)).
Proof.
  assert (screen_ok game_screen) as Hok.
  { split; [reflexivity|]. repeat constructor. }
  destruct (game_over_message_fits game_screen Hok) as (s' & Hover & _ & Hshown & _);
    [simpl; lia|simpl; lia|].
  exists s'. split; [exact Hover|]. split.
  - apply (Hshown 0%nat). reflexivity.
  - apply (Hshown 8%nat). reflexivity.
Defined.

End ScreenBuffer.

(** * A cell above the top row *)

Section Overhang.

(** C2: the code at the failing input.  A new J piece turned in its
    first tick above a stack lands with a cell at [y = -1].  [land]
    writes that cell into the bottom row, which no cell of the piece is
    in and which lacked exactly that cell; it then finds the row full,
    takes it out, puts an empty row on top and scores a line: a row the
    piece did not touch is removed. *)
Lemma overhang_lock_clears_the_bottom_row :
  let start := Tetromino.mkFrame (fresh_J tower_gap_field) up_pending in
  let colorChar := Tetromino.color_char (Tetromino.self (fresh_J tower_gap_field)) in
  well_formed tower_gap_field
  ∧ Forall (fun v => Vector.y v ≠ 19) overhang_J
  ∧ cell_occupied tower_gap_field 5 19 = false
  ∧ ∃ f',
      Tetromino.process 0 true start = Some (Ret f' tt)
      ∧ Tetromino._position (Tetromino.self (Tetromino.this f')) = overhang_J
      ∧ Tetromino.landed (Tetromino.self (Tetromino.this f')) = true
      ∧ Playfield.land overhang_J colorChar tower_gap_field = Ret (frame_playfield f') tt
      ∧ Playfield.playfieldContent (frame_playfield f')
        = Playfield.empty_row 10
          :: take 19 (marked [Vector.mk 5 0; Vector.mk 5 1; Vector.mk 4 1]
                             (ColorChar.shift_to_gray colorChar)
                             (Playfield.playfieldContent tower_gap_field))
      ∧ Score._value (Playfield._score (frame_playfield f')) = 100.
Proof.
  intros start colorChar.
  split; [split; [reflexivity|repeat constructor]|].
  split; [repeat constructor; simpl; lia|].
  split; [reflexivity|].
  eexists. split; [vm_compute; reflexivity|].
  repeat split; vm_compute; reflexivity.
Qed.

(** C3: the code at the failing input.  A J piece turned in its first
    tick above a stack has a cell at [y = -1] and cannot go down.  The
    gravity step lands it with its cells unchanged, but the cell above
    the top row is pushed into the bottom row of the grid, where the
    piece has no cell: the grid afterwards is the grid before with the
    three cells of the piece that are inside it and the cell of column 5
    of row 19. *)
Lemma overhang_cell_lands_in_the_bottom_row :
  let e := turned (fresh_J tower_field) in
  let gray := ColorChar.shift_to_gray (Tetromino.color_char (Tetromino.self e)) in
  Tetromino._rotate (fresh_J tower_field) = Ret e tt
  ∧ Tetromino.landed (Tetromino.self e) = false
  ∧ Tetromino._position (Tetromino.self e) = overhang_J
  ∧ (Vector.mk 5 19 ∉ overhang_J)
  ∧ cell_occupied tower_field 5 19 = false
  ∧ ∃ e',
      Tetromino._do_gravity e = Ret e' tt
      ∧ Tetromino.landed (Tetromino.self e') = true
      ∧ Tetromino._position (Tetromino.self e') = overhang_J
      ∧ cell_occupied (Tetromino._playfield e') 5 19 = true
      ∧ Playfield.playfieldContent (Tetromino._playfield e')
        = marked [Vector.mk 5 0; Vector.mk 5 1; Vector.mk 4 1; Vector.mk 5 19] gray
                 (Playfield.playfieldContent tower_field).
Proof.
  intros e gray.
  split; [reflexivity|]. split; [reflexivity|]. split; [reflexivity|].
  split.
  { unfold overhang_J. rewrite !elem_of_cons, elem_of_nil.
    intros [H|[H|[H|[H|[]]]]]; discriminate H. }
  split; [reflexivity|].
  eexists. split; [vm_compute; reflexivity|].
  repeat split; vm_compute; reflexivity.
Qed.

Implicit Types (e : Tetromino.env).

Lemma in_grid_falling_in pf v : in_grid pf v → falling_in pf v.
Proof. intros [Hx Hy]. split; [done|lia]. Qed.

(** X29: a gravity step that lands a piece whose cells are all inside the
    grid sets exactly those cells.  The step returns with the piece
    flagged landed, its cells where they were, the matrix the one with
    these cells marked and the full rows among the touched ones taken
    out, and the score raised by the award for them; when no row is
    completed the cells set afterwards are the cells set before and the
    cells of the piece. *)
Theorem gravity_landing_locks_the_cells e :
  let pf := Tetromino._playfield e in
  let position := Tetromino._position (Tetromino.self e) in
  let colorChar := Tetromino.color_char (Tetromino.self e) in
  Tetromino.landed (Tetromino.self e) = false →
  well_formed pf →
  Forall (in_grid pf) position →
  position ≠ [] →
  (length position ≤ 4)%nat →
  existsb (blocked_below pf) position = true →
  ∃ pf',
    Tetromino._do_gravity e
    = Ret (Tetromino.mkEnv (Tetromino.mk (Tetromino.cls (Tetromino.self e)) position true) pf')
          tt
    ∧ pf' = Playfield.mk (Playfield.size pf)
                         (lock_spec position colorChar pf)
                         (Playfield.topped_out pf
                          || top_row_set (lock_spec position colorChar pf))
                         (Score.mk (Score._value (Playfield._score pf)
                                    + award (Z.of_nat (length (cleared_rows position colorChar pf)))))
    ∧ (cleared_rows position colorChar pf = [] →
       ∀ x y, cell_occupied pf' x y
              = bool_decide (Vector.mk x y ∈ position) || cell_occupied pf x y).
Proof.
  intros pf position colorChar Hfalling Hwf Hin Hne Hfour Hblocked.
  assert (Tetromino._do_gravity e = landing e) as Hstep.
  { unfold Tetromino._do_gravity, bind, get. rewrite Hfalling.
    rewrite gravity_loop_inside; [|done|].
    - fold pf position. by rewrite Hblocked.
    - eapply Forall_impl; [exact Hin|]. intros v. apply in_grid_falling_in. }
  assert (0 < Vector.y (Playfield.size pf)) as Hhigh.
  { destruct position as [|v position']; [done|].
    apply Forall_cons in Hin as [[_ Hy] _]. lia. }
  pose proof (cleared_rows_at_most position colorChar pf) as Hk.
  eexists. split; [|split; [reflexivity|]].
  - rewrite Hstep. unfold landing. fold pf position colorChar.
    rewrite land_inside_outcome by done.
    unfold zoom. simpl. rewrite score_add_award by lia. simpl.
    unfold Tetromino.set_landed. reflexivity.
  - intros Hnone x y.
    apply (cell_occupied_marked (ColorChar.shift_to_gray colorChar) position pf); [done|done|].
    simpl. unfold lock_spec. rewrite Hnone. simpl.
    apply omit_from_none. intros i Hi.
    apply not_true_is_false. intros Hcleared.
    assert (i ∈ cleared_rows position colorChar pf) as Hi'.
    { apply cleared_rows_elem. split; [done|]. rewrite marked_length in Hi. lia. }
    rewrite Hnone in Hi'. by apply elem_of_nil in Hi'.
Qed.

Lemma gravity_landing_locks_the_cells_witness :
  let resting :=
    Tetromino.mkEnv
      (Tetromino.mk Tetromino.Tetromino_O
         [Vector.mk 5 18; Vector.mk 6 18; Vector.mk 5 19; Vector.mk 6 19] false)
      game_field in
  ∃ pf', final_state (Tetromino._do_gravity resting)
         = Tetromino.mkEnv
             (Tetromino.mk Tetromino.Tetromino_O
                [Vector.mk 5 18; Vector.mk 6 18; Vector.mk 5 19; Vector.mk 6 19] true) pf'
         ∧ cell_occupied pf' 5 18 = true
         ∧ cell_occupied pf' 6 19 = true
         ∧ cell_occupied pf' 4 19 = false.
Proof.
  intros resting.
  assert (well_formed game_field) as Hwf.
  { split; [reflexivity|]. repeat constructor. }
  destruct (gravity_landing_locks_the_cells resting eq_refl Hwf)
    as (pf' & Hstep & _ & Hcells).
  { repeat constructor; vm_compute; (reflexivity || discriminate). }
  { discriminate. }
  { simpl. lia. }
  { reflexivity. }
  exists pf'. rewrite Hstep. split; [reflexivity|].
  rewrite !Hcells by reflexivity. repeat split; reflexivity.
Defined.

End Overhang.
